(** * Flowologist: dependency-graph workflows with named flows

    A shallow embedding of [src/utils/common.ts] (cycle detection and
    topological sort), [src/workflow.ts] (the execution engine) and
    [src/builders/WorkflowBuilder.ts] (validation and the synthesized
    build flow), with the properties of the specification proved over it.

    Conventions of the embedding:
    - a [Record<string, X>] whose key order is observed through
      [Object.keys] / [Object.entries] (dependency graphs, flow step tables,
      the flow registry) is an association list in key order;
    - a record used only through lookup and assignment (containers, context,
      results, input data) is a [gmap string _];
    - [Set<string>] and the boolean marker records of the cycle check are
      [gset string];
    - recursive closures ([visit], [hasCycle], [getStepLevel]) take a fuel
      argument; the entry points supply a fuel that is proved sufficient;
    - a record written as [{}] inherits the members of [Object.prototype]
      ([inherited]). The lookups and [in] tests that are made with a name
      given to the interface see them, and so does the model:
      [dependencies[node]] in [topologicalSort], [name in this.steps],
      [flowName in this.flows] and [stepName in this.flowSteps]. No method
      of the builders adds an inherited name as a key; the marker records
      of [hasCircularDependency] and the lookups on the records of a
      registered flow and on [containers] are modelled by own properties,
      and the properties of [hasCircularDependency] are stated for names
      that are not inherited;
    - [build()] hands the records of the builder to the instance it
      returns: the model describes the instance for as long as the builder
      is not used again;
    - a new key goes last in the key order: names that are canonical array
      indices, which JavaScript lists first, are left aside.

    The second part of the file proves further properties of the same
    code and of [src/builders/FlowBuilder.ts]. *)

From stdpp Require Import gmap strings list fin_maps relations pretty.

Set Warnings "-register-all,-clear-no-such-hyp".

Open Scope string_scope.
Open Scope list_scope.
Open Scope nat_scope.

(** ** JavaScript records as ordered association lists *)

Module Rec.

Fixpoint get {A : Type} (r : list (string * A)) (k : string) : option A :=
  match r with
  | [] => None
  | (k', v) :: r' => if decide (k' = k) then Some v else get r' k
  end.

(** [k in r] *)
Definition has {A : Type} (r : list (string * A)) (k : string) : bool :=
  match get r k with Some _ => true | None => false end.

(** [r[k] = v]: an existing key keeps its position, a new key goes last. *)
Fixpoint set {A : Type} (r : list (string * A)) (k : string) (v : A)
  : list (string * A) :=
  match r with
  | [] => [(k, v)]
  | (k', v') :: r' =>
      if decide (k' = k) then (k, v) :: r' else (k', v') :: set r' k v
  end.

(** [Object.keys(r)] *)
Definition keys {A : Type} (r : list (string * A)) : list string := r.*1.

End Rec.

(** ** Outcomes of the recursive helpers *)

Inductive outcome (A : Type) : Type :=
| Done (a : A)            (* normal completion *)
| Fail (message : string) (* [throw new Error(message)] *)
| OutOfFuel.              (* the fuel of the model ran out *)
Arguments Done {A} a.
Arguments Fail {A} message.
Arguments OutOfFuel {A}.

(** [for (const x of xs) body(x)] over a threaded state, stopping at the
    first abrupt completion. *)
Fixpoint for_each {S : Type} (body : string → S → outcome S)
    (xs : list string) (st : S) : outcome S :=
  match xs with
  | [] => Done st
  | x :: xs' =>
      match body x st with
      | Done st' => for_each body xs' st'
      | Fail m => Fail m
      | OutOfFuel => OutOfFuel
      end
  end.

(** ** Names inherited from [Object.prototype] *)

(** The property names of [Object.prototype]. Every member is a function,
    but [__proto__], an accessor that yields the prototype object. *)
Definition object_prototype : list string :=
  ["constructor"; "__defineGetter__"; "__defineSetter__"; "hasOwnProperty";
   "__lookupGetter__"; "__lookupSetter__"; "isPrototypeOf";
   "propertyIsEnumerable"; "toString"; "valueOf"; "__proto__";
   "toLocaleString"].

(** [name in {}] *)
Definition inherited (name : string) : bool :=
  bool_decide (name ∈ object_prototype).

(** ** Dependency graphs *)

Abbreviation graph := (list (string * list string)).

(** The dependencies listed for [node]: the entry of [node], none for a
    name without an entry. *)
Definition deps (g : graph) (node : string) : list string :=
  default [] (Rec.get g node).

(** Every name that occurs in the graph: the keys, each followed by its
    dependency list. *)
Definition nodes (g : graph) : list string :=
  Rec.keys g ≫= λ k, k :: deps g k.

(** [edge g v u]: [v] depends directly on [u]. *)
Definition edge (g : graph) (v u : string) : Prop := u ∈ deps g v.

(** [depends_on g v u]: [v] depends on [u], directly or transitively. *)
Definition depends_on (g : graph) : relation string := tc (edge g).

Definition acyclic (g : graph) : Prop := ∀ n, ¬ depends_on g n n.

(** [before l u v]: [u] occurs in [l] at a position strictly left of an
    occurrence of [v]. *)
Definition before (l : list string) (u v : string) : Prop :=
  ∃ l1 l2 l3, l = l1 ++ u :: l2 ++ v :: l3.

(** A list is dependency-ordered when it was built by appending names
    whose dependencies were all in the list already (the post-order of a
    depth-first traversal). *)
Inductive ordered (g : graph) : list string → Prop :=
| ordered_nil : ordered g []
| ordered_snoc l x :
    ordered g l → (∀ d, d ∈ deps g x → d ∈ l) → ordered g (l ++ [x]).

(** ** [topologicalSort] (src/utils/common.ts) *)

Record ts_state : Type := TsState {
  ts_result : list string;   (* [result] *)
  ts_visited : gset string;  (* [visited] *)
  ts_temp : gset string      (* [temp] *)
}.

Definition circular_message (node : string) : string :=
  "Circular dependency detected: " +:+ node.

(** [dependencies[node] || []]: the entry of [node]; for a name without
    entry that is inherited, the member of [Object.prototype], which is
    truthy and not iterable ([None]); an empty list otherwise. *)
Definition lookup_deps (g : graph) (node : string) : option (list string) :=
  match Rec.get g node with
  | Some ds => Some ds
  | None => if inherited node then None else Some []
  end.

(** The [TypeError] of [for (const dep of deps)] on a value that is not
    iterable (wording of V8). *)
Definition not_iterable : string := "deps is not iterable".

Fixpoint visit (fuel : nat) (g : graph) (node : string) (st : ts_state)
  : outcome ts_state :=
  match fuel with
  | 0 => OutOfFuel
  | S fuel' =>
      if decide (node ∈ ts_temp st) then Fail (circular_message node)
      else if decide (node ∈ ts_visited st) then Done st
      else
        let st1 := TsState (ts_result st) (ts_visited st)
                           ({[node]} ∪ ts_temp st) in
        match lookup_deps g node with
        | None => Fail not_iterable
        | Some ds =>
            match for_each (visit fuel' g) ds st1 with
            | Done st2 =>
                Done (TsState (ts_result st2 ++ [node])
                              ({[node]} ∪ ts_visited st2)
                              (ts_temp st2 ∖ {[node]}))
            | Fail m => Fail m
            | OutOfFuel => OutOfFuel
            end
        end
  end.

Definition ts_init : ts_state := TsState [] ∅ ∅.

Definition ts_root (fuel : nat) (g : graph) (node : string) (st : ts_state)
  : outcome ts_state :=
  if decide (node ∈ ts_visited st) then Done st else visit fuel g node st.

Definition topologicalSort_fuel (fuel : nat) (g : graph)
  : outcome (list string) :=
  match for_each (ts_root fuel g) (Rec.keys g) ts_init with
  | Done st => Done (ts_result st)
  | Fail m => Fail m
  | OutOfFuel => OutOfFuel
  end.

(** The recursion depth of [visit] never exceeds the number of names in
    the graph, since the names on the stack ([temp]) are distinct. *)
Definition ts_fuel (g : graph) : nat := S (length (nodes g)).

Definition topologicalSort (g : graph) : outcome (list string) :=
  topologicalSort_fuel (ts_fuel g) g.

(** ** [hasCircularDependency] (src/utils/common.ts) *)

Record cd_state : Type := CdState {
  cd_visited : gset string;   (* names with [visited[name] === true] *)
  cd_recStack : gset string   (* names with [recStack[name] === true] *)
}.

(** The [for (const dep of deps)] loop of [hasCycle]; the boolean tells
    whether the loop left through one of its [return true]. *)
Fixpoint hasCycle_deps (rec : string → cd_state → option (bool * cd_state))
    (ds : list string) (st : cd_state) : option (bool * cd_state) :=
  match ds with
  | [] => Some (false, st)
  | dep :: ds' =>
      if decide (dep ∈ cd_visited st) then
        if decide (dep ∈ cd_recStack st) then Some (true, st)
        else hasCycle_deps rec ds' st
      else
        match rec dep st with
        | None => None
        | Some (true, st') => Some (true, st')
        | Some (false, st') =>
            if decide (dep ∈ cd_recStack st') then Some (true, st')
            else hasCycle_deps rec ds' st'
        end
  end.

Fixpoint hasCycle (fuel : nat) (g : graph) (node : string) (st : cd_state)
  : option (bool * cd_state) :=
  match fuel with
  | 0 => None
  | S fuel' =>
      if decide (node ∈ cd_visited st) then
        Some (false, CdState (cd_visited st) (cd_recStack st ∖ {[node]}))
      else
        let st1 := CdState ({[node]} ∪ cd_visited st)
                           ({[node]} ∪ cd_recStack st) in
        match hasCycle_deps (hasCycle fuel' g) (deps g node) st1 with
        | None => None
        | Some (true, st2) => Some (true, st2)
        | Some (false, st2) =>
            Some (false, CdState (cd_visited st2) (cd_recStack st2 ∖ {[node]}))
        end
  end.

(** The loop over [Object.keys(dependencies)]. *)
Fixpoint hasCycle_roots (fuel : nat) (g : graph) (roots : list string)
    (st : cd_state) : option bool :=
  match roots with
  | [] => Some false
  | node :: roots' =>
      match hasCycle fuel g node st with
      | None => None
      | Some (true, _) => Some true
      | Some (false, st') => hasCycle_roots fuel g roots' st'
      end
  end.

Definition cd_init : cd_state := CdState ∅ ∅.

Definition cd_fuel (g : graph) : nat := S (length (nodes g)).

(** [startNode] is optional; [if (startNode)] also takes the empty string
    for absent. *)
Definition hasCircularDependency_fuel (fuel : nat) (g : graph)
    (startNode : option string) : option bool :=
  match startNode with
  | Some s =>
      if decide (s = EmptyString) then hasCycle_roots fuel g (Rec.keys g) cd_init
      else fst <$> hasCycle fuel g s cd_init
  | None => hasCycle_roots fuel g (Rec.keys g) cd_init
  end.

Definition hasCircularDependency (g : graph) (startNode : option string)
  : option bool :=
  hasCircularDependency_fuel (cd_fuel g) g startNode.

(** ** Level grouping ([groupStepsByLevel], src/workflow.ts) *)

(** The loop [for (const dep of deps) maxDepLevel = Math.max(maxDepLevel,
    getStepLevel(dep))], threading the memo table [stepLevels]. *)
Fixpoint max_dep_level
    (rec : string → gmap string Z → option (Z * gmap string Z))
    (ds : list string) (maxDepLevel : Z) (stepLevels : gmap string Z)
  : option (Z * gmap string Z) :=
  match ds with
  | [] => Some (maxDepLevel, stepLevels)
  | dep :: ds' =>
      match rec dep stepLevels with
      | None => None
      | Some (depLevel, stepLevels') =>
          max_dep_level rec ds' (Z.max maxDepLevel depLevel) stepLevels'
      end
  end.

Fixpoint getStepLevel (fuel : nat) (g : graph) (stepName : string)
    (stepLevels : gmap string Z) : option (Z * gmap string Z) :=
  match fuel with
  | 0 => None
  | S fuel' =>
      match stepLevels !! stepName with
      | Some level => Some (level, stepLevels)
      | None =>
          match deps g stepName with
          | [] => Some (0%Z, <[stepName := 0%Z]> stepLevels)
          | ds =>
              match max_dep_level (getStepLevel fuel' g) ds (-1)%Z stepLevels with
              | None => None
              | Some (maxDepLevel, stepLevels') =>
                  let level := (maxDepLevel + 1)%Z in
                  Some (level, <[stepName := level]> stepLevels')
              end
          end
      end
  end.

(** [while (levels.length <= level) levels.push([]);
    levels[level].push(stepName)] *)
Definition push_at_level (levels : list (list string)) (level : nat)
    (stepName : string) : list (list string) :=
  alter (λ l, l ++ [stepName]) level
        (levels ++ replicate (S level - length levels) []).

Fixpoint group_loop (fuel : nat) (g : graph) (executionOrder : list string)
    (stepLevels : gmap string Z) (levels : list (list string))
  : option (list (list string)) :=
  match executionOrder with
  | [] => Some levels
  | stepName :: rest =>
      match getStepLevel fuel g stepName stepLevels with
      | None => None
      | Some (level, stepLevels') =>
          group_loop fuel g rest stepLevels'
                     (push_at_level levels (Z.to_nat level) stepName)
      end
  end.

Definition level_fuel (g : graph) : nat := S (length (nodes g)).

Definition groupStepsByLevel (g : graph) (executionOrder : list string)
  : option (list (list string)) :=
  group_loop (level_fuel g) g executionOrder ∅ [].

(** The level the code computes for one step, starting from an empty
    memo table. *)
Definition step_level (g : graph) (stepName : string) : nat :=
  match getStepLevel (level_fuel g) g stepName ∅ with
  | Some (level, _) => Z.to_nat level
  | None => 0
  end.

(** The level assignment in the words of the specification: level 0 is
    for exactly the steps without dependencies, level [k + 1] for exactly
    the steps whose dependencies have maximum level [k]. *)
Definition max_level_is (lv : string → nat) (ds : list string) (k : nat) : Prop :=
  (∃ d, d ∈ ds ∧ lv d = k) ∧ (∀ d, d ∈ ds → lv d ≤ k).

Definition level_spec (g : graph) (lv : string → nat) : Prop :=
  ∀ s, (lv s = 0 ↔ deps g s = []) ∧
       (∀ k, lv s = S k ↔ max_level_is lv (deps g s) k).

(** ** Values, errors and deferred results *)

(** The double-quote character of the message templates. *)
Definition dq : string := String (Ascii.ascii_of_nat 34) EmptyString.
Definition quoted (s : string) : string := dq +:+ s +:+ dq.

(** What the engine needs of a JavaScript value: the value [undefined],
    and [String(v)] for a thrown value that is not an [Error]. *)
Class JsValue (V : Type) : Type := {
  undefined : V;
  toString : V → string
}.

Section Engine.

(** [V]: the JavaScript values that are not thenables. [W]: whatever the
    user's closures can reach and mutate (captured variables, the
    internals of objects held in containers). Callables are functions of
    their arguments and of [W]; they have no handle on the engine's own
    records ([containers], [context], [results]) other than the values
    passed to them, and they leave the [context] object they receive as
    they found it. *)
Context {V W : Type} `{!JsValue V}.

Inductive exn : Type :=
| JsError (message : string) (originalError : option exn) (* an [Error] *)
| NonError (v : V).                                       (* [throw v] *)

(** A promise (or thenable) is settled, or needs another turn of the
    event loop, which may change [W]. [await] flattens nested thenables,
    so a promise is fulfilled with a value of [V]. *)
Inductive promise : Type :=
| Fulfilled (v : V)
| Rejected (e : exn)
| Pending (k : W → W * promise).

Inductive returned : Type :=
| Plain (v : V)
| Deferred (p : promise).

Inductive completion : Type :=
| Return (r : returned)
| Throw (e : exn).

Definition isPromise (r : returned) : bool :=
  match r with Deferred _ => true | Plain _ => false end.

(** [error instanceof Error ? error.message : String(error)] *)
Definition error_text (e : exn) : string :=
  match e with
  | JsError message _ => message
  | NonError v => toString v
  end.

(** The [catch] block shared by [execute] and [executeAsync]. *)
Definition step_failed (stepName : string) (error : exn) : exn :=
  JsError ("Step " +:+ quoted stepName +:+ " failed: " +:+ error_text error)
          (Some error).

Definition sync_only : string :=
  " returned a Promise, but execute requires synchronous execution. Use executeAsync instead.".

Definition step_returned_promise (stepName : string) : exn :=
  JsError ("Step " +:+ quoted stepName +:+ sync_only) None.

Definition action_returned_promise (stepName : string) : exn :=
  JsError ("Flow action for " +:+ quoted stepName +:+ sync_only) None.

Definition flow_does_not_exist (flowName : string) : exn :=
  JsError ("Flow " +:+ quoted flowName +:+ " does not exist") None.

(** [this.flows[flowName]] for an inherited name that is no key is a
    member of [Object.prototype]; it has no [dependencies], and
    [Object.keys(undefined)] in [topologicalSort] is a [TypeError] of the
    runtime (wording of V8). *)
Definition no_dependencies : exn :=
  JsError "Cannot convert undefined or null to object" None.

(** Calling [this.steps[stepName]] when no implementation was registered
    is a [TypeError] of the runtime (wording of V8). *)
Definition not_a_function : exn :=
  JsError "this.steps[stepName] is not a function" None.

(** ** Steps, flows and the workflow instance (src/types.ts) *)

Definition StepImplementation : Type := gmap string V → W → W * completion.
Definition FlowAction : Type := V → gmap string V → W → W * completion.

Record FlowDefinition : Type := {
  fd_steps : list (string * FlowAction);
  fd_dependencies : graph
}.

(** The read-only fields of [WorkflowInstance]. *)
Record Workflow : Type := {
  wf_steps : gmap string StepImplementation;
  wf_dependencies : graph;
  wf_flows : list (string * FlowDefinition);
  wf_buildFlowName : string
}.

(** Observation log of a run: which callable was called with which
    arguments, which value each step produced, and what the callable of a
    step threw or rejected with. The log is not part of the program; the
    theorems use it to speak about invocations. *)
Inductive event : Type :=
| CallStep (stepName : string) (inputData : gmap string V)
| CallAction (stepName : string) (container : V) (context : gmap string V)
| Produced (stepName : string) (value : V)
| Threw (stepName : string) (error : exn).

Definition event_step (ev : event) : string :=
  match ev with
  | CallStep stepName _ | CallAction stepName _ _
  | Produced stepName _ | Threw stepName _ => stepName
  end.

Definition is_call (ev : event) : bool :=
  match ev with
  | CallStep _ _ | CallAction _ _ _ => true
  | _ => false
  end.

(** The steps whose callable was called, in call order. *)
Definition called (tr : list event) : list string :=
  event_step <$> filter (λ ev, is_call ev = true) tr.

Record state : Type := State {
  world : W;
  containers : gmap string V;   (* [this.containers] *)
  trace : list event
}.

Record FlowRun : Type := {
  results : gmap string V;
  success : bool
}.

(** How a call of the public interface ends. [Unsettled] is a run without
    completion: awaited promises that do not settle within the schedule
    (or helper fuel running out, which the entry points exclude). *)
Inductive result (A : Type) : Type :=
| Returned (a : A)
| Raised (e : exn)
| Unsettled.
Arguments Returned {A} a.
Arguments Raised {A} e.
Arguments Unsettled {A}.

(** [this.containers[name]] *)
Definition container_of (st : state) (name : string) : V :=
  default undefined (containers st !! name).

(** [this.containers[stepName] = value] *)
Definition write_container (st : state) (stepName : string) (value : V) : state :=
  State (world st) (<[stepName := value]> (containers st)) (trace st).

Definition log (st : state) (e : event) : state :=
  State (world st) (containers st) (trace st ++ [e]).

Definition set_world (st : state) (w : W) : state :=
  State w (containers st) (trace st).

(** [for (const dep of deps) inputData[String(dep)] = this.containers[dep]] *)
Definition input_data (wf : Workflow) (st : state) (stepName : string)
  : gmap string V :=
  foldl (λ inputData dep, <[dep := container_of st dep]> inputData) ∅
        (deps (wf_dependencies wf) stepName).

Definition is_build_flow (wf : Workflow) (flowName : string) : bool :=
  bool_decide (flowName = wf_buildFlowName wf).

(** A completed call, with what it threw entered in the log. *)
Definition after_call (st : state) (stepName : string) (call : event)
    (wc : W * completion) : state * completion :=
  let st1 := log (set_world st wc.1) call in
  match wc.2 with
  | Throw e => (log st1 (Threw stepName e), Throw e)
  | Return r => (st1, Return r)
  end.

(** The call made for one step: the step implementation on its input data
    in the build flow, the flow action on the container value and the
    context otherwise. *)
Definition invoke (wf : Workflow) (flowName : string) (flow : FlowDefinition)
    (context : gmap string V) (stepName : string) (st : state)
  : state * completion :=
  if is_build_flow wf flowName then
    let inputData := input_data wf st stepName in
    match wf_steps wf !! stepName with
    | None => (log st (Threw stepName not_a_function), Throw not_a_function)
    | Some implementation =>
        after_call st stepName (CallStep stepName inputData)
                   (implementation inputData (world st))
    end
  else
    let container := container_of st stepName in
    match Rec.get (fd_steps flow) stepName with
    | None => (log st (Threw stepName not_a_function), Throw not_a_function)
    | Some action =>
        after_call st stepName (CallAction stepName container context)
                   (action container context (world st))
    end.

(** The value of a step is in hand: the build flow stores it in the
    container, a user flow does not. *)
Definition produce (wf : Workflow) (flowName : string) (stepName : string)
    (value : V) (st : state) : state :=
  let st' := if is_build_flow wf flowName
             then write_container st stepName value else st in
  log st' (Produced stepName value).

(** ** [execute] *)

(** The body of the [try] block for one step: its value, or what was
    thrown inside the block. *)
Definition try_step (wf : Workflow) (flowName : string) (flow : FlowDefinition)
    (context : gmap string V) (stepName : string) (st : state)
  : state * (V + exn) :=
  match invoke wf flowName flow context stepName st with
  | (st1, Throw e) => (st1, inr e)
  | (st1, Return (Deferred _)) =>
      (st1, inr (if is_build_flow wf flowName
                 then step_returned_promise stepName
                 else action_returned_promise stepName))
  | (st1, Return (Plain v)) => (produce wf flowName stepName v st1, inl v)
  end.

Fixpoint execute_loop (wf : Workflow) (flowName : string) (flow : FlowDefinition)
    (executionOrder : list string) (context results : gmap string V)
    (st : state) : state * result FlowRun :=
  match executionOrder with
  | [] => (st, Returned {| results := results; success := true |})
  | stepName :: rest =>
      if negb (Rec.has (fd_steps flow) stepName) then
        execute_loop wf flowName flow rest context results st
      else
        match try_step wf flowName flow context stepName st with
        | (st1, inl v) =>
            execute_loop wf flowName flow rest
              (<[stepName := v]> context) (<[stepName := v]> results) st1
        | (st1, inr error) => (st1, Raised (step_failed stepName error))
        end
  end.

Definition execute (wf : Workflow) (flowName : string) (st : state)
  : state * result FlowRun :=
  match Rec.get (wf_flows wf) flowName with
  | None =>
      if inherited flowName then (st, Raised no_dependencies)
      else (st, Raised (flow_does_not_exist flowName))
  | Some flow =>
      match topologicalSort (fd_dependencies flow) with
      | Fail message => (st, Raised (JsError message None))
      | OutOfFuel => (st, Unsettled)
      | Done executionOrder =>
          execute_loop wf flowName flow executionOrder ∅ ∅ st
      end
  end.

(** [refresh()]: the result of the run is dropped, an error is rethrown. *)
Definition refresh (wf : Workflow) (st : state) : state * result unit :=
  match execute wf (wf_buildFlowName wf) st with
  | (st', Returned _) => (st', Returned ())
  | (st', Raised e) => (st', Raised e)
  | (st', Unsettled) => (st', Unsettled)
  end.

(** ** [executeAsync] *)

(** The promise returned by the [async] callback of one step of a level. *)
Inductive task : Type :=
| TaskSkipped                                  (* resolved with [undefined] *)
| TaskDone (stepName : string) (value : V)     (* resolved with its item *)
| TaskFailed (e : exn)                         (* rejected *)
| TaskAwaiting (stepName : string) (p : promise).  (* suspended at [await] *)

(** The callback up to its first [await], run by [levelSteps.map]. *)
Definition start_step (wf : Workflow) (flowName : string) (flow : FlowDefinition)
    (context : gmap string V) (stepName : string) (st : state)
  : state * task :=
  if negb (Rec.has (fd_steps flow) stepName) then (st, TaskSkipped)
  else
    match invoke wf flowName flow context stepName st with
    | (st1, Throw e) => (st1, TaskFailed (step_failed stepName e))
    | (st1, Return (Deferred p)) => (st1, TaskAwaiting stepName p)
    | (st1, Return (Plain v)) =>
        (produce wf flowName stepName v st1, TaskDone stepName v)
    end.

Fixpoint start_level (wf : Workflow) (flowName : string) (flow : FlowDefinition)
    (context : gmap string V) (levelSteps : list string) (st : state)
  : state * list task :=
  match levelSteps with
  | [] => (st, [])
  | stepName :: rest =>
      let '(st1, t) := start_step wf flowName flow context stepName st in
      let '(st2, ts) := start_level wf flowName flow context rest st1 in
      (st2, t :: ts)
  end.

(** One turn of the event loop given to a suspended callback: the awaited
    promise advances; once settled, the callback runs to its end. *)
Definition resume_task (wf : Workflow) (flowName : string) (t : task)
    (st : state) : state * task :=
  match t with
  | TaskAwaiting stepName (Fulfilled v) =>
      (produce wf flowName stepName v st, TaskDone stepName v)
  | TaskAwaiting stepName (Rejected e) =>
      (log st (Threw stepName e), TaskFailed (step_failed stepName e))
  | TaskAwaiting stepName (Pending k) =>
      let '(w, p) := k (world st) in (set_world st w, TaskAwaiting stepName p)
  | _ => (st, t)
  end.

Definition resume_at (wf : Workflow) (flowName : string) (i : nat)
    (tasks : list task) (st : state) : state * list task :=
  match tasks !! i with
  | Some t =>
      let '(st', t') := resume_task wf flowName t st in (st', <[i := t']> tasks)
  | None => (st, tasks)
  end.

(** [Promise.all] rejects with the first rejection it sees. *)
Fixpoint first_rejection (tasks : list task) : option exn :=
  match tasks with
  | [] => None
  | TaskFailed e :: _ => Some e
  | _ :: tasks' => first_rejection tasks'
  end.

(** The array [levelResults] once every callback has resolved. *)
Fixpoint level_results (tasks : list task) : option (list (option (string * V))) :=
  match tasks with
  | [] => Some []
  | TaskSkipped :: tasks' => (None ::.) <$> level_results tasks'
  | TaskDone stepName v :: tasks' => (Some (stepName, v) ::.) <$> level_results tasks'
  | _ :: _ => None
  end.

Inductive joined : Type :=
| AllResolved (levelResults : list (option (string * V)))
| OneRejected (e : exn)
| NeverSettled.

(** [await Promise.all(levelPromises)]. The schedule lists, turn by turn,
    the index of the suspended callback that the event loop serves next. *)
Fixpoint await_all (wf : Workflow) (flowName : string) (schedule : list nat)
    (tasks : list task) (st : state) : list nat * state * joined :=
  match first_rejection tasks with
  | Some e => (schedule, st, OneRejected e)
  | None =>
      match level_results tasks with
      | Some levelResults => (schedule, st, AllResolved levelResults)
      | None =>
          match schedule with
          | [] => (schedule, st, NeverSettled)
          | i :: schedule' =>
              let '(st', tasks') := resume_at wf flowName i tasks st in
              await_all wf flowName schedule' tasks' st'
          end
      end
  end.

(** [for (const item of levelResults) if (item) { context[...] = ...;
    results[...] = ... }] applied to one of the two records. *)
Definition fold_results (levelResults : list (option (string * V)))
    (m : gmap string V) : gmap string V :=
  foldl (λ acc item,
           match item with
           | Some (stepName, v) => <[stepName := v]> acc
           | None => acc
           end) m levelResults.

Fixpoint executeAsync_loop (wf : Workflow) (flowName : string)
    (flow : FlowDefinition) (levelGroups : list (list string))
    (schedule : list nat) (context results : gmap string V) (st : state)
  : state * result FlowRun :=
  match levelGroups with
  | [] => (st, Returned {| results := results; success := true |})
  | levelSteps :: rest =>
      let '(st1, tasks) := start_level wf flowName flow context levelSteps st in
      match await_all wf flowName schedule tasks st1 with
      | (schedule', st2, AllResolved levelResults) =>
          executeAsync_loop wf flowName flow rest schedule'
            (fold_results levelResults context)
            (fold_results levelResults results) st2
      | (_, st2, OneRejected e) => (st2, Raised e)
      | (_, st2, NeverSettled) => (st2, Unsettled)
      end
  end.

Definition executeAsync (wf : Workflow) (flowName : string)
    (schedule : list nat) (st : state) : state * result FlowRun :=
  match Rec.get (wf_flows wf) flowName with
  | None =>
      if inherited flowName then (st, Raised no_dependencies)
      else (st, Raised (flow_does_not_exist flowName))
  | Some flow =>
      match topologicalSort (fd_dependencies flow) with
      | Fail message => (st, Raised (JsError message None))
      | OutOfFuel => (st, Unsettled)
      | Done executionOrder =>
          match groupStepsByLevel (fd_dependencies flow) executionOrder with
          | None => (st, Unsettled)
          | Some levelGroups =>
              executeAsync_loop wf flowName flow levelGroups schedule ∅ ∅ st
          end
      end
  end.

(** ** [WorkflowBuilder] and [FlowBuilder] (src/builders) *)

Record WorkflowBuilder : Type := {
  b_steps : gmap string StepImplementation;
  b_dependencies : graph;
  b_flows : list (string * FlowDefinition)
}.

(** The private field [buildFlowName] of every builder. *)
Definition builder_buildFlowName : string := "__build__".

Definition new_WorkflowBuilder : WorkflowBuilder :=
  {| b_steps := ∅; b_dependencies := []; b_flows := [] |}.

(** [name in this.steps] *)
Definition has_step (b : WorkflowBuilder) (name : string) : bool :=
  bool_decide (is_Some (b_steps b !! name)) || inherited name.

Definition step_already_exists (name : string) : exn :=
  JsError ("Step " +:+ quoted name +:+ " already exists") None.

Definition dependency_does_not_exist (dep name : string) : exn :=
  JsError ("Dependency " +:+ quoted dep +:+ " does not exist for step "
           +:+ quoted name) None.

(** [addStep(name, dependencies)], up to the returned [StepImplementer]
    (the builder and [name]). *)
Definition addStep (b : WorkflowBuilder) (name : string)
    (dependencies : list string) : exn + WorkflowBuilder :=
  if has_step b name then inl (step_already_exists name)
  else
    match list_find (λ dep, has_step b dep = false) dependencies with
    | Some (_, dep) => inl (dependency_does_not_exist dep name)
    | None =>
        inr {| b_steps := b_steps b;
               b_dependencies := Rec.set (b_dependencies b) name dependencies;
               b_flows := b_flows b |}
    end.

Definition addStepWithoutDependencies (b : WorkflowBuilder) (name : string)
  : exn + WorkflowBuilder :=
  if has_step b name then inl (step_already_exists name)
  else inr {| b_steps := b_steps b;
              b_dependencies := Rec.set (b_dependencies b) name [];
              b_flows := b_flows b |}.

(** [withImplementation] of the [StepImplementer] for [name]. *)
Definition _registerImplementation (b : WorkflowBuilder) (name : string)
    (execute : StepImplementation) : WorkflowBuilder :=
  {| b_steps := <[name := execute]> (b_steps b);
     b_dependencies := b_dependencies b;
     b_flows := b_flows b |}.

Record FlowBuilder : Type := {
  fb_workflowBuilder : WorkflowBuilder;
  fb_flowName : string;
  fb_flowSteps : list (string * FlowAction);
  fb_flowDependencies : graph
}.

Definition flow_already_exists (flowName : string) : exn :=
  JsError ("Flow " +:+ quoted flowName +:+ " already exists") None.

Definition defineFlow (b : WorkflowBuilder) (flowName : string)
  : exn + FlowBuilder :=
  if Rec.has (b_flows b) flowName || inherited flowName
  then inl (flow_already_exists flowName)
  else inr {| fb_workflowBuilder := b; fb_flowName := flowName;
              fb_flowSteps := []; fb_flowDependencies := [] |}.

Definition flow_step_already_exists (stepName flowName : string) : exn :=
  JsError ("Flow step " +:+ quoted stepName +:+ " already exists in flow "
           +:+ quoted flowName) None.

Definition addFlowStep (fb : FlowBuilder) (stepName : string)
    (dependencies : list string) : exn + FlowBuilder :=
  if Rec.has (fb_flowSteps fb) stepName || inherited stepName
  then inl (flow_step_already_exists stepName (fb_flowName fb))
  else inr {| fb_workflowBuilder := fb_workflowBuilder fb;
              fb_flowName := fb_flowName fb;
              fb_flowSteps := fb_flowSteps fb;
              fb_flowDependencies :=
                Rec.set (fb_flowDependencies fb) stepName dependencies |}.

(** [withFlowAction] of the [FlowStepImplementer] for [stepName]. *)
Definition _registerFlowAction (fb : FlowBuilder) (stepName : string)
    (action : FlowAction) : FlowBuilder :=
  {| fb_workflowBuilder := fb_workflowBuilder fb;
     fb_flowName := fb_flowName fb;
     fb_flowSteps := Rec.set (fb_flowSteps fb) stepName action;
     fb_flowDependencies := fb_flowDependencies fb |}.

Definition _registerFlow (b : WorkflowBuilder) (flowName : string)
    (flowDef : FlowDefinition) : WorkflowBuilder :=
  {| b_steps := b_steps b;
     b_dependencies := b_dependencies b;
     b_flows := Rec.set (b_flows b) flowName flowDef |}.

Definition endFlow (fb : FlowBuilder) : WorkflowBuilder :=
  _registerFlow (fb_workflowBuilder fb) (fb_flowName fb)
    {| fd_steps := fb_flowSteps fb;
       fd_dependencies := fb_flowDependencies fb |}.

(** The action of every step of the synthesized build flow:
    [(container) => container]. *)
Definition build_action : FlowAction :=
  λ container _ w, (w, Return (Plain container)).

(** The records [buildDependencies] and [buildSteps] that
    [createBuildFlow()] fills from [Object.entries(this.dependencies)]. *)
Definition buildDependencies (b : WorkflowBuilder) : graph :=
  foldl (λ acc kv, Rec.set acc kv.1 kv.2) [] (b_dependencies b).

Definition buildSteps (b : WorkflowBuilder) : list (string * FlowAction) :=
  foldl (λ acc kv, Rec.set acc kv.1 build_action) [] (b_dependencies b).

(** The synthesized build flow. *)
Definition build_flow (b : WorkflowBuilder) : FlowDefinition :=
  {| fd_steps := buildSteps b; fd_dependencies := buildDependencies b |}.

(** [createBuildFlow()] *)
Definition createBuildFlow (b : WorkflowBuilder) : WorkflowBuilder :=
  {| b_steps := b_steps b;
     b_dependencies := b_dependencies b;
     b_flows := Rec.set (b_flows b) builder_buildFlowName (build_flow b) |}.

Definition circular_in_workflow : string :=
  "Circular dependency detected in workflow".

(** [checkForCircularDependencies()] *)
Definition checkForCircularDependencies (b : WorkflowBuilder) : outcome unit :=
  match hasCircularDependency (b_dependencies b) None with
  | None => OutOfFuel
  | Some true => Fail circular_in_workflow
  | Some false => Done ()
  end.

Definition validate_flow_deps (b : WorkflowBuilder) (flowName : string)
    (flow : FlowDefinition) (stepName : string) (ds : list string)
  : outcome unit :=
  for_each (λ dep _,
      if negb (has_step b dep) then
        Fail ("Flow " +:+ quoted flowName +:+ " step " +:+ quoted stepName
              +:+ " depends on " +:+ quoted dep
              +:+ " which does not exist in the main workflow")
      else if negb (Rec.has (fd_dependencies flow) dep) then
        Fail ("Flow " +:+ quoted flowName +:+ " step " +:+ quoted stepName
              +:+ " depends on " +:+ quoted dep
              +:+ " which is not part of this flow")
      else Done ()) ds ().

Definition validate_flow (b : WorkflowBuilder) (flowName : string)
    (flow : FlowDefinition) : outcome unit :=
  match hasCircularDependency (fd_dependencies flow) None with
  | None => OutOfFuel
  | Some true =>
      Fail ("Circular dependency detected in flow " +:+ quoted flowName)
  | Some false =>
      match for_each (λ stepName _,
                if negb (has_step b stepName) then
                  Fail ("Flow " +:+ quoted flowName +:+ " references step "
                        +:+ quoted stepName
                        +:+ " which does not exist in the main workflow")
                else Done ()) (Rec.keys (fd_steps flow)) () with
      | Done _ =>
          foldl (λ acc kv,
                   match acc with
                   | Done _ => validate_flow_deps b flowName flow kv.1 kv.2
                   | other => other
                   end) (Done ()) (fd_dependencies flow)
      | other => other
      end
  end.

(** [validateFlows()] *)
Definition validateFlows (b : WorkflowBuilder) : outcome unit :=
  foldl (λ acc kv,
           match acc with
           | Done _ => validate_flow b kv.1 kv.2
           | other => other
           end) (Done ()) (b_flows b).

Definition instance_of (b : WorkflowBuilder) : Workflow :=
  {| wf_steps := b_steps b;
     wf_dependencies := b_dependencies b;
     wf_flows := b_flows b;
     wf_buildFlowName := builder_buildFlowName |}.

(** The state in which a fresh instance starts: empty [containers]. *)
Definition fresh (w : W) : state := State w ∅ [].

(** [build()]: the workflow and the state of the instance it returns, or
    the error it throws. *)
Definition build (b : WorkflowBuilder) (w : W) : state * result Workflow :=
  match checkForCircularDependencies b with
  | Fail message => (fresh w, Raised (JsError message None))
  | OutOfFuel => (fresh w, Unsettled)
  | Done _ =>
      match validateFlows b with
      | Fail message => (fresh w, Raised (JsError message None))
      | OutOfFuel => (fresh w, Unsettled)
      | Done _ =>
          let workflow := instance_of (createBuildFlow b) in
          match execute workflow builder_buildFlowName (fresh w) with
          | (st, Returned _) => (st, Returned workflow)
          | (st, Raised e) => (st, Raised e)
          | (st, Unsettled) => (st, Unsettled)
          end
      end
  end.

(** [buildAsync()] *)
Definition buildAsync (b : WorkflowBuilder) (schedule : list nat) (w : W)
  : state * result Workflow :=
  match checkForCircularDependencies b with
  | Fail message => (fresh w, Raised (JsError message None))
  | OutOfFuel => (fresh w, Unsettled)
  | Done _ =>
      match validateFlows b with
      | Fail message => (fresh w, Raised (JsError message None))
      | OutOfFuel => (fresh w, Unsettled)
      | Done _ =>
          let workflow := instance_of (createBuildFlow b) in
          match executeAsync workflow builder_buildFlowName schedule (fresh w) with
          | (st, Returned _) => (st, Returned workflow)
          | (st, Raised e) => (st, Raised e)
          | (st, Unsettled) => (st, Unsettled)
          end
      end
  end.

End Engine.

Arguments Returned {V A} a.
Arguments Raised {V A} e.
Arguments Unsettled {V A}.

(** ** Invariants of a run, over its observation log *)

Section RunInvariants.

Context {V W : Type} `{!JsValue V}.

(** The step has an entry in [flow.steps]. *)
Definition has_action (flow : @FlowDefinition V W) (stepName : string) : Prop :=
  Rec.has (fd_steps flow) stepName = true.

#[global] Instance has_action_dec flow stepName : Decision (has_action flow stepName).
Proof. unfold has_action. apply _. Defined.

(** The events that a call added to the log. *)
Definition new_events (st st' : @state V W) : list (@event V) :=
  drop (length (trace st)) (trace st').

(** The event of the call that [invoke] makes for a step. *)
Definition call_event (wf : @Workflow V W) (flowName : string)
    (context : gmap string V) (stepName : string) (st : @state V W) : @event V :=
  if is_build_flow wf flowName
  then CallStep stepName (input_data wf st stepName)
  else CallAction stepName (container_of st stepName) context.

(** The error of [execute] for a callable that returned a promise. *)
Definition returned_promise (wf : @Workflow V W) (flowName stepName : string)
  : @exn V :=
  if is_build_flow wf flowName then step_returned_promise stepName
  else action_returned_promise stepName.

(** The build flow calls step implementations, every other flow calls
    flow actions. *)
Definition call_kind (wf : @Workflow V W) (flowName : string) (ev : @event V)
  : Prop :=
  match ev with
  | CallStep _ _ => is_build_flow wf flowName = true
  | CallAction _ _ _ => is_build_flow wf flowName = false
  | _ => True
  end.

(** Every call of a flow action received a context that holds the value
    produced earlier in the run by every step that counts as [earlier],
    and in particular the values of the flow-local dependencies that have
    an action. *)
Definition context_sound (flow : @FlowDefinition V W)
    (earlier : string → string → Prop) (new : list (@event V)) : Prop :=
  ∀ j s c cx, new !! j = Some (CallAction s c cx) →
    (∀ i x v, i < j → new !! i = Some (Produced x v) → earlier x s →
              cx !! x = Some v) ∧
    (∀ d, d ∈ deps (fd_dependencies flow) s → has_action flow d →
          ∃ i v, i < j ∧ new !! i = Some (Produced d v) ∧ cx !! d = Some v).

(** Every call of a step implementation received input data that holds,
    for each dependency of the step (declared for the step and in the
    graph of the flow) that is a step of the flow, the value which that
    dependency produced earlier in the run. *)
Definition input_sound (wf : @Workflow V W) (flow : @FlowDefinition V W)
    (new : list (@event V)) : Prop :=
  ∀ j s inputData, new !! j = Some (CallStep s inputData) →
    ∀ d, d ∈ deps (wf_dependencies wf) s →
         d ∈ deps (fd_dependencies flow) s → has_action flow d →
         ∃ i v, i < j ∧ new !! i = Some (Produced d v) ∧ inputData !! d = Some v.

(** The state of a run after the steps [done]: what was produced is in
    [context] and [results] (and, in the build flow, in the containers),
    every step of [done] that has an action was called, in the order of
    [done], and produced a value, and nothing threw. *)
Record run_inv (wf : @Workflow V W) (flowName : string) (flow : @FlowDefinition V W)
    (earlier : string → string → Prop) (done : list string)
    (new : list (@event V)) (context results : gmap string V)
    (st : @state V W) : Prop := {
  inv_produced : ∀ i x v, new !! i = Some (Produced x v) →
    x ∈ done ∧ context !! x = Some v ∧ results !! x = Some v ∧
    (is_build_flow wf flowName = true → containers st !! x = Some v);
  inv_done : ∀ x, x ∈ done → has_action flow x →
    ∃ i v, new !! i = Some (Produced x v);
  inv_steps : ∀ ev, ev ∈ new → event_step ev ∈ done;
  inv_called : called new = filter (has_action flow) done;
  inv_no_throw : ∀ s e, Threw s e ∉ new;
  inv_context : context_sound flow earlier new;
  inv_kind : ∀ ev, ev ∈ new → call_kind wf flowName ev;
  inv_input : input_sound wf flow new
}.

(** Every dependency of an entry stands in the part of the list before
    the entry. *)
Definition dep_sorted (g : graph) (l : list string) : Prop :=
  ∀ l1 s l2, l = l1 ++ s :: l2 → ∀ d, d ∈ deps g s → d ∈ l1.

(** The callback of step [s] of a level and the promise it returned. *)
Definition task_for (flow : @FlowDefinition V W) (s : string) (t : @task V W)
  : Prop :=
  match t with
  | TaskSkipped => ¬ has_action flow s
  | TaskDone s' _ | TaskAwaiting s' _ => s' = s ∧ has_action flow s
  | TaskFailed e => has_action flow s ∧ ∃ cause, e = step_failed s cause
  end.

(** The state of a level of a concurrent run: [started] are the steps of
    the level whose callback has started, [tasks] their promises, [evs]
    the events of the level so far, [st0] the state in which the level
    began and [new] the events of the run before the level. *)
Record level_inv (wf : @Workflow V W) (flowName : string) (flow : @FlowDefinition V W)
    (earlier : string → string → Prop) (new : list (@event V))
    (st0 : @state V W) (started : list string) (tasks : list (@task V W))
    (evs : list (@event V)) (st : @state V W) : Prop := {
  lv_tasks : Forall2 (task_for flow) started tasks;
  lv_done : ∀ s v, TaskDone s v ∈ tasks →
    Produced s v ∈ evs ∧
    (is_build_flow wf flowName = true → containers st !! s = Some v);
  lv_produced : ∀ s v, Produced s v ∈ evs → TaskDone s v ∈ tasks;
  lv_failed : ∀ e, TaskFailed e ∈ tasks →
    ∃ s cause, e = step_failed s cause ∧ Threw s cause ∈ evs;
  lv_threw : ∀ s cause, Threw s cause ∈ evs →
    TaskFailed (step_failed s cause) ∈ tasks;
  lv_steps : ∀ ev, ev ∈ evs → event_step ev ∈ started;
  lv_called : (∀ e, TaskFailed e ∉ tasks) →
    called evs = filter (has_action flow) started;
  lv_frame : ∀ x, x ∉ started → containers st !! x = containers st0 !! x;
  lv_context : context_sound flow earlier (new ++ evs);
  lv_kind : ∀ ev, ev ∈ evs → call_kind wf flowName ev;
  lv_input : input_sound wf flow (new ++ evs)
}.

(** A run of the build flow that returned: every call was a call of a
    step implementation, and every step of the order with an entry in the
    flow had its implementation called, with the value it produced now in
    its container and in the results. *)
Definition recomputed (flow : @FlowDefinition V W) (steps : list string)
    (new : list (@event V)) (st' : @state V W) (r : @FlowRun V) : Prop :=
  (∀ ev, ev ∈ new → is_call ev = true → ∃ s inputData, ev = CallStep s inputData) ∧
  (∀ s, s ∈ steps → has_action flow s →
        ∃ inputData v,
          CallStep s inputData ∈ new ∧ Produced s v ∈ new ∧
          containers st' !! s = Some v ∧ results r !! s = Some v).

End RunInvariants.

(** ** Invariants of the graph traversals *)

Definition node_set (g : graph) : gset string := list_to_set (nodes g).

(** [topologicalSort]: [result] lists [visited] without repetition and in
    dependency order, nothing on the stack ([temp]) is finished, and only
    names of the graph are visited. *)
Definition ts_inv (g : graph) (st : ts_state) : Prop :=
  NoDup (ts_result st) ∧
  (∀ x, x ∈ ts_visited st ↔ x ∈ ts_result st) ∧
  ordered g (ts_result st) ∧
  ts_temp st ## ts_visited st ∧
  ts_visited st ⊆ node_set g.

(** A name of the graph without an entry for which [dependencies[name]]
    finds a member of [Object.prototype]. *)
Definition finds_inherited (g : graph) (n : string) : Prop :=
  n ∈ nodes g ∧ Rec.get g n = None ∧ inherited n = true.

(** What a call of [visit] (or a loop of calls) guarantees, by outcome. *)
Definition ts_post (g : graph) (st : ts_state) (targets : list string)
    (o : outcome ts_state) : Prop :=
  match o with
  | Done st' =>
      ts_inv g st' ∧ ts_temp st' = ts_temp st ∧
      ts_visited st ⊆ ts_visited st' ∧
      (∃ l, ts_result st' = ts_result st ++ l) ∧
      (∀ d, d ∈ targets → d ∈ ts_visited st')
  | Fail _ => (∃ n, depends_on g n n) ∨ (∃ n, finds_inherited g n)
  | OutOfFuel => False
  end.

(** [hasCircularDependency]: the finished names (visited and off the
    recursion stack) can be listed in dependency order. *)
Definition cd_inv (g : graph) (st : cd_state) : Prop :=
  cd_visited st ⊆ node_set g ∧
  cd_recStack st ⊆ cd_visited st ∧
  ∃ fin, NoDup fin ∧ ordered g fin ∧
         ∀ x, x ∈ fin ↔ x ∈ cd_visited st ∧ x ∉ cd_recStack st.

Definition cd_post (g : graph) (st : cd_state) (targets : list string)
    (o : option (bool * cd_state)) : Prop :=
  match o with
  | Some (false, st') =>
      cd_inv g st' ∧ cd_visited st ⊆ cd_visited st' ∧
      cd_recStack st' = cd_recStack st ∧
      (∀ d, d ∈ targets → d ∈ cd_visited st' ∧ d ∉ cd_recStack st')
  | Some (true, _) => True
  | None => False
  end.

(** ** Reference levels for the proofs about [groupStepsByLevel] *)

(** The graph with an empty entry added for every name that has none:
    the same names and the same edges, and every lookup finds an entry. *)
Definition with_entries (g : graph) : graph :=
  g ++ ((λ n, (n, [])) <$> filter (λ n, n ∉ Rec.keys g) (nodes g)).

Definition dep_level (L : gmap string Z) (d : string) : Z := default 0%Z (L !! d).

(** One more than the largest level among the dependencies. *)
Definition level_formula (g : graph) (L : gmap string Z) (s : string) : Z :=
  (foldl Z.max (-1) (dep_level L <$> deps g s) + 1)%Z.

(** The table of levels built along a dependency-ordered list. *)
Definition ref_levels (g : graph) (l : list string) : gmap string Z :=
  foldl (λ L x, <[x := level_formula g L x]> L) ∅ l.

(** The list [levels[k]], or the empty list when there is no such entry. *)
Definition level_at (levels : list (list string)) (k : nat) : list string :=
  default [] (levels !! k).

(** ** Graphs of the scenarios *)

Definition diamond : graph :=
  [("a", []); ("b", ["a"]); ("c", ["a"]); ("d", ["b"; "c"])].

Definition two_cycle : graph := [("a", ["b"]); ("b", ["a"])].

(** A step that depends on a name without entry which is the name of a
    member of [Object.prototype]. *)
Definition inherited_dependency : graph := [("a", ["constructor"])].

(** ** The claim about [topologicalSort] as the specification words it *)


(** ** Scenarios of the test suite *)

(** First-order values for the scenarios. *)
Inductive value : Type :=
| VUndefined
| VBool (b : bool)
| VNum (n : Z)
| VStr (s : string)
| VCounter (counter : Z).   (* the object [{ counter }] *)

Definition value_toString (v : value) : string :=
  match v with
  | VUndefined => "undefined"
  | VBool true => "true"
  | VBool false => "false"
  | VNum n => pretty n
  | VStr s => s
  | VCounter _ => "[object Object]"
  end.

#[global] Instance value_JsValue : JsValue value :=
  {| undefined := VUndefined; toString := value_toString |}.

(** Chaining of builder calls that may throw. *)
Definition and_then {E A B : Type} (x : E + A) (f : A → E + B) : E + B :=
  match x with inl e => inl e | inr a => f a end.

(** A step implementation without side effect. *)
Definition pure_step {W : Type} (f : gmap string value → value)
  : @StepImplementation value W :=
  λ inputData w, (w, Return (Plain (f inputData))).

Definition pure_action {W : Type} (f : value → gmap string value → value)
  : @FlowAction value W :=
  λ container context w, (w, Return (Plain (f container context))).

(** [`${prefix}${input[dep]}`] *)
Definition template (prefix dep : string) (m : gmap string value) : value :=
  VStr (prefix +:+ toString (default undefined (m !! dep))).

(** Scenario 1 ([createBasicWorkflow]): a = "a-data", b = "b-" + a. *)
Definition basic_builder : @exn value + @WorkflowBuilder value unit :=
  and_then (addStepWithoutDependencies new_WorkflowBuilder "a") (λ b,
  let b := _registerImplementation b "a" (pure_step (λ _, VStr "a-data")) in
  and_then (addStep b "b" ["a"]) (λ b,
  inr (_registerImplementation b "b" (pure_step (template "b-" "a"))))).

(** Scenario 2 ([createDiamondWorkflow]). *)
Definition diamond_builder : @exn value + @WorkflowBuilder value unit :=
  and_then (addStepWithoutDependencies new_WorkflowBuilder "a") (λ b,
  let b := _registerImplementation b "a" (pure_step (λ _, VStr "a")) in
  and_then (addStep b "b" ["a"]) (λ b,
  let b := _registerImplementation b "b" (pure_step (template "b-" "a")) in
  and_then (addStep b "c" ["a"]) (λ b,
  let b := _registerImplementation b "c" (pure_step (template "c-" "a")) in
  and_then (addStep b "d" ["b"; "c"]) (λ b,
  inr (_registerImplementation b "d"
         (pure_step (λ m, VStr ("d-" +:+ toString (default undefined (m !! "b"))
                                +:+ "-" +:+ toString (default undefined (m !! "c")))))))))).

(** Scenario 3: a flow with one step whose action throws. *)
Definition flow_action_error : @exn value := JsError "Flow action error" None.

Definition error_flow_builder : @exn value + @WorkflowBuilder value unit :=
  and_then (addStepWithoutDependencies new_WorkflowBuilder "a") (λ b,
  let b := _registerImplementation b "a" (pure_step (λ _, VStr "a-data")) in
  and_then (defineFlow b "error-flow") (λ fb,
  and_then (addFlowStep fb "a" []) (λ fb,
  let fb := _registerFlowAction fb "a" (λ _ _ w, (w, Throw flow_action_error)) in
  inr (endFlow fb)))).

(** Scenario 4: a step that increments a captured counter and returns
    [{ counter }]. The world is the captured variable. *)
Definition refreshTest : @StepImplementation value Z :=
  λ _ counter, ((counter + 1)%Z, Return (Plain (VCounter (counter + 1)))).

Definition refresh_builder : @exn value + @WorkflowBuilder value Z :=
  and_then (addStepWithoutDependencies new_WorkflowBuilder "refreshTest") (λ b,
  inr (_registerImplementation b "refreshTest" refreshTest)).

(** A step whose implementation is an [async] function. *)
Definition async_builder : @exn value + @WorkflowBuilder value unit :=
  and_then (addStepWithoutDependencies new_WorkflowBuilder "asyncStep") (λ b,
  inr (_registerImplementation b "asyncStep"
         (λ _ w, (w, Return (Deferred (Fulfilled (VStr "async data"))))))).

(** Two independent steps with a flow that has an action for each. *)
Definition pair_builder : @exn value + @WorkflowBuilder value unit :=
  and_then (addStepWithoutDependencies new_WorkflowBuilder "a") (λ b,
  let b := _registerImplementation b "a" (pure_step (λ _, VStr "a-value")) in
  and_then (addStepWithoutDependencies b "b") (λ b,
  let b := _registerImplementation b "b" (pure_step (λ _, VStr "b-value")) in
  and_then (defineFlow b "test") (λ fb,
  and_then (addFlowStep fb "a" []) (λ fb,
  let fb := _registerFlowAction fb "a"
              (pure_action (λ c _, VStr ("modified-" +:+ toString c))) in
  and_then (addFlowStep fb "b" []) (λ fb,
  let fb := _registerFlowAction fb "b"
              (pure_action (λ c _, VStr ("modified-" +:+ toString c))) in
  inr (endFlow fb)))))).

(** A user flow declared under the name of the build flow. *)
Definition shadow_builder : @exn value + @WorkflowBuilder value unit :=
  and_then (addStepWithoutDependencies new_WorkflowBuilder "a") (λ b,
  let b := _registerImplementation b "a" (pure_step (λ _, VStr "a-data")) in
  and_then (defineFlow b "__build__") (λ fb,
  and_then (addFlowStep fb "a" []) (λ fb,
  let fb := _registerFlowAction fb "a" (pure_action (λ _ _, VStr "user")) in
  inr (endFlow fb)))).


(** The built instance of a scenario: the workflow and its state. *)
Definition built {W : Type} (b : @exn value + @WorkflowBuilder value W) (w : W)
  : option (@Workflow value W * @state value W) :=
  match b with
  | inr b' =>
      match build b' w with
      | (st, Returned wf) => Some (wf, st)
      | _ => None
      end
  | inl _ => None
  end.

(** [workflow.containers[name]] of a built scenario. *)
Definition built_container {W : Type}
    (r : option (@Workflow value W * @state value W)) (name : string)
  : option value :=
  r ≫= λ p, containers p.2 !! name.

(** The builder of a scenario (none of the scenario chains throws), the
    workflow that [build()] makes of it, and the state of the instance
    when [build()] returns. *)
Definition builder_of {W : Type} (b : @exn value + @WorkflowBuilder value W)
  : @WorkflowBuilder value W :=
  match b with inr b' => b' | inl _ => new_WorkflowBuilder end.

Definition workflow_of {W : Type} (b : @exn value + @WorkflowBuilder value W)
  : @Workflow value W :=
  instance_of (createBuildFlow (builder_of b)).

Definition built_state {W : Type} (b : @exn value + @WorkflowBuilder value W)
    (w : W) : @state value W :=
  (build (builder_of b) w).1.

Definition refresh_wf : @Workflow value Z := workflow_of refresh_builder.
Definition refresh_st : @state value Z := built_state refresh_builder 0%Z.

Definition error_wf : @Workflow value unit := workflow_of error_flow_builder.
Definition error_st : @state value unit := built_state error_flow_builder ().

Definition pair_wf : @Workflow value unit := workflow_of pair_builder.
Definition pair_st : @state value unit := built_state pair_builder ().

Definition async_wf : @Workflow value unit := workflow_of async_builder.

Definition shadow_wf : @Workflow value unit := workflow_of shadow_builder.
Definition shadow_st : @state value unit := built_state shadow_builder ().

(** [workflow.flows[name]] of a scenario. *)
Definition flow_of {W : Type} (wf : @Workflow value W) (name : string)
  : @FlowDefinition value W :=
  default {| fd_steps := []; fd_dependencies := [] |} (Rec.get (wf_flows wf) name).

(** The state of an instance that has just been created. *)
Definition fresh_unit : @state value unit := fresh ().

(** The state right after the call of the [async] step implementation. *)
Definition after_async_call : @state value unit :=
  (invoke async_wf "__build__" (build_flow (builder_of async_builder)) ∅
          "asyncStep" fresh_unit).1.

(** The state right after the call of the throwing flow action. *)
Definition after_error_call : @state value unit :=
  (invoke error_wf "error-flow" (flow_of error_wf "error-flow") ∅ "a" error_st).1.

(** The run of no step at all, as [execute] starts. *)
Definition empty_run : @FlowRun value := {| results := ∅; success := true |}.

(** ** The context claim as the specification words it *)

(** In every run of the flow, blocking or concurrent, every call of a
    flow action receives a context that holds the value produced by every
    step that completed earlier in the run. *)
Definition context_claim_as_stated {V W : Type} `{!JsValue V}
    (wf : @Workflow V W) (flowName : string) (flow : @FlowDefinition V W) : Prop :=
  (∀ st, context_sound flow (λ _ _, True)
           (new_events st (execute wf flowName st).1)) ∧
  (∀ schedule st, context_sound flow (λ _ _, True)
           (new_events st (executeAsync wf flowName schedule st).1)).

(** ** Definitions for the further properties *)

(** A cycle of the graph can be reached from [s] along dependency edges. *)
Definition cycle_from (g : graph) (s : string) : Prop :=
  ∃ n, rtc (edge g) s n ∧ depends_on g n n.

(** What [hasCycle] guarantees for its answer, whatever the fuel: [true]
    is only answered for a cycle that can be reached from the node, and
    [false] leaves the recursion stack as it was. *)
Definition cd_sound (g : graph) (node : string) (st : cd_state)
    (o : option (bool * cd_state)) : Prop :=
  match o with
  | Some (true, _) => cycle_from g node
  | Some (false, st') =>
      cd_recStack st' = cd_recStack st ∧ cd_recStack st' ⊆ cd_visited st'
  | None => True
  end.

(** What [visit] guarantees, whatever the fuel: it throws for a node on
    a cycle, with the message that names the node, or for a name whose
    lookup finds an inherited member, and a normal return leaves the stack
    [temp] as it was. *)
Definition ts_sound (g : graph) (st : ts_state) (o : outcome ts_state) : Prop :=
  match o with
  | Done st' => ts_temp st' = ts_temp st
  | Fail m =>
      (∃ n, m = circular_message n ∧ depends_on g n n) ∨
      (m = not_iterable ∧ ∃ n, finds_inherited g n)
  | OutOfFuel => True
  end.

(** ** Builders made through the public interface *)

Section BuilderInvariants.

Context {V W : Type}.

(** The builders that calls of the builder's methods can produce from
    [new WorkflowBuilder()]: [addStep], [addStepWithoutDependencies],
    [withImplementation] of the [StepImplementer] that one of the two
    returned for a name (the name has an entry, then), and [endFlow] of a
    [FlowBuilder] that [defineFlow] returned for a flow name (the name is
    not inherited, then), with any flow. *)
Inductive api_built : @WorkflowBuilder V W → Prop :=
| api_new : api_built new_WorkflowBuilder
| api_addStep b name dependencies b' :
    api_built b → addStep b name dependencies = inr b' → api_built b'
| api_addStepWithoutDependencies b name b' :
    api_built b → addStepWithoutDependencies b name = inr b' → api_built b'
| api_withImplementation b name execute :
    api_built b → name ∈ Rec.keys (b_dependencies b) →
    api_built (_registerImplementation b name execute)
| api_endFlow b flowName flowDef :
    api_built b → inherited flowName = false →
    api_built (_registerFlow b flowName flowDef).

(** Dependencies are names that [addStep] found in [this.steps], and a
    step found there was first found after each of its dependencies
    ([rank] is the time of the first implementation; an inherited name is
    found from the start). *)
Definition implemented_first (b : @WorkflowBuilder V W) (rank : string → nat)
  : Prop :=
  ∀ k d, d ∈ deps (b_dependencies b) k →
    has_step b d = true ∧ (has_step b k = true → rank d < rank k).


End BuilderInvariants.

(** ** What a run may write, and the promises of a level *)

Section RunFrames.

Context {V W : Type} `{!JsValue V}.

(** From [st] to [st'] no container was removed, and only containers of
    names in [P] were written. *)
Definition writes_within (P : string → Prop) (st st' : @state V W) : Prop :=
  ∀ x, (is_Some (containers st !! x) → is_Some (containers st' !! x)) ∧
       (¬ P x → containers st' !! x = containers st !! x).

(** The promise of the callback of step [s], and in the build flow the
    implementation that a callback past its call has found. *)
Definition task_of (wf : @Workflow V W) (flowName : string)
    (flow : @FlowDefinition V W) (s : string) (t : @task V W) : Prop :=
  task_for flow s t ∧
  match t with
  | TaskDone _ _ | TaskAwaiting _ _ =>
      is_build_flow wf flowName = true → is_Some (wf_steps wf !! s)
  | _ => True
  end.

(** The containers a run of the flow may write: those of the steps of
    [steps] that have an action, and only in the build flow. *)
Definition may_write (wf : @Workflow V W) (flowName : string)
    (flow : @FlowDefinition V W) (steps : list string) (x : string) : Prop :=
  is_build_flow wf flowName = true ∧ has_action flow x ∧ x ∈ steps.

End RunFrames.

(** A workflow whose second step throws: a, then b on a (its
    implementation throws), then c. *)
Definition step_error : @exn value := JsError "Step error" None.

Definition failing_builder : @exn value + @WorkflowBuilder value unit :=
  and_then (addStepWithoutDependencies new_WorkflowBuilder "a") (λ b,
  let b := _registerImplementation b "a" (pure_step (λ _, VStr "a-data")) in
  and_then (addStep b "b" ["a"]) (λ b,
  let b := _registerImplementation b "b" (λ _ w, (w, Throw step_error)) in
  and_then (addStepWithoutDependencies b "c") (λ b,
  inr (_registerImplementation b "c" (pure_step (λ _, VStr "c-data")))))).

Definition failing_wf : @Workflow value unit :=
  instance_of (createBuildFlow (builder_of failing_builder)).

Section Synchronous.

Context {V W : Type} `{!JsValue V}.

(** No callable of the flow returns a promise. *)
Definition synchronous (wf : @Workflow V W) (flowName : string)
    (flow : @FlowDefinition V W) : Prop :=
  ∀ ctx s st p, (invoke wf flowName flow ctx s st).2 ≠ Return (Deferred p).

Definition awaiting (t : @task V W) : Prop :=
  match t with TaskAwaiting _ _ => True | _ => False end.

End Synchronous.

(** The states of the failing build: after step a, and after the call of
    step b. *)
Definition failing_flow : @FlowDefinition value unit :=
  build_flow (builder_of failing_builder).

Definition run_a : @FlowRun value :=
  {| results := <["a" := VStr "a-data"]> ∅; success := true |}.

Definition after_a : @state value unit :=
  (execute_loop failing_wf "__build__" failing_flow ["a"] ∅ ∅ fresh_unit).1.

Definition after_b : @state value unit :=
  (try_step failing_wf "__build__" failing_flow (results run_a) "b" after_a).1.

(** A graph with a cycle and a step apart from it. *)
Definition cycle_and_leaf : graph := [("a", ["b"]); ("b", ["a"]); ("c", [])].

(** A step that names the dependency "toString". *)
Definition inherited_builder : @exn value + @WorkflowBuilder value unit :=
  addStep new_WorkflowBuilder "a" ["toString"].

Section TotalSteps.

Context {V W : Type}.

(** Every step that was added has an implementation, and every call of
    it returns a value that is not a promise. *)
Definition total_sync (b : @WorkflowBuilder V W) : Prop :=
  ∀ s, s ∈ Rec.keys (b_dependencies b) →
    ∃ implementation,
      b_steps b !! s = Some implementation ∧
      ∀ inputData w, ∃ w' v, implementation inputData w = (w', Return (Plain v)).

(** The promise of a callback that ran to its end without failing. *)
Definition resolved (t : @task V W) : Prop :=
  match t with TaskSkipped | TaskDone _ _ => True | _ => False end.

End TotalSteps.

(** Discharges [∀ n, n ∈ l → inherited n = false] for a list of
    literals. *)
Ltac names_not_inherited :=
  let n := fresh "n" in
  let Hn := fresh "Hn" in
  intros n Hn; vm_compute in Hn;
  repeat (apply elem_of_cons in Hn as [-> | Hn]; [vm_compute; reflexivity|]);
  by apply elem_of_nil in Hn.

(** ** Promises over the turns of the event loop *)

Section Promises.

Context {V W : Type} `{!JsValue V}.

(** One turn of the event loop given to a pending promise. *)
Definition promise_turn (p q : @promise V W) : Prop :=
  ∃ k w, p = Pending k ∧ (k w).2 = q.

(** [advances p q]: turns of the event loop bring the promise [p] to
    [q]. *)
Definition advances : relation (@promise V W) := rtc promise_turn.



(** What has become of the promise [t0] of a callback after some turns
    of the event loop. *)
Definition settled_from (t0 t : @task V W) : Prop :=
  match t0 with
  | TaskAwaiting s p =>
      (∃ q, t = TaskAwaiting s q ∧ advances p q) ∨
      (∃ v, t = TaskDone s v ∧ advances p (Fulfilled v)) ∨
      (∃ e, t = TaskFailed (step_failed s e) ∧ advances p (Rejected e))
  | _ => t = t0
  end.

(** The promise of the callback of a step whose callable completed with
    [c] ([levelSteps.map] has run the callback up to its [await]). *)
Definition task_after (s : string) (c : @completion V W) : @task V W :=
  match c with
  | Return (Plain v) => TaskDone s v
  | Return (Deferred p) => TaskAwaiting s p
  | Throw e => TaskFailed (step_failed s e)
  end.

(** What the [try] block of [execute] makes of the completion [c] of the
    callable: the value of the step, or what is thrown inside the block
    ([sync] is the error for a promise). *)
Definition value_or_thrown (sync : @exn V) (c : @completion V W) : V + @exn V :=
  match c with
  | Return (Plain v) => inl v
  | Return (Deferred _) => inr sync
  | Throw e => inr e
  end.



End Promises.


(** ** Scenarios with a context, a failing step and awaited promises *)

Definition async_error : @exn value := JsError "Async error" None.

(** A flow of the steps a, b and c, given the actions of a and b and the
    dependencies of b and c; the action of c reads [context.b]. *)
Definition three_step_flow {W : Type} (b : @WorkflowBuilder value W)
    (flowName : string) (action_a action_b : @FlowAction value W)
    (deps_b deps_c : list string) : @exn value + @WorkflowBuilder value W :=
  and_then (defineFlow b flowName) (λ fb,
  and_then (addFlowStep fb "a" []) (λ fb,
  let fb := _registerFlowAction fb "a" action_a in
  and_then (addFlowStep fb "b" deps_b) (λ fb,
  let fb := _registerFlowAction fb "b" action_b in
  and_then (addFlowStep fb "c" deps_c) (λ fb,
  let fb := _registerFlowAction fb "c"
              (pure_action (λ _ context, template "c-got-" "b" context)) in
  inr (endFlow fb))))).

(** The action that puts "A-" before the container value, the action
    that reads [context.a], the action that throws, and the actions that
    return a promise which is rejected, or fulfilled, one turn later. *)
Definition prefix_action {W : Type} : @FlowAction value W :=
  pure_action (λ container _, VStr ("A-" +:+ toString container)).

Definition reading_action {W : Type} : @FlowAction value W :=
  pure_action (λ _ context, template "b-got-" "a" context).

Definition throwing_action {W : Type} : @FlowAction value W :=
  λ _ _ w, (w, Throw flow_action_error).

Definition rejecting_action {W : Type} : @FlowAction value W :=
  λ _ _ w, (w, Return (Deferred (Pending (λ w', (w', Rejected async_error))))).

Definition deferred_action {W : Type} : @FlowAction value W :=
  λ container _ w,
    (w, Return (Deferred (Pending (λ w',
          (w', Fulfilled (VStr ("later-" +:+ toString container))))))).

(** Three independent steps and four flows over them. "chain": a, then
    b on a, then c on b. "throwing": the same with a throwing action for
    b. "rejecting": a and b in one level and c on both, the promise of b
    is rejected. "deferred": as "chain", the value of a comes from a
    promise. *)
Definition flows_builder : @exn value + @WorkflowBuilder value unit :=
  and_then (addStepWithoutDependencies new_WorkflowBuilder "a") (λ b,
  let b := _registerImplementation b "a" (pure_step (λ _, VStr "a-data")) in
  and_then (addStepWithoutDependencies b "b") (λ b,
  let b := _registerImplementation b "b" (pure_step (λ _, VStr "b-data")) in
  and_then (addStepWithoutDependencies b "c") (λ b,
  let b := _registerImplementation b "c" (pure_step (λ _, VStr "c-data")) in
  and_then (three_step_flow b "chain" prefix_action reading_action ["a"] ["b"]) (λ b,
  and_then (three_step_flow b "throwing" prefix_action throwing_action ["a"] ["b"]) (λ b,
  and_then (three_step_flow b "rejecting" prefix_action rejecting_action [] ["a"; "b"]) (λ b,
  three_step_flow b "deferred" deferred_action reading_action ["a"] ["b"])))))).

Definition flows_wf : @Workflow value unit := workflow_of flows_builder.
Definition flows_st : @state value unit := built_state flows_builder ().

(** The run of step a of the flows "chain" and "throwing". *)
Definition run_prefix_a : @FlowRun value :=
  {| results := <["a" := VStr "A-a-data"]> ∅; success := true |}.





(** * Properties *)

(** ** Small runs of the graph algorithms *)

Example topologicalSort_diamond :
  topologicalSort diamond = Done ["a"; "b"; "c"; "d"].
Proof. vm_compute. reflexivity. Qed.

Example topologicalSort_two_cycle :
  topologicalSort two_cycle = Fail "Circular dependency detected: a".
Proof. vm_compute. reflexivity. Qed.

Example hasCircularDependency_two_cycle :
  hasCircularDependency two_cycle None = Some true.
Proof. vm_compute. reflexivity. Qed.

Example hasCircularDependency_diamond :
  hasCircularDependency diamond None = Some false.
Proof. vm_compute. reflexivity. Qed.

Example groupStepsByLevel_diamond :
  groupStepsByLevel diamond ["a"; "b"; "c"; "d"] = Some [["a"]; ["b"; "c"]; ["d"]].
Proof. vm_compute. reflexivity. Qed.

(** ** Records and graphs *)


Lemma Rec_get_is_Some {A : Type} (r : list (string * A)) k :
  is_Some (Rec.get r k) ↔ k ∈ Rec.keys r.
Proof.
  unfold Rec.keys. induction r as [|[k' v'] r IH]; simpl.
  - split; [intros [? ?]; done | intros H; inversion H].
  - rewrite elem_of_cons. case_decide; subst.
    + split; [intros _; by left | eauto].
    + rewrite IH. simpl. naive_solver.
Qed.

Lemma Rec_has_true {A : Type} (r : list (string * A)) k :
  Rec.has r k = true ↔ k ∈ Rec.keys r.
Proof.
  rewrite <- Rec_get_is_Some. unfold Rec.has.
  destruct (Rec.get r k) as [v|].
  - split; eauto.
  - split; [done | by intros [? ?]].
Qed.

Lemma key_in_nodes (g : graph) n : n ∈ Rec.keys g → n ∈ nodes g.
Proof.
  intros Hn. apply list_elem_of_bind. exists n. split; [left | done].
Qed.

Lemma edge_in_nodes (g : graph) v u : edge g v u → v ∈ nodes g ∧ u ∈ nodes g.
Proof.
  unfold edge. intros Hu.
  assert (Hv : v ∈ Rec.keys g).
  { apply Rec_get_is_Some. unfold deps in Hu.
    destruct (Rec.get g v); [eauto | inversion Hu]. }
  split; apply list_elem_of_bind; exists v; (split; [|done]).
  - left.
  - by right.
Qed.

Lemma depends_on_in_nodes (g : graph) v u :
  depends_on g v u → v ∈ nodes g ∧ u ∈ nodes g.
Proof.
  induction 1 as [x y Hxy | x y z Hxy _ [_ IH]].
  - by apply edge_in_nodes.
  - split; [by apply edge_in_nodes in Hxy as [? _] | done].
Qed.

Lemma before_app_r l l' u v : before l u v → before (l ++ l') u v.
Proof.
  intros (l1 & l2 & l3 & ->). exists l1, l2, (l3 ++ l').
  by rewrite <- !app_assoc, <- !app_comm_cons, <- app_assoc.
Qed.

Lemma before_snoc l u v : u ∈ l → before (l ++ [v]) u v.
Proof.
  intros (l1 & l2 & ->)%list_elem_of_split. exists l1, l2, [].
  by rewrite <- app_assoc.
Qed.

Lemma before_elem_of l u v : before l u v → u ∈ l ∧ v ∈ l.
Proof. intros (l1 & l2 & l3 & ->). set_solver. Qed.

Lemma before_irrefl l u : NoDup l → ¬ before l u u.
Proof.
  intros Hnd (l1 & l2 & l3 & ->).
  apply NoDup_app in Hnd as (_ & _ & Hnd).
  apply NoDup_cons in Hnd as [Hnotin _]. set_solver.
Qed.

(** In a dependency-ordered list every transitive dependency of an entry
    stands to its left. *)
Lemma ordered_before (g : graph) l :
  ordered g l → ∀ v u, v ∈ l → depends_on g v u → before l u v.
Proof.
  induction 1 as [|l x Hord IH Hdeps]; intros v u Hv Hdep.
  - inversion Hv.
  - apply elem_of_app in Hv as [Hv | Hv].
    + apply before_app_r. by apply IH.
    + apply list_elem_of_singleton in Hv as ->.
      apply before_snoc.
      destruct Hdep as [x u Hxu | x d u Hxd Hdu].
      * by apply Hdeps.
      * apply Hdeps in Hxd. by apply (IH d u Hxd), before_elem_of in Hdu as [? _].
Qed.

Lemma ordered_acyclic (g : graph) l :
  ordered g l → NoDup l → (∀ n, n ∈ nodes g → n ∈ l) → acyclic g.
Proof.
  intros Hord Hnd Hall n Hcyc.
  assert (Hn : n ∈ l) by (apply Hall; by apply depends_on_in_nodes in Hcyc as [? _]).
  by apply (before_irrefl l n Hnd), (ordered_before g l Hord).
Qed.

Lemma size_list_to_set_le (l : list string) :
  size (list_to_set l : gset string) ≤ length l.
Proof.
  induction l as [|x l IH].
  - rewrite list_to_set_nil, size_empty. simpl. lia.
  - rewrite list_to_set_cons, size_union_alt, size_singleton. simpl.
    assert (size (list_to_set l ∖ {[x]} : gset string) ≤ size (list_to_set l : gset string))
      by (apply subseteq_size; set_solver).
    lia.
Qed.

(** ** [topologicalSort]: invariants of the traversal *)

Lemma lookup_deps_Some (g : graph) node ds :
  lookup_deps g node = Some ds → ds = deps g node.
Proof.
  unfold lookup_deps, deps. destruct (Rec.get g node); [naive_solver|].
  destruct (inherited node); naive_solver.
Qed.

Lemma lookup_deps_None (g : graph) node :
  lookup_deps g node = None ↔ Rec.get g node = None ∧ inherited node = true.
Proof.
  unfold lookup_deps. destruct (Rec.get g node); [naive_solver|].
  destruct (inherited node); naive_solver.
Qed.

Lemma visit_spec (g : graph) fuel : ∀ node st,
  ts_inv g st →
  ts_temp st ⊆ node_set g →
  node ∈ node_set g →
  size (node_set g) < fuel + size (ts_temp st) →
  (∀ t, t ∈ ts_temp st → depends_on g t node) →
  ts_post g st [node] (visit fuel g node st).
Proof.
  set (N := node_set g).
  induction fuel as [|fuel IH]; intros node st Hinv Hsub HnodeN Hfuel Hstack.
  { exfalso. apply subseteq_size in Hsub. lia. }
  simpl. case_decide as Htemp.
  { left. exists node. by apply Hstack. }
  case_decide as Hvis.
  { split_and!; [done | done | done | by exists []; rewrite app_nil_r | set_solver]. }
  destruct (lookup_deps g node) as [ds|] eqn:Hlook.
  2: { right. exists node. apply lookup_deps_None in Hlook as [? ?].
       split_and!; [by apply elem_of_list_to_set in HnodeN | done | done]. }
  apply lookup_deps_Some in Hlook as ->.
  set (st1 := TsState (ts_result st) (ts_visited st) ({[node]} ∪ ts_temp st)).
  assert (Hloop : ∀ ds st0,
    (∀ d, d ∈ ds → d ∈ deps g node) →
    ts_inv g st0 → ts_temp st0 = ts_temp st1 →
    ts_post g st0 ds (for_each (visit fuel g) ds st0)).
  { induction ds as [|d ds IHds]; intros st0 Hds Hinv0 Htemp0; simpl.
    - split_and!; [done | done | done | by exists []; rewrite app_nil_r | set_solver].
    - assert (Hd : edge g node d) by (apply Hds; left).
      assert (Hsize : size (ts_temp st1) = S (size (ts_temp st))).
      { subst st1; simpl. rewrite size_union by set_solver. by rewrite size_singleton. }
      assert (Hsub1 : ts_temp st1 ⊆ N) by (subst st1; simpl; set_solver).
      pose proof (subseteq_size _ _ Hsub1) as Hle.
      specialize (IH d st0 Hinv0).
      rewrite Htemp0 in IH. ospecialize* IH; [done | | lia | |].
      { apply edge_in_nodes in Hd as [_ Hd]. by apply elem_of_list_to_set. }
      { intros t Ht. subst st1; simpl in Ht.
        apply elem_of_union in Ht as [->%elem_of_singleton | Ht].
        - by apply tc_once.
        - eapply tc_r; [by apply Hstack | done]. }
      destruct (visit fuel g d st0) as [st0'| |]; simpl in *; [|done..].
      destruct IH as (Hinv' & Htemp' & Hmono & [l Hl] & Hd').
      specialize (IHds st0'). ospecialize* IHds; [set_solver | done | congruence |].
      destruct (for_each (visit fuel g) ds st0') as [st0''| |]; simpl in *; [|done..].
      destruct IHds as (Hinv'' & Htemp'' & Hmono' & [l' Hl'] & Hds').
      split_and!; [done | congruence | set_solver | |].
      + exists (l ++ l'). by rewrite Hl', Hl, app_assoc.
      + intros x [-> | Hx]%elem_of_cons; [set_solver | by apply Hds']. }
  specialize (Hloop (deps g node) st1). ospecialize* Hloop; [done | | done |].
  { destruct Hinv as (? & ? & ? & ? & ?). unfold ts_inv. subst st1; simpl.
    split_and!; [done | done | done | set_solver | done]. }
  destruct (for_each (visit fuel g) (deps g node) st1) as [st2| |]; simpl in *; [|done..].
  destruct Hloop as ((Hnd & Hvr & Hord & Hdisj & HvN) & Htemp2 & Hmono & [l Hl] & Hdeps).
  assert (Hnode2 : node ∉ ts_visited st2).
  { rewrite Htemp2 in Hdisj. set_solver. }
  unfold ts_inv; simpl. split_and!.
  - apply NoDup_app. split_and!; [done | | apply NoDup_singleton].
    intros x Hx ->%list_elem_of_singleton. by apply Hnode2, Hvr.
  - intros x. rewrite elem_of_app, list_elem_of_singleton, <- Hvr. set_solver.
  - constructor; [done|]. intros d Hd. by apply Hvr, Hdeps.
  - rewrite Htemp2. subst st1; simpl. set_solver.
  - set_solver.
  - rewrite Htemp2. subst st1; simpl. set_solver.
  - subst st1; simpl in *. set_solver.
  - exists (l ++ [node]). by rewrite Hl, app_assoc.
  - set_solver.
Qed.




(** The outcome of [topologicalSort]: a duplicate-free, dependency-ordered
    list of all names of the graph; or an error, and then the graph has a
    cycle or a name whose lookup finds an inherited member. The fuel of
    the model never runs out. *)
Lemma topologicalSort_spec (g : graph) :
  match topologicalSort g with
  | Done order =>
      NoDup order ∧ ordered g order ∧ (∀ n, n ∈ order ↔ n ∈ nodes g)
  | Fail _ => ¬ acyclic g ∨ ∃ n, finds_inherited g n
  | OutOfFuel => False
  end.
Proof.
  unfold topologicalSort, topologicalSort_fuel.
  set (N := node_set g).
  assert (Hloop : ∀ roots st,
    (∀ r, r ∈ roots → r ∈ N) → ts_inv g st → ts_temp st = ∅ →
    ts_post g st roots (for_each (ts_root (ts_fuel g) g) roots st)).
  { induction roots as [|r roots IH]; intros st Hroots Hinv Htemp; simpl.
    - split_and!; [done | done | done | by exists []; rewrite app_nil_r | set_solver].
    - assert (Hr : ts_post g st [r] (ts_root (ts_fuel g) g r st)).
      { unfold ts_root. case_decide as Hvis.
        - split_and!; [done | done | done | by exists []; rewrite app_nil_r | set_solver].
        - apply visit_spec; [done | set_solver | apply Hroots; left | | set_solver].
          rewrite Htemp, size_empty. unfold ts_fuel.
          pose proof (size_list_to_set_le (nodes g)) as Hsz. unfold N, node_set. lia. }
      destruct (ts_root (ts_fuel g) g r st) as [st'| |]; simpl in *; [|done..].
      destruct Hr as (Hinv' & Htemp' & Hmono & [l Hl] & Hr).
      specialize (IH st'). ospecialize* IH; [set_solver | done | congruence |].
      destruct (for_each (ts_root (ts_fuel g) g) roots st') as [st''| |]; simpl in *; [|done..].
      destruct IH as (Hinv'' & Htemp'' & Hmono' & [l' Hl'] & Hroots').
      split_and!; [done | congruence | set_solver | |].
      + exists (l ++ l'). by rewrite Hl', Hl, app_assoc.
      + intros x [-> | Hx]%elem_of_cons; [set_solver | by apply Hroots']. }
  specialize (Hloop (Rec.keys g) ts_init). ospecialize* Hloop.
  { intros r Hr%key_in_nodes. by apply elem_of_list_to_set. }
  { unfold ts_inv, ts_init; simpl.
    split_and!; [constructor | set_solver | constructor | set_solver | set_solver]. }
  { done. }
  destruct (for_each (ts_root (ts_fuel g) g) (Rec.keys g) ts_init) as [st| |]; simpl in *.
  - destruct Hloop as ((Hnd & Hvr & Hord & _ & HvN) & _ & _ & _ & Hkeys).
    split_and!; [done | done |].
    intros n. split.
    { intros Hn%Hvr%HvN. by apply elem_of_list_to_set in Hn. }
    intros Hn. unfold nodes in Hn.
    apply list_elem_of_bind in Hn as (k & Hn & Hk).
    assert (Hk' : k ∈ ts_result st) by by apply Hvr, Hkeys.
    apply elem_of_cons in Hn as [-> | Hn]; [done|].
    assert (Hb : before (ts_result st) n k).
    { apply (ordered_before g); [done | done | by apply tc_once]. }
    by apply before_elem_of in Hb as [? _].
  - destruct Hloop as [[n Hn] | Hinh]; [left | by right].
    intros Hac. by apply (Hac n).
  - done.
Qed.

Lemma topologicalSort_Done_acyclic (g : graph) order :
  topologicalSort g = Done order → acyclic g.
Proof.
  intros Hrun. pose proof (topologicalSort_spec g) as Hspec.
  rewrite Hrun in Hspec. destruct Hspec as (Hnd & Hord & Hall).
  apply (ordered_acyclic g order); [done | done |]. intros n. apply Hall.
Qed.

(** ** [hasCircularDependency]: a [false] verdict is sound *)

Lemma hasCycle_spec (g : graph) fuel : ∀ node st,
  cd_inv g st →
  node ∈ node_set g →
  node ∉ cd_recStack st →
  size (node_set g) < fuel + size (cd_visited st) →
  cd_post g st [node] (hasCycle fuel g node st).
Proof.
  induction fuel as [|fuel IH]; intros node st Hinv HnodeN Hrec Hfuel.
  { exfalso. destruct Hinv as (Hsub%subseteq_size & _). lia. }
  simpl. case_decide as Hvis.
  { simpl. assert (Heq : cd_recStack st ∖ {[node]} = cd_recStack st) by set_solver.
    rewrite Heq. destruct st as [vis rs]; simpl in *.
    split_and!; [done | done | done |]. set_solver. }
  set (st1 := CdState ({[node]} ∪ cd_visited st) ({[node]} ∪ cd_recStack st)).
  assert (Hloop : ∀ ds st0,
    (∀ d, d ∈ ds → d ∈ deps g node) →
    cd_inv g st0 → cd_visited st1 ⊆ cd_visited st0 →
    cd_post g st0 ds (hasCycle_deps (hasCycle fuel g) ds st0)).
  { induction ds as [|d ds IHds]; intros st0 Hds Hinv0 Hvis0; simpl.
    - split_and!; [done | done | done | set_solver].
    - assert (Hd : edge g node d) by (apply Hds; left).
      case_decide as Hdv.
      + case_decide as Hdr; [done|].
        specialize (IHds st0). ospecialize* IHds; [set_solver | done | done |].
        destruct (hasCycle_deps (hasCycle fuel g) ds st0) as [[[] st0']|]; simpl in *; [done | | done].
        destruct IHds as (Hinv' & Hmono & Hrs & Hds').
        split_and!; [done | done | done |].
        intros x [-> | Hx]%elem_of_cons; [|by apply Hds'].
        rewrite Hrs. set_solver.
      + specialize (IH d st0 Hinv0). ospecialize* IH.
        { apply edge_in_nodes in Hd as [_ Hd]. by apply elem_of_list_to_set. }
        { destruct Hinv0 as (_ & Hrv & _). set_solver. }
        { destruct Hinv0 as (Hsub0%subseteq_size & _).
          apply subseteq_size in Hvis0. subst st1; simpl in Hvis0.
          rewrite size_union, size_singleton in Hvis0 by set_solver. lia. }
        destruct (hasCycle fuel g d st0) as [[[] st0']|]; simpl in *; [done | | done].
        destruct IH as (Hinv' & Hmono & Hrs & Hd').
        case_decide as Hdr; [done|].
        specialize (IHds st0'). ospecialize* IHds; [set_solver | done | set_solver |].
        destruct (hasCycle_deps (hasCycle fuel g) ds st0') as [[[] st0'']|]; simpl in *; [done | | done].
        destruct IHds as (Hinv'' & Hmono' & Hrs' & Hds').
        split_and!; [done | set_solver | congruence |].
        intros x [-> | Hx]%elem_of_cons; [|by apply Hds'].
        rewrite Hrs'. set_solver. }
  specialize (Hloop (deps g node) st1). ospecialize* Hloop; [done | | done |].
  { destruct Hinv as (Hsub & Hrv & fin & Hnd & Hord & Hfin).
    subst st1; unfold cd_inv; simpl. split_and!; [set_solver | set_solver |].
    exists fin. split_and!; [done | done |]. intros x. rewrite Hfin. set_solver. }
  destruct (hasCycle_deps (hasCycle fuel g) (deps g node) st1) as [[[] st2]|];
    simpl in *; [done | | done].
  destruct Hloop as ((Hsub & Hrv & fin & Hnd & Hord & Hfin) & Hmono & Hrs & Hdeps).
  rewrite Hrs.
  assert (Heq : ({[node]} ∪ cd_recStack st) ∖ {[node]} = cd_recStack st) by set_solver.
  rewrite Heq. unfold cd_inv; simpl. split_and!.
  - done.
  - rewrite Hrs in Hrv. set_solver.
  - exists (fin ++ [node]). split_and!.
    + apply NoDup_app. split_and!; [done | | apply NoDup_singleton].
      intros x Hx ->%list_elem_of_singleton. apply Hfin in Hx as [_ Hx].
      rewrite Hrs in Hx. set_solver.
    + constructor; [done|]. intros d Hd. apply Hfin. by apply Hdeps.
    + intros x. rewrite elem_of_app, list_elem_of_singleton, Hfin, Hrs.
      destruct (decide (x = node)) as [->|]; set_solver.
  - set_solver.
  - done.
  - set_solver.
Qed.

(** [hasCircularDependency] without a start node always answers, and it
    answers [false] only on acyclic graphs. *)
Lemma hasCircularDependency_spec (g : graph) :
  match hasCircularDependency g None with
  | Some false => acyclic g
  | Some true => True
  | None => False
  end.
Proof.
  unfold hasCircularDependency, hasCircularDependency_fuel.
  set (N := node_set g).
  assert (Hloop : ∀ roots st,
    (∀ r, r ∈ roots → r ∈ N) → cd_inv g st → cd_recStack st = ∅ →
    match hasCycle_roots (cd_fuel g) g roots st with
    | Some false =>
        ∃ st', cd_inv g st' ∧ cd_recStack st' = ∅ ∧
               cd_visited st ⊆ cd_visited st' ∧
               ∀ r, r ∈ roots → r ∈ cd_visited st'
    | Some true => True
    | None => False
    end).
  { induction roots as [|r roots IH]; intros st Hroots Hinv Hrs; cbn [hasCycle_roots].
    - exists st. split_and!; [done | done | done | set_solver].
    - pose proof (hasCycle_spec g (cd_fuel g) r st Hinv) as Hr.
      ospecialize* Hr; [apply Hroots; left | set_solver | |].
      { unfold cd_fuel. pose proof (size_list_to_set_le (nodes g)) as Hsz.
        unfold node_set. lia. }
      destruct (hasCycle (cd_fuel g) g r st) as [[[] st1]|]; cbn [cd_post] in Hr; [done | | done].
      destruct Hr as (Hinv1 & Hmono1 & Hrs1 & Hr1).
      specialize (IH st1). ospecialize* IH; [set_solver | done | congruence |].
      destruct (hasCycle_roots (cd_fuel g) g roots st1) as [[]|]; [done | | done].
      destruct IH as (st' & Hinv' & Hrs' & Hmono' & Hroots').
      exists st'. split_and!; [done | done | set_solver |].
      intros x [-> | Hx]%elem_of_cons; [|by apply Hroots'].
      apply Hmono'. apply Hr1. left. }
  specialize (Hloop (Rec.keys g) cd_init). ospecialize* Hloop.
  { intros r Hr%key_in_nodes. by apply elem_of_list_to_set. }
  { unfold cd_inv, cd_init; simpl. split_and!; [set_solver | set_solver |].
    exists []. split_and!; [constructor | constructor | set_solver]. }
  { done. }
  destruct (hasCycle_roots (cd_fuel g) g (Rec.keys g) cd_init) as [[]|]; [done | | done].
  destruct Hloop as (st' & (_ & _ & fin & Hnd & Hord & Hfin) & Hrs & _ & Hkeys).
  apply (ordered_acyclic g fin Hord Hnd).
  intros n Hn. unfold nodes in Hn.
  apply list_elem_of_bind in Hn as (k & Hn & Hk).
  assert (Hk' : k ∈ fin).
  { apply Hfin. rewrite Hrs. split; [by apply Hkeys | set_solver]. }
  apply elem_of_cons in Hn as [-> | Hn]; [done|].
  assert (Hb : before fin n k).
  { apply (ordered_before g); [done | done | by apply tc_once]. }
  by apply before_elem_of in Hb as [? _].
Qed.

Lemma hasCircularDependency_cyclic (g : graph) :
  ¬ acyclic g → hasCircularDependency g None = Some true.
Proof.
  intros Hcyc. pose proof (hasCircularDependency_spec g) as Hspec.
  by destruct (hasCircularDependency g None) as [[]|].
Qed.

(** ** Level grouping *)

Lemma foldl_max_spec (zs : list Z) : ∀ acc : Z,
  (acc ≤ foldl Z.max acc zs)%Z ∧
  (∀ z, z ∈ zs → (z ≤ foldl Z.max acc zs)%Z) ∧
  (foldl Z.max acc zs = acc ∨ foldl Z.max acc zs ∈ zs).
Proof.
  induction zs as [|z zs IH]; intros acc; simpl.
  - split_and!; [lia | by intros ? ?%elem_of_nil | by left].
  - destruct (IH (Z.max acc z)) as (Hacc & Hall & Hin). split_and!.
    + lia.
    + intros z' [-> | Hz']%elem_of_cons; [lia | by apply Hall].
    + destruct Hin as [Heq | Hin]; [|right; by right].
      rewrite Heq. destruct (Z.max_spec acc z) as [[_ ->] | [_ ->]]; [right; left | by left].
Qed.

Lemma level_formula_nonneg (g : graph) L s : (0 ≤ level_formula g L s)%Z.
Proof.
  unfold level_formula.
  pose proof (foldl_max_spec (dep_level L <$> deps g s) (-1)%Z) as [? _]. lia.
Qed.

Lemma level_formula_ext (g : graph) L L' s :
  (∀ d, d ∈ deps g s → L !! d = L' !! d) →
  level_formula g L s = level_formula g L' s.
Proof.
  intros Hext. unfold level_formula. f_equal. f_equal.
  apply list_fmap_ext. intros i d Hd%list_elem_of_lookup_2.
  unfold dep_level. by rewrite Hext.
Qed.

Lemma ref_levels_snoc (g : graph) l x :
  ref_levels g (l ++ [x])
  = <[x := level_formula g (ref_levels g l) x]> (ref_levels g l).
Proof. unfold ref_levels. by rewrite foldl_app. Qed.

(** Along a dependency-ordered list without repetition the table holds,
    for each entry, the level formula applied to the table itself. *)
Lemma ref_levels_rec (g : graph) l :
  ordered g l → NoDup l →
  (∀ x, is_Some (ref_levels g l !! x) → x ∈ l) ∧
  (∀ x, x ∈ l → ref_levels g l !! x = Some (level_formula g (ref_levels g l) x)).
Proof.
  induction 1 as [|l x Hord IH Hdeps]; intros Hnd.
  - split; [intros x [? Hx]; by cbn in Hx | by intros ? ?%elem_of_nil].
  - apply NoDup_app in Hnd as (Hnd & Hx & _).
    destruct (IH Hnd) as [Hdom Hrec]. rewrite ref_levels_snoc.
    assert (Hxl : x ∉ l) by (intros Hin; apply (Hx x Hin); left).
    split.
    + intros y. rewrite lookup_insert. case_decide; [subst; set_solver|].
      intros Hy%Hdom. set_solver.
    + intros y Hy. rewrite lookup_insert. case_decide as Hxy.
      * subst y. f_equal. apply level_formula_ext. intros d Hd%Hdeps.
        rewrite lookup_insert_ne; [done | set_solver].
      * assert (Hyl : y ∈ l) by set_solver.
        rewrite (Hrec y Hyl). f_equal. apply level_formula_ext. intros d Hd.
        rewrite lookup_insert_ne; [done|]. intros <-.
        apply Hxl.
        assert (Hb : before l x y) by (apply (ordered_before g l Hord y x Hyl); by apply tc_once).
        by apply before_elem_of in Hb as [? _].
Qed.

(** With the memo table inside the reference table, [getStepLevel] finds
    the reference level of every entry of a dependency-ordered list, and
    fuel equal to the length of the list is enough. *)
Lemma getStepLevel_ordered (g : graph) (L : gmap string Z) l :
  ordered g l →
  (∀ x, x ∈ l → L !! x = Some (level_formula g L x)) →
  ∀ s fuel (sl : gmap string Z),
    s ∈ l → length l ≤ fuel → sl ⊆ L →
    ∃ sl', getStepLevel fuel g s sl = Some (dep_level L s, sl')
           ∧ sl ⊆ sl' ∧ sl' ⊆ L.
Proof.
  induction 1 as [|l x Hord IH Hdeps]; intros Hrec s fuel sl Hs Hfuel Hsl.
  { by apply elem_of_nil in Hs. }
  assert (Hrec' : ∀ y, y ∈ l → L !! y = Some (level_formula g L y))
    by (intros y Hy; apply Hrec; set_solver).
  specialize (IH Hrec').
  rewrite length_app in Hfuel; simpl in Hfuel.
  destruct (decide (s ∈ l)) as [Hsl'|Hnotin].
  { apply IH; [done | lia | done]. }
  assert (s = x) as -> by set_solver.
  destruct fuel as [|fuel]; [lia|]. simpl.
  assert (HLx : L !! x = Some (level_formula g L x)) by (apply Hrec; set_solver).
  destruct (sl !! x) as [level|] eqn:Hmemo.
  { exists sl. split_and!; [|done..]. unfold dep_level.
    by rewrite (lookup_weaken _ _ _ _ Hmemo Hsl). }
  assert (Hloop : ∀ ds acc (sl0 : gmap string Z),
    (∀ d, d ∈ ds → d ∈ l) → sl0 ⊆ L →
    ∃ sl', max_dep_level (getStepLevel fuel g) ds acc sl0
           = Some (foldl Z.max acc (dep_level L <$> ds), sl')
           ∧ sl0 ⊆ sl' ∧ sl' ⊆ L).
  { induction ds as [|d ds IHds]; intros acc sl0 Hds Hsl0; simpl.
    - by exists sl0.
    - destruct (IH d fuel sl0) as (sl1 & -> & Hsub1 & HsubL1); [set_solver | lia | done |].
      destruct (IHds (Z.max acc (dep_level L d)) sl1) as (sl2 & -> & Hsub2 & HsubL2);
        [set_solver | done |].
      exists sl2. split_and!; [done | by etrans | done]. }
  unfold dep_level at 1. rewrite HLx. simpl. unfold level_formula.
  destruct (deps g x) as [|d ds] eqn:Hds.
  { eexists. split_and!; [done | by apply insert_subseteq |].
    apply insert_subseteq_l; [|done]. rewrite HLx. unfold level_formula. by rewrite Hds. }
  destruct (Hloop (d :: ds) (-1)%Z sl) as (sl' & Hrun & Hsub & HsubL); [done | done |].
  simpl in Hrun |- *. rewrite Hrun.
  eexists. split_and!; [done | |].
  - apply map_subseteq_spec. intros k v Hk.
    rewrite lookup_insert_ne by congruence.
    by apply (lookup_weaken _ _ _ _ Hk Hsub).
  - apply insert_subseteq_l; [|done]. rewrite HLx. unfold level_formula. by rewrite Hds.
Qed.

Lemma level_at_app_replicate (levels : list (list string)) m k :
  level_at (levels ++ replicate m []) k = level_at levels k.
Proof.
  unfold level_at. destruct (decide (k < length levels)) as [Hlt|Hge].
  - by rewrite lookup_app_l.
  - rewrite lookup_app_r by lia. rewrite (lookup_ge_None_2 levels) by lia. simpl.
    destruct (replicate m [] !! (k - length levels)) as [l|] eqn:Hl; [|done].
    by apply lookup_replicate in Hl as [-> _].
Qed.

Lemma level_at_push (levels : list (list string)) n x k :
  level_at (push_at_level levels n x) k
  = level_at levels k ++ (if decide (n = k) then [x] else []).
Proof.
  unfold push_at_level.
  set (levels' := levels ++ replicate (S n - length levels) []).
  assert (Hlen : n < length levels').
  { subst levels'. rewrite length_app, length_replicate. lia. }
  rewrite <- (level_at_app_replicate levels (S n - length levels) k). fold levels'.
  unfold level_at. case_decide as Hnk.
  - subst k. rewrite list_lookup_alter, decide_True by done.
    destruct (lookup_lt_is_Some_2 levels' n Hlen) as [l ->]. done.
  - rewrite list_lookup_alter_ne by done. by rewrite app_nil_r.
Qed.

Lemma length_push (levels : list (list string)) n x :
  length (push_at_level levels n x) = length levels `max` S n.
Proof.
  unfold push_at_level. rewrite length_alter, length_app, length_replicate. lia.
Qed.

Lemma foldl_push_spec (f : string → nat) xs : ∀ levels,
  let levels' := foldl (λ lv x, push_at_level lv (f x) x) levels xs in
  (∀ k, level_at levels' k = level_at levels k ++ filter (λ s, f s = k) xs) ∧
  length levels ≤ length levels' ∧
  (∀ x, x ∈ xs → f x < length levels').
Proof.
  induction xs as [|x xs IH]; intros levels; simpl.
  - split_and!; [intros k; by rewrite app_nil_r | done | by intros ? ?%elem_of_nil].
  - destruct (IH (push_at_level levels (f x) x)) as (Hat & Hlen & Hidx).
    rewrite length_push in Hlen. split_and!.
    + intros k. rewrite Hat, level_at_push, filter_cons.
      case_decide; by rewrite <- app_assoc.
    + lia.
    + intros y [-> | Hy]%elem_of_cons; [lia | by apply Hidx].
Qed.

Lemma group_loop_ordered (g : graph) (L : gmap string Z) l fuel :
  ordered g l →
  (∀ x, x ∈ l → L !! x = Some (level_formula g L x)) →
  length l ≤ fuel →
  ∀ xs (sl : gmap string Z) levels,
    (∀ x, x ∈ xs → x ∈ l) → sl ⊆ L →
    group_loop fuel g xs sl levels
    = Some (foldl (λ lv x, push_at_level lv (Z.to_nat (dep_level L x)) x) levels xs).
Proof.
  intros Hord Hrec Hfuel.
  induction xs as [|x xs IH]; intros sl levels Hxs Hsl; simpl; [done|].
  destruct (getStepLevel_ordered g L l Hord Hrec x fuel sl) as (sl' & -> & _ & HsubL);
    [set_solver | done | done |].
  apply IH; [set_solver | done].
Qed.

Lemma length_le_nodes (g : graph) l :
  NoDup l → (∀ n, n ∈ l → n ∈ nodes g) → length l ≤ length (nodes g).
Proof.
  intros Hnd Hsub.
  rewrite <- (size_list_to_set (C := gset string) l Hnd).
  etrans; [|apply (size_list_to_set_le (nodes g))].
  apply subseteq_size. set_solver.
Qed.

Lemma Rec_get_app {A : Type} (r1 r2 : list (string * A)) k :
  Rec.get (r1 ++ r2) k
  = match Rec.get r1 k with Some v => Some v | None => Rec.get r2 k end.
Proof.
  induction r1 as [|[k' v'] r1 IH]; simpl; [done|]. by case_decide.
Qed.

Lemma deps_with_entries (g : graph) n : deps (with_entries g) n = deps g n.
Proof.
  unfold deps, with_entries. rewrite Rec_get_app.
  destruct (Rec.get g n); [done|]. simpl.
  induction (filter _ (nodes g)) as [|x l IH]; simpl; [done|]. by case_decide.
Qed.

Lemma nodes_with_entries (g : graph) n :
  n ∈ nodes (with_entries g) ↔ n ∈ nodes g.
Proof.
  unfold nodes at 1. rewrite list_elem_of_bind. setoid_rewrite deps_with_entries.
  unfold with_entries, Rec.keys. rewrite fmap_app, <- list_fmap_compose.
  split.
  - intros (k & Hn & [Hk | Hk]%elem_of_app).
    + apply list_elem_of_bind. by exists k.
    + apply list_elem_of_fmap in Hk as (x & -> & [Hx Hin]%list_elem_of_filter).
      simpl in Hn. unfold deps in Hn.
      destruct (Rec.get g x) as [ds|] eqn:Hget.
      { destruct Hx. apply Rec_get_is_Some. eauto. }
      by apply list_elem_of_singleton in Hn as ->.
  - intros (k & Hn & Hk)%list_elem_of_bind. exists k. split; [done|].
    apply elem_of_app. by left.
Qed.

Lemma with_entries_finds (g : graph) n : ¬ finds_inherited (with_entries g) n.
Proof.
  intros (Hn & Hget & _). apply (proj1 (nodes_with_entries g n)) in Hn.
  assert (Hkey : n ∈ Rec.keys (with_entries g)); [|by apply Rec_get_is_Some in Hkey as [? ?]; congruence].
  unfold with_entries, Rec.keys. rewrite fmap_app, <- list_fmap_compose.
  destruct (decide (n ∈ g.*1)) as [Hk|Hk]; apply elem_of_app; [by left | right].
  apply list_elem_of_fmap. exists n. split; [done|].
  apply list_elem_of_filter. split; [exact Hk | exact Hn].
Qed.

Lemma depends_on_with_entries (g : graph) v u :
  depends_on (with_entries g) v u ↔ depends_on g v u.
Proof.
  unfold depends_on. split; apply tc_congruence with (f := id);
    intros x y; unfold edge; by rewrite deps_with_entries.
Qed.

Lemma ordered_with_entries (g : graph) l :
  ordered (with_entries g) l → ordered g l.
Proof.
  induction 1 as [|l x _ IH Hdeps]; constructor; [done|].
  intros d Hd. apply Hdeps. by rewrite deps_with_entries.
Qed.

(** The names of an acyclic graph can be listed in dependency order. *)
Lemma acyclic_ordered (g : graph) :
  acyclic g →
  ∃ order, NoDup order ∧ ordered g order ∧ (∀ n, n ∈ order ↔ n ∈ nodes g).
Proof.
  intros Hac. pose proof (topologicalSort_spec (with_entries g)) as Hspec.
  destruct (topologicalSort (with_entries g)) as [order| |]; [| |done].
  - destruct Hspec as (Hnd & Hord & Hall). exists order.
    split_and!; [done | by apply ordered_with_entries |].
    intros n. by rewrite Hall, nodes_with_entries.
  - destruct Hspec as [Hcyc | [n Hn]].
    + destruct Hcyc. intros n Hn. apply (proj1 (depends_on_with_entries g n n)) in Hn.
      by apply (Hac n).
    + by apply with_entries_finds in Hn.
Qed.

(** On an acyclic graph there is a reference table for all names. *)
Lemma acyclic_levels (g : graph) :
  acyclic g →
  ∃ l, ordered g l ∧ length l ≤ length (nodes g) ∧
       (∀ n, n ∈ l ↔ n ∈ nodes g) ∧
       (∀ x, x ∈ l → ref_levels g l !! x
                     = Some (level_formula g (ref_levels g l) x)).
Proof.
  intros Hac. destruct (acyclic_ordered g Hac) as (order & Hnd & Hord & Hall).
  exists order. split_and!; [done | | done |].
  - apply length_le_nodes; [done|]. intros n. apply Hall.
  - by apply ref_levels_rec.
Qed.

Lemma deps_nil_outside (g : graph) s : s ∉ nodes g → deps g s = [].
Proof.
  intros Hs. destruct (deps g s) as [|d ds] eqn:Hds; [done|].
  exfalso. apply Hs. apply (edge_in_nodes g s d). unfold edge. rewrite Hds. left.
Qed.

(** The level the code computes is the reference level. *)
Lemma step_level_ref (g : graph) l s :
  ordered g l → length l ≤ length (nodes g) →
  (∀ x, x ∈ l → ref_levels g l !! x = Some (level_formula g (ref_levels g l) x)) →
  s ∈ l →
  step_level g s = Z.to_nat (level_formula g (ref_levels g l) s).
Proof.
  intros Hord Hlen Hrec Hs. unfold step_level.
  destruct (getStepLevel_ordered g (ref_levels g l) l Hord Hrec s (level_fuel g) ∅)
    as (sl' & -> & _); [done | unfold level_fuel; lia | apply map_empty_subseteq |].
  unfold dep_level. by rewrite (Hrec s Hs).
Qed.

Lemma step_level_outside (g : graph) s : s ∉ nodes g → step_level g s = 0.
Proof.
  intros Hs. unfold step_level, level_fuel. simpl.
  rewrite lookup_empty. by rewrite (deps_nil_outside g s Hs).
Qed.

(** The recurrence of the computed level on an acyclic graph. *)
Lemma step_level_formula (g : graph) s :
  acyclic g →
  Z.of_nat (step_level g s)
  = (foldl Z.max (-1) ((λ d, Z.of_nat (step_level g d)) <$> deps g s) + 1)%Z.
Proof.
  intros Hac. destruct (acyclic_levels g Hac) as (l & Hord & Hlen & Hall & Hrec).
  destruct (decide (s ∈ nodes g)) as [Hs|Hs].
  - apply Hall in Hs.
    rewrite (step_level_ref g l s Hord Hlen Hrec Hs).
    rewrite Z2Nat.id by apply level_formula_nonneg.
    unfold level_formula. f_equal. f_equal.
    apply list_fmap_ext. intros i d Hd%list_elem_of_lookup_2.
    assert (Hdl : d ∈ l).
    { apply Hall. by apply (edge_in_nodes g s d). }
    rewrite (step_level_ref g l d Hord Hlen Hrec Hdl).
    rewrite Z2Nat.id by apply level_formula_nonneg.
    unfold dep_level. by rewrite (Hrec d Hdl).
  - rewrite (step_level_outside g s Hs), (deps_nil_outside g s Hs). done.
Qed.

Lemma step_level_spec (g : graph) : acyclic g → level_spec g (step_level g).
Proof.
  intros Hac s. pose proof (step_level_formula g s Hac) as Hs.
  set (zs := (λ d, Z.of_nat (step_level g d)) <$> deps g s) in Hs.
  destruct (foldl_max_spec zs (-1)%Z) as (Hlow & Hall & Hin).
  assert (Hnn : ∀ z, z ∈ zs → (0 ≤ z)%Z).
  { intros z (d & -> & _)%list_elem_of_fmap. lia. }
  destruct (deps g s) as [|d0 ds] eqn:Hds.
  { subst zs; simpl in *. split; [split; [done | lia]|].
    intros k. split; [lia|]. intros [(d & Hd & _) _]. by apply elem_of_nil in Hd. }
  assert (Hne : foldl Z.max (-1)%Z zs ∈ zs).
  { destruct Hin as [Heq | Hin]; [|done].
    assert (Hd0 : Z.of_nat (step_level g d0) ∈ zs) by (subst zs; left).
    pose proof (Hall _ Hd0). lia. }
  split; [split; [intros H0 | done]|].
  { apply Hnn in Hne. lia. }
  intros k. split.
  - intros Hk. assert (Hm : foldl Z.max (-1)%Z zs = Z.of_nat k) by lia.
    split.
    + rewrite Hm in Hne. subst zs.
      apply list_elem_of_fmap in Hne as (d & Hd & Hin'). exists d. split; [done | lia].
    + intros d Hd. assert (Hz : Z.of_nat (step_level g d) ∈ zs).
      { subst zs. apply list_elem_of_fmap. by exists d. }
      apply Hall in Hz. lia.
  - intros [(d & Hd & Hk) Hle].
    assert (Hz : Z.of_nat (step_level g d) ∈ zs).
    { subst zs. apply list_elem_of_fmap. by exists d. }
    apply Hall in Hz.
    apply list_elem_of_fmap in Hne as (d' & Hd' & Hin'). apply Hle in Hin'. lia.
Qed.

Lemma step_level_edge (g : graph) v u :
  acyclic g → edge g v u → step_level g u < step_level g v.
Proof.
  intros Hac Hvu. pose proof (step_level_formula g v Hac) as Hv.
  destruct (foldl_max_spec ((λ d, Z.of_nat (step_level g d)) <$> deps g v) (-1)%Z)
    as (_ & Hall & _).
  assert (Hz : Z.of_nat (step_level g u) ∈ (λ d, Z.of_nat (step_level g d)) <$> deps g v).
  { apply list_elem_of_fmap. by exists u. }
  apply Hall in Hz. lia.
Qed.

Lemma step_level_depends_on (g : graph) v u :
  acyclic g → depends_on g v u → step_level g u < step_level g v.
Proof.
  intros Hac. induction 1 as [v u Hvu | v w u Hvw _ IH].
  - by apply step_level_edge.
  - pose proof (step_level_edge g v w Hac Hvw). lia.
Qed.

Lemma filter_ext_elem_of (P1 P2 : string → Prop)
    `{!∀ x, Decision (P1 x), !∀ x, Decision (P2 x)} (l : list string) :
  (∀ x, x ∈ l → P1 x ↔ P2 x) → filter P1 l = filter P2 l.
Proof.
  induction l as [|a l IH]; intros Hiff; [done|].
  rewrite !filter_cons, IH by (intros x Hx; apply Hiff; by right).
  apply decide_ext. apply Hiff. left.
Qed.

Lemma groupStepsByLevel_spec (g : graph) executionOrder :
  acyclic g →
  (∀ s, s ∈ executionOrder → s ∈ nodes g) →
  ∃ levels,
    groupStepsByLevel g executionOrder = Some levels ∧
    (∀ k, level_at levels k = filter (λ s, step_level g s = k) executionOrder) ∧
    (∀ s, s ∈ executionOrder → step_level g s < length levels).
Proof.
  intros Hac Hxs. destruct (acyclic_levels g Hac) as (l & Hord & Hlen & Hall & Hrec).
  unfold groupStepsByLevel.
  rewrite (group_loop_ordered g (ref_levels g l) l (level_fuel g) Hord Hrec);
    [| unfold level_fuel; lia | intros x Hx; by apply Hall, Hxs | apply map_empty_subseteq].
  eexists. split; [done|].
  destruct (foldl_push_spec (λ x, Z.to_nat (dep_level (ref_levels g l) x)) executionOrder [])
    as (Hat & _ & Hidx).
  assert (Hlv : ∀ s, s ∈ executionOrder →
    Z.to_nat (dep_level (ref_levels g l) s) = step_level g s).
  { intros s Hs. assert (Hsl : s ∈ l) by by apply Hall, Hxs.
    rewrite (step_level_ref g l s Hord Hlen Hrec Hsl).
    unfold dep_level. by rewrite (Hrec s Hsl). }
  split.
  - intros k. rewrite Hat. simpl.
    apply filter_ext_elem_of. intros s Hs. by rewrite (Hlv s Hs).
  - intros s Hs. rewrite <- (Hlv s Hs). by apply Hidx.
Qed.

(** ** Claims about the graph algorithms *)




(** C5. On an acyclic flow graph, grouping a list of its steps by level
    puts into [levels[k]] exactly the listed steps whose computed level is
    [k]; the computed level is 0 for exactly the steps without
    dependencies and [k + 1] for exactly the steps whose dependencies have
    maximum level [k]; a step has a strictly higher level than everything
    it depends on, so no two steps of one level depend on each other,
    directly or transitively. For the diamond graph the levels are
    [a], [b, c], [d]. *)
Theorem groupStepsByLevel_levels :
  (∀ (g : graph) (executionOrder : list string),
     acyclic g →
     (∀ s, s ∈ executionOrder → s ∈ nodes g) →
     ∃ levels,
       groupStepsByLevel g executionOrder = Some levels ∧
       (∀ k l, levels !! k = Some l →
               l = filter (λ s, step_level g s = k) executionOrder) ∧
       (∀ s, s ∈ executionOrder →
             ∃ l, levels !! step_level g s = Some l ∧ s ∈ l) ∧
       level_spec g (step_level g) ∧
       (∀ v u, depends_on g v u → step_level g u < step_level g v) ∧
       (∀ k l v u, levels !! k = Some l → v ∈ l → u ∈ l → ¬ depends_on g v u)) ∧
  topologicalSort diamond = Done ["a"; "b"; "c"; "d"] ∧
  groupStepsByLevel diamond ["a"; "b"; "c"; "d"]
  = Some [["a"]; ["b"; "c"]; ["d"]].
Proof.
  split; [|split; vm_compute; reflexivity].
  intros g executionOrder Hac Hxs.
  destruct (groupStepsByLevel_spec g executionOrder Hac Hxs) as (levels & Hrun & Hat & Hlen).
  assert (Hlk : ∀ k l, levels !! k = Some l →
    l = filter (λ s, step_level g s = k) executionOrder).
  { intros k l Hl. rewrite <- Hat. unfold level_at. by rewrite Hl. }
  exists levels. split_and!; [done | done | | by apply step_level_spec | | ].
  - intros s Hs. destruct (lookup_lt_is_Some_2 levels _ (Hlen s Hs)) as [l Hl].
    exists l. split; [done|]. rewrite (Hlk _ _ Hl).
    by apply list_elem_of_filter.
  - intros v u. by apply step_level_depends_on.
  - intros k l v u Hl Hv Hu Hdep.
    rewrite (Hlk _ _ Hl) in Hv, Hu.
    apply list_elem_of_filter in Hv as [Hv _], Hu as [Hu _].
    pose proof (step_level_depends_on g v u Hac Hdep). lia.
Qed.

Lemma groupStepsByLevel_levels_witness :
  acyclic diamond ∧
  ∃ levels,
    groupStepsByLevel diamond ["a"; "b"; "c"; "d"] = Some levels ∧
    (∀ k l, levels !! k = Some l →
            l = filter (λ s, step_level diamond s = k) ["a"; "b"; "c"; "d"]) ∧
    (∀ s, s ∈ ["a"; "b"; "c"; "d"] →
          ∃ l, levels !! step_level diamond s = Some l ∧ s ∈ l) ∧
    level_spec diamond (step_level diamond) ∧
    (∀ v u, depends_on diamond v u → step_level diamond u < step_level diamond v) ∧
    (∀ k l v u, levels !! k = Some l → v ∈ l → u ∈ l → ¬ depends_on diamond v u).
Proof.
  assert (Hac : acyclic diamond).
  { apply (topologicalSort_Done_acyclic diamond ["a"; "b"; "c"; "d"]).
    vm_compute. reflexivity. }
  split; [exact Hac|].
  apply (proj1 groupStepsByLevel_levels diamond ["a"; "b"; "c"; "d"] Hac).
  intros s Hs. vm_compute.
  repeat (apply elem_of_cons in Hs as [-> | Hs]; [set_solver|]).
  by apply elem_of_nil in Hs.
Defined.

(** ** The scenarios of the test suite, run *)

Example scenario_basic :
  built_container (built basic_builder ()) "a" = Some (VStr "a-data") ∧
  built_container (built basic_builder ()) "b" = Some (VStr "b-a-data").
Proof. split; vm_compute; reflexivity. Qed.

Example scenario_diamond :
  built_container (built diamond_builder ()) "d" = Some (VStr "d-b-a-c-a").
Proof. vm_compute. reflexivity. Qed.

(** ** The execution engine *)

Section EngineFacts.

Context {V W : Type} `{!JsValue V}.

Implicit Types (wf : @Workflow V W) (flow : @FlowDefinition V W)
  (st : @state V W) (context ctx res : gmap string V).

(** *** A normal return reports success *)

Lemma execute_loop_success wf flowName flow order : ∀ context results st st' r,
  execute_loop wf flowName flow order context results st = (st', Returned r) →
  success r = true.
Proof.
  induction order as [|s order IH]; intros context results st st' r Hrun; simpl in Hrun.
  - by simplify_eq.
  - destruct (negb (Rec.has (fd_steps flow) s)); [by eapply IH|].
    destruct (try_step wf flowName flow context s st) as [st1 [v|e]]; [by eapply IH|].
    simplify_eq.
Qed.

Lemma executeAsync_loop_success wf flowName flow levelGroups :
  ∀ schedule context results st st' r,
  executeAsync_loop wf flowName flow levelGroups schedule context results st
  = (st', Returned r) →
  success r = true.
Proof.
  induction levelGroups as [|lvl levelGroups IH];
    intros schedule context results st st' r Hrun; simpl in Hrun.
  - by simplify_eq.
  - destruct (start_level wf flowName flow context lvl st) as [st1 tasks].
    destruct (await_all wf flowName schedule tasks st1) as [[schedule' st2] [items|e|]];
      [by eapply IH | simplify_eq..].
Qed.

(** C9. Whenever [execute] returns, or the promise of [executeAsync]
    resolves, the [success] field of the value is [true]; a failure is
    only ever a thrown error or a rejection. *)
Theorem success_is_true wf flowName :
  (∀ st st' r, execute wf flowName st = (st', Returned r) → success r = true) ∧
  (∀ schedule st st' r,
     executeAsync wf flowName schedule st = (st', Returned r) → success r = true).
Proof.
  split.
  - intros st st' r. unfold execute.
    destruct (Rec.get (wf_flows wf) flowName) as [flow|];
      [|by destruct (inherited flowName); intros ?; simplify_eq].
    destruct (topologicalSort (fd_dependencies flow)) as [order| |];
      [apply execute_loop_success | by intros ?; simplify_eq..].
  - intros schedule st st' r. unfold executeAsync.
    destruct (Rec.get (wf_flows wf) flowName) as [flow|];
      [|by destruct (inherited flowName); intros ?; simplify_eq].
    destruct (topologicalSort (fd_dependencies flow)) as [order| |];
      [| by intros ?; simplify_eq..].
    destruct (groupStepsByLevel (fd_dependencies flow) order) as [levelGroups|];
      [apply executeAsync_loop_success | by intros ?; simplify_eq].
Qed.

(** *** A flow other than the build flow leaves the containers alone *)

Lemma after_call_containers st stepName call wc :
  containers (after_call st stepName call wc).1 = containers st.
Proof. unfold after_call. by destruct wc as [w [r|e]]. Qed.

Lemma invoke_containers wf flowName flow context stepName st :
  containers (invoke wf flowName flow context stepName st).1 = containers st.
Proof.
  unfold invoke. repeat case_match; simpl; try done; apply after_call_containers.
Qed.

Lemma produce_containers wf flowName stepName v st :
  flowName ≠ wf_buildFlowName wf →
  containers (produce wf flowName stepName v st) = containers st.
Proof.
  intros Hne. unfold produce, is_build_flow. by rewrite bool_decide_eq_false_2.
Qed.

Lemma try_step_containers wf flowName flow context stepName st :
  flowName ≠ wf_buildFlowName wf →
  containers (try_step wf flowName flow context stepName st).1 = containers st.
Proof.
  intros Hne. unfold try_step.
  pose proof (invoke_containers wf flowName flow context stepName st) as Hinv.
  destruct (invoke wf flowName flow context stepName st) as [st1 [[v|p]|e]];
    cbn -[produce] in *; [by rewrite produce_containers | done..].
Qed.

Lemma execute_loop_containers wf flowName flow order : ∀ context results st,
  flowName ≠ wf_buildFlowName wf →
  containers (execute_loop wf flowName flow order context results st).1
  = containers st.
Proof.
  induction order as [|s order IH]; intros context results st Hne; simpl; [done|].
  destruct (negb (Rec.has (fd_steps flow) s)); [by apply IH|].
  pose proof (try_step_containers wf flowName flow context s st Hne) as Hstep.
  destruct (try_step wf flowName flow context s st) as [st1 [v|e]]; simpl in *; [|done].
  by rewrite IH.
Qed.

Lemma start_step_containers wf flowName flow context stepName st :
  flowName ≠ wf_buildFlowName wf →
  containers (start_step wf flowName flow context stepName st).1 = containers st.
Proof.
  intros Hne. unfold start_step.
  destruct (negb (Rec.has (fd_steps flow) stepName)); [done|].
  pose proof (invoke_containers wf flowName flow context stepName st) as Hinv.
  destruct (invoke wf flowName flow context stepName st) as [st1 [[v|p]|e]];
    cbn -[produce] in *; [by rewrite produce_containers | done..].
Qed.

Lemma start_level_containers wf flowName flow context levelSteps : ∀ st,
  flowName ≠ wf_buildFlowName wf →
  containers (start_level wf flowName flow context levelSteps st).1 = containers st.
Proof.
  induction levelSteps as [|s levelSteps IH]; intros st Hne; simpl; [done|].
  pose proof (start_step_containers wf flowName flow context s st Hne) as Hstep.
  destruct (start_step wf flowName flow context s st) as [st1 t]; simpl in *.
  specialize (IH st1 Hne).
  destruct (start_level wf flowName flow context levelSteps st1) as [st2 ts]; simpl in *.
  congruence.
Qed.

Lemma resume_at_containers wf flowName i tasks st :
  flowName ≠ wf_buildFlowName wf →
  containers (resume_at wf flowName i tasks st).1 = containers st.
Proof.
  intros Hne. unfold resume_at. destruct (tasks !! i) as [t|]; [|done].
  destruct t as [| | |stepName [v|e|k]]; cbn -[produce]; try done.
  - by rewrite produce_containers.
  - by destruct (k (world st)).
Qed.

Lemma await_all_containers wf flowName schedule : ∀ tasks st,
  flowName ≠ wf_buildFlowName wf →
  containers (await_all wf flowName schedule tasks st).1.2 = containers st.
Proof.
  induction schedule as [|i schedule IH]; intros tasks st Hne; simpl.
  - by repeat case_match.
  - destruct (first_rejection tasks); [done|].
    destruct (level_results tasks); [done|].
    pose proof (resume_at_containers wf flowName i tasks st Hne) as Hres.
    destruct (resume_at wf flowName i tasks st) as [st1 tasks1]; simpl in *.
    by rewrite IH.
Qed.

Lemma executeAsync_loop_containers wf flowName flow levelGroups :
  ∀ schedule context results st,
  flowName ≠ wf_buildFlowName wf →
  containers (executeAsync_loop wf flowName flow levelGroups schedule
                context results st).1
  = containers st.
Proof.
  induction levelGroups as [|lvl levelGroups IH];
    intros schedule context results st Hne; simpl; [done|].
  pose proof (start_level_containers wf flowName flow context lvl st Hne) as Hstart.
  destruct (start_level wf flowName flow context lvl st) as [st1 tasks]; simpl in *.
  pose proof (await_all_containers wf flowName schedule tasks st1 Hne) as Hawait.
  destruct (await_all wf flowName schedule tasks st1) as [[schedule' st2] [items|e|]];
    simpl in *; [|congruence..].
  rewrite IH by done. congruence.
Qed.

(** C4. A run of a flow other than the build flow, blocking or
    concurrent, never writes the container store: whatever the outcome
    of the run (results returned, or an action that threw), the store
    after the run maps every step name to the value it held before. *)
Theorem user_flow_keeps_containers wf flowName :
  flowName ≠ wf_buildFlowName wf →
  (∀ st, containers (execute wf flowName st).1 = containers st) ∧
  (∀ schedule st,
     containers (executeAsync wf flowName schedule st).1 = containers st).
Proof.
  intros Hne. split.
  - intros st. unfold execute. repeat case_match; try done.
    by apply execute_loop_containers.
  - intros schedule st. unfold executeAsync. repeat case_match; try done.
    by apply executeAsync_loop_containers.
Qed.

(** *** The observation log of a blocking run *)

Lemma ordered_dep_sorted (g : graph) l : ordered g l → dep_sorted g l.
Proof.
  induction 1 as [|l x Hord IH Hdeps]; intros l1 s l2 Heq d Hd.
  - by destruct l1.
  - destruct l2 as [|y l2 _] using rev_ind.
    + apply app_inj_tail in Heq as [-> ->]. by apply Hdeps.
    + rewrite app_comm_cons, app_assoc in Heq.
      apply app_inj_tail in Heq as [-> _]. by eapply IH.
Qed.

Lemma invoke_spec wf flowName flow context s st :
  has_action flow s →
  ∃ st1 c, invoke wf flowName flow context s st = (st1, c) ∧
    containers st1 = containers st ∧
    match c with
    | Return _ => trace st1 = trace st ++ [call_event wf flowName context s st]
    | Throw e =>
        trace st1 = trace st ++ [call_event wf flowName context s st; Threw s e] ∨
        (trace st1 = trace st ++ [Threw s e] ∧ e = not_a_function)
    end.
Proof.
  intros Hact. unfold invoke, call_event, after_call.
  destruct (is_build_flow wf flowName).
  - destruct (wf_steps wf !! s) as [implementation|].
    + destruct (implementation (input_data wf st s) (world st)) as [w [r|e]];
        eexists _, _; (split; [done|]); simpl; (split; [done|]).
      * done.
      * left. by rewrite <- app_assoc.
    + eexists _, _. split; [done|]. simpl. split; [done|]. by right.
  - unfold has_action, Rec.has in Hact.
    destruct (Rec.get (fd_steps flow) s) as [action|]; [|done].
    destruct (action (container_of st s) context (world st)) as [w [r|e]];
      eexists _, _; (split; [done|]); simpl; (split; [done|]).
    + done.
    + left. by rewrite <- app_assoc.
Qed.

Lemma produce_spec wf flowName s v st :
  trace (produce wf flowName s v st) = trace st ++ [Produced s v] ∧
  containers (produce wf flowName s v st)
  = (if is_build_flow wf flowName then <[s := v]> (containers st) else containers st) ∧
  world (produce wf flowName s v st) = world st.
Proof. unfold produce. by destruct (is_build_flow wf flowName). Qed.

Lemma lookup_snoc_event (new : list (@event V)) ev j ev' :
  (new ++ [ev]) !! j = Some ev' →
  (j < length new ∧ new !! j = Some ev') ∨ (j = length new ∧ ev' = ev).
Proof. intros [?|[? ?]]%lookup_snoc_Some; [by left | right; by split]. Qed.

Lemma context_sound_snoc flow earlier new ev :
  context_sound flow earlier new →
  match ev with
  | CallAction s c cx =>
      (∀ i x v, new !! i = Some (Produced x v) → earlier x s → cx !! x = Some v) ∧
      (∀ d, d ∈ deps (fd_dependencies flow) s → has_action flow d →
            ∃ i v, new !! i = Some (Produced d v) ∧ cx !! d = Some v)
  | _ => True
  end →
  context_sound flow earlier (new ++ [ev]).
Proof.
  intros Hsound Hev j s c cx Hj.
  apply lookup_snoc_event in Hj as [[Hlt Hj] | [-> Heq]].
  - destruct (Hsound j s c cx Hj) as [Hctx Hdeps]. split.
    + intros i x v Hi Hx Hearl. apply (Hctx i x v Hi); [|done].
      by rewrite lookup_app_l in Hx by lia.
    + intros d Hd Hact. destruct (Hdeps d Hd Hact) as (i & v & Hi & Hx & Hcx).
      exists i, v. split_and!; [done | | done]. by apply lookup_app_l_Some.
  - subst ev. destruct Hev as [Hctx Hdeps]. split.
    + intros i x v Hi Hx Hearl. rewrite lookup_app_l in Hx by lia.
      by apply (Hctx i x v).
    + intros d Hd Hact. destruct (Hdeps d Hd Hact) as (i & v & Hx & Hcx).
      exists i, v. split_and!; [by eapply lookup_lt_Some | | done].
      by apply lookup_app_l_Some.
Qed.

Lemma called_snoc (new : list (@event V)) ev :
  called (new ++ [ev])
  = called new ++ (if is_call ev then [event_step ev] else []).
Proof.
  unfold called. rewrite filter_app, fmap_app. f_equal.
  rewrite filter_cons, filter_nil. destruct (is_call ev); by case_decide.
Qed.

Lemma input_sound_snoc wf flow new ev :
  input_sound wf flow new →
  match ev with
  | CallStep s inputData =>
      ∀ d, d ∈ deps (wf_dependencies wf) s →
           d ∈ deps (fd_dependencies flow) s → has_action flow d →
           ∃ i v, new !! i = Some (Produced d v) ∧ inputData !! d = Some v
  | _ => True
  end →
  input_sound wf flow (new ++ [ev]).
Proof.
  intros Hsound Hev j s inputData Hj d Hd Hd' Hact.
  apply lookup_snoc_event in Hj as [[Hlt Hj] | [-> Heq]].
  - destruct (Hsound j s inputData Hj d Hd Hd' Hact) as (i & v & Hi & Hx & Hin).
    exists i, v. split_and!; [done | | done]. by apply lookup_app_l_Some.
  - subst ev. destruct (Hev d Hd Hd' Hact) as (i & v & Hx & Hin).
    exists i, v. split_and!; [by eapply lookup_lt_Some | | done].
    by apply lookup_app_l_Some.
Qed.

Lemma input_sound_app wf flow (l l' : list (@event V)) :
  input_sound wf flow l →
  (∀ ev, ev ∈ l' → is_call ev = false) →
  input_sound wf flow (l ++ l').
Proof.
  revert l. induction l' as [|ev l' IH]; intros l Hl Hl'; [by rewrite app_nil_r|].
  replace (l ++ ev :: l') with ((l ++ [ev]) ++ l') by by rewrite <- app_assoc.
  apply IH; [|set_solver].
  apply input_sound_snoc; [done|].
  assert (is_call ev = false) by (apply Hl'; left). by destruct ev.
Qed.

(** [inputData[dep]] is the container value of [dep]. *)
Lemma input_data_lookup wf st s d :
  d ∈ deps (wf_dependencies wf) s →
  input_data wf st s !! d = Some (container_of st d).
Proof.
  unfold input_data. generalize (∅ : gmap string V).
  induction (deps (wf_dependencies wf) s) as [|d' ds IH] using rev_ind;
    intros m Hd; [by apply elem_of_nil in Hd|].
  rewrite foldl_app. simpl. destruct (decide (d' = d)) as [->|Hne].
  - by rewrite lookup_insert_eq.
  - rewrite lookup_insert_ne by done. apply IH. set_solver.
Qed.

(** The call of a step satisfies both soundness conditions when the
    values produced so far are where the call reads them. *)
Lemma call_event_sound wf flowName flow (earlier : string → string → Prop)
    (new : list (@event V)) ctx s st :
  (∀ i x v, new !! i = Some (Produced x v) → earlier x s → ctx !! x = Some v) →
  (∀ d, d ∈ deps (fd_dependencies flow) s → has_action flow d →
        ∃ i v, new !! i = Some (Produced d v) ∧ ctx !! d = Some v ∧
               (is_build_flow wf flowName = true → containers st !! d = Some v)) →
  match call_event wf flowName ctx s st with
  | CallAction s' c cx =>
      (∀ i x v, new !! i = Some (Produced x v) → earlier x s' → cx !! x = Some v) ∧
      (∀ d, d ∈ deps (fd_dependencies flow) s' → has_action flow d →
            ∃ i v, new !! i = Some (Produced d v) ∧ cx !! d = Some v)
  | _ => True
  end ∧
  match call_event wf flowName ctx s st with
  | CallStep s' inputData =>
      ∀ d, d ∈ deps (wf_dependencies wf) s' →
           d ∈ deps (fd_dependencies flow) s' → has_action flow d →
           ∃ i v, new !! i = Some (Produced d v) ∧ inputData !! d = Some v
  | _ => True
  end.
Proof.
  intros Hearlier Hdeps. unfold call_event.
  destruct (is_build_flow wf flowName) eqn:Hbuild; simpl.
  - split; [done|]. intros d Hd Hd' Hact.
    destruct (Hdeps d Hd' Hact) as (i & v & Hi & _ & Hcont).
    exists i, v. split; [done|]. rewrite input_data_lookup by done.
    unfold container_of. by rewrite Hcont.
  - split; [|done]. split; [done|]. intros d Hd Hact.
    destruct (Hdeps d Hd Hact) as (i & v & Hi & Hc & _). by exists i, v.
Qed.

Lemma call_event_is_call wf flowName context s st :
  is_call (call_event wf flowName context s st) = true ∧
  event_step (call_event wf flowName context s st) = s.
Proof. unfold call_event. by destruct (is_build_flow wf flowName). Qed.

Lemma call_event_kind wf flowName context s st :
  call_kind wf flowName (call_event wf flowName context s st).
Proof. unfold call_event. by destruct (is_build_flow wf flowName) eqn:Hb; simpl. Qed.

Lemma run_inv_skip wf flowName flow earlier done new context results st s :
  run_inv wf flowName flow earlier done new context results st →
  ¬ has_action flow s →
  run_inv wf flowName flow earlier (done ++ [s]) new context results st.
Proof.
  intros [Hprod Hdone Hsteps Hcalled Hthrow Hctx Hkind Hinput] Hs. split.
  - intros i x v Hi. destruct (Hprod i x v Hi) as (? & ? & ? & ?).
    split_and!; [set_solver | done..].
  - intros x [Hx | ->%list_elem_of_singleton]%elem_of_app Hact; [by apply Hdone | done].
  - intros ev Hev. apply elem_of_app. left. by apply Hsteps.
  - rewrite filter_app, filter_cons, filter_nil, decide_False by done.
    by rewrite app_nil_r.
  - done.
  - done.
  - done.
  - done.
Qed.

(** The call of the next step keeps the log sound. *)
Lemma run_inv_call wf flowName flow earlier done new context results st s :
  run_inv wf flowName flow earlier done new context results st →
  (∀ d, d ∈ deps (fd_dependencies flow) s → d ∈ done) →
  context_sound flow earlier (new ++ [call_event wf flowName context s st]) ∧
  input_sound wf flow (new ++ [call_event wf flowName context s st]).
Proof.
  intros [Hprod Hdone Hsteps Hcalled Hthrow Hctx Hkind Hinput] Hdeps.
  destruct (call_event_sound wf flowName flow earlier new context s st)
    as [Hc Hi].
  - intros i x v' Hi _. by destruct (Hprod i x v' Hi) as (_ & ? & _).
  - intros d Hd Hd'. destruct (Hdone d (Hdeps d Hd) Hd') as (i & v' & Hi).
    exists i, v'. destruct (Hprod i d v' Hi) as (_ & ? & _ & ?). by split_and!.
  - split; [by apply context_sound_snoc | by apply input_sound_snoc].
Qed.

(** One step of a blocking run that produced a value. *)
Lemma run_inv_step wf flowName flow done new context results st st1 s v :
  run_inv wf flowName flow (λ _ _, True) done new context results st →
  has_action flow s → s ∉ done →
  (∀ d, d ∈ deps (fd_dependencies flow) s → d ∈ done) →
  containers st1
  = (if is_build_flow wf flowName then <[s := v]> (containers st) else containers st) →
  run_inv wf flowName flow (λ _ _, True) (done ++ [s])
    (new ++ [call_event wf flowName context s st; Produced s v])
    (<[s := v]> context) (<[s := v]> results) st1.
Proof.
  intros Hinv Hact Hs Hdeps Hcont.
  destruct (run_inv_call wf flowName flow _ done new context results st s Hinv Hdeps)
    as [Hcsound Hisound].
  destruct Hinv as [Hprod Hdone Hsteps Hcalled Hthrow Hctx Hkind Hinput].
  pose proof (call_event_kind wf flowName context s st) as Hck.
  destruct (call_event_is_call wf flowName context s st) as [Hcall Hstep].
  set (call := call_event wf flowName context s st) in *.
  replace (new ++ [call; Produced s v]) with ((new ++ [call]) ++ [Produced s v])
    by by rewrite <- app_assoc.
  assert (Hold : ∀ i x v', new !! i = Some (Produced x v') →
    x ∈ done ++ [s] ∧ <[s:=v]> context !! x = Some v' ∧
    <[s:=v]> results !! x = Some v' ∧
    (is_build_flow wf flowName = true → containers st1 !! x = Some v')).
  { intros i x v' Hi. destruct (Hprod i x v' Hi) as (Hx & Hc & Hr & Hb).
    assert (x ≠ s) by (intros ->; done).
    split_and!; [set_solver | by rewrite lookup_insert_ne.. |].
    intros Hbuild. rewrite Hcont, Hbuild, lookup_insert_ne by done. by apply Hb. }
  split.
  - intros i x v' Hi.
    apply lookup_snoc_event in Hi as [[_ Hi] | [_ Heq]].
    + apply lookup_snoc_event in Hi as [[_ Hi] | [_ Heq]]; [by eapply Hold|].
      subst call. unfold call_event in Heq. by destruct (is_build_flow wf flowName).
    + simplify_eq. split_and!; [set_solver | by rewrite lookup_insert_eq.. |].
      intros Hbuild. by rewrite Hcont, Hbuild, lookup_insert_eq.
  - intros x [Hx | ->%list_elem_of_singleton]%elem_of_app Hx'.
    + destruct (Hdone x Hx Hx') as (i & v' & Hi). exists i, v'.
      by apply lookup_app_l_Some, lookup_app_l_Some.
    + exists (length (new ++ [call])), v. by rewrite lookup_app_r, Nat.sub_diag by lia.
  - intros ev [[Hev | ->%list_elem_of_singleton]%elem_of_app
              | ->%list_elem_of_singleton]%elem_of_app.
    + apply elem_of_app. left. by apply Hsteps.
    + rewrite Hstep. set_solver.
    + simpl. set_solver.
  - rewrite !called_snoc, Hcall, Hstep, Hcalled. simpl. rewrite app_nil_r.
    by rewrite filter_app, filter_cons, filter_nil, decide_True by done.
  - intros s' e [[Hev | Hev%list_elem_of_singleton]%elem_of_app
                | Hev%list_elem_of_singleton]%elem_of_app.
    + by eapply Hthrow.
    + subst call. unfold call_event in Hev. by destruct (is_build_flow wf flowName).
    + done.
  - by apply context_sound_snoc.
  - intros ev [[Hev | ->%list_elem_of_singleton]%elem_of_app
              | ->%list_elem_of_singleton]%elem_of_app; [by apply Hkind | done | done].
  - by apply input_sound_snoc.
Qed.

(** The blocking loop from a state that satisfies the invariant: the
    contexts and input data of the whole log are sound, the loop never
    ends without a completion, and when it returns the invariant holds
    for all steps. *)
Lemma execute_loop_inv wf flowName flow rest : ∀ done new ctx res st tr0,
  trace st = tr0 ++ new →
  run_inv wf flowName flow (λ _ _, True) done new ctx res st →
  NoDup (done ++ rest) →
  dep_sorted (fd_dependencies flow) (done ++ rest) →
  ∃ st' out new',
    execute_loop wf flowName flow rest ctx res st = (st', out) ∧
    trace st' = tr0 ++ new' ∧
    context_sound flow (λ _ _, True) new' ∧
    input_sound wf flow new' ∧
    match out with
    | Returned r =>
        ∃ ctx', run_inv wf flowName flow (λ _ _, True) (done ++ rest) new'
                      ctx' (results r) st'
    | Raised _ => True
    | Unsettled => False
    end.
Proof.
  induction rest as [|s rest IH]; intros done new ctx res st tr0 Htr Hinv Hnd Hsorted.
  { simpl. eexists _, _, new. split_and!; [done | done | apply Hinv | apply Hinv |].
    exists ctx. by rewrite app_nil_r. }
  assert (Hs : s ∉ done).
  { apply NoDup_app in Hnd as (_ & Hnd & _). intros Hin. apply (Hnd s Hin). left. }
  assert (Hdeps : ∀ d, d ∈ deps (fd_dependencies flow) s → d ∈ done).
  { intros d Hd. by apply (Hsorted done s rest). }
  assert (Heq : done ++ s :: rest = (done ++ [s]) ++ rest) by by rewrite <- app_assoc.
  rewrite Heq in Hnd, Hsorted |- *. simpl.
  destruct (Rec.has (fd_steps flow) s) eqn:Hact; simpl.
  2: { apply (IH (done ++ [s]) new ctx res st tr0); [done | | done | done].
       apply run_inv_skip; [done|]. unfold has_action. by rewrite Hact. }
  destruct (invoke_spec wf flowName flow ctx s st Hact) as (st1 & c & Hrun & Hcont & Hlog).
  unfold try_step. rewrite Hrun.
  destruct (run_inv_call wf flowName flow _ done new ctx res st s Hinv Hdeps)
    as [Hcall Hicall].
  destruct c as [[v|p]|e].
  - destruct (produce_spec wf flowName s v st1) as (Hptr & Hpcont & _).
    apply (IH (done ++ [s]) (new ++ [call_event wf flowName ctx s st; Produced s v])
              _ _ (produce wf flowName s v st1) tr0); [| | done | done].
    + rewrite Hptr, Hlog, Htr. by rewrite <- !app_assoc.
    + apply (run_inv_step wf flowName flow done new ctx res st); try done.
      by rewrite Hpcont, Hcont.
  - eexists _, _, (new ++ [call_event wf flowName ctx s st]).
    split_and!; [done | | done | done | done]. rewrite Hlog, Htr. by rewrite <- app_assoc.
  - destruct Hlog as [Hlog | [Hlog _]].
    + eexists _, _, ((new ++ [call_event wf flowName ctx s st]) ++ [Threw s e]).
      split_and!; [done | | by apply context_sound_snoc | by apply input_sound_snoc | done].
      rewrite Hlog, Htr. by rewrite <- !app_assoc.
    + eexists _, _, (new ++ [Threw s e]).
      split_and!; [done | | apply context_sound_snoc; [apply Hinv | done]
                  | apply input_sound_snoc; [apply Hinv | done] | done].
      rewrite Hlog, Htr. by rewrite <- app_assoc.
Qed.

Lemma run_inv_empty wf flowName flow earlier st :
  run_inv wf flowName flow earlier [] [] ∅ ∅ st.
Proof.
  split; try done.
  - intros x Hx. by apply elem_of_nil in Hx.
  - intros ev Hev. by apply elem_of_nil in Hev.
  - intros s e Hev. by apply elem_of_nil in Hev.
  - intros ev Hev. by apply elem_of_nil in Hev.
Qed.

(** [execute] always completes: the sort never runs out of fuel. *)
Lemma execute_settles wf flowName st : (execute wf flowName st).2 ≠ Unsettled.
Proof.
  unfold execute. destruct (Rec.get (wf_flows wf) flowName) as [flow|];
    [|by destruct (inherited flowName)].
  pose proof (topologicalSort_spec (fd_dependencies flow)) as Hspec.
  destruct (topologicalSort (fd_dependencies flow)) as [order| |]; [|done..].
  destruct Hspec as (Hnd & Hord & _).
  destruct (execute_loop_inv wf flowName flow order [] [] ∅ ∅ st (trace st))
    as (st' & out & new' & -> & _ & _ & _ & Hout);
    [by rewrite app_nil_r | apply run_inv_empty | done | by apply ordered_dep_sorted |].
  simpl. by destruct out.
Qed.

(** *** The observation log of a level of a concurrent run *)

Lemma elem_of_insert_inv {A : Type} (l : list A) i x y :
  y ∈ <[i := x]> l → y = x ∨ y ∈ l.
Proof.
  intros [j Hj]%list_elem_of_lookup.
  apply list_lookup_insert_Some in Hj as [(-> & -> & _) | [_ Hj]]; [by left|].
  right. by eapply list_elem_of_lookup_2.
Qed.

Lemma elem_of_insert_keep {A : Type} (l : list A) i x y z :
  y ∈ l → l !! i = Some z → y ≠ z → y ∈ <[i := x]> l.
Proof.
  intros [j Hj]%list_elem_of_lookup Hi Hne.
  apply list_elem_of_lookup. exists j.
  rewrite list_lookup_insert_ne; [done|]. intros ->. congruence.
Qed.

(** The callback of one more step of the level has started. *)
Lemma level_inv_extend wf flowName flow earlier new st0 started tasks evs st
    s t evs1 st' :
  level_inv wf flowName flow earlier new st0 started tasks evs st →
  s ∉ started →
  task_for flow s t →
  (∀ ev, ev ∈ evs1 → event_step ev = s) →
  ((∀ e, t ≠ TaskFailed e) →
   called evs1 = (if decide (has_action flow s) then [s] else [])) →
  (∀ x v, Produced x v ∈ evs1 → t = TaskDone x v) →
  (∀ x v, t = TaskDone x v →
          Produced x v ∈ evs1 ∧
          (is_build_flow wf flowName = true → containers st' !! x = Some v)) →
  (∀ x c, Threw x c ∈ evs1 → t = TaskFailed (step_failed x c)) →
  (∀ e, t = TaskFailed e → ∃ x c, e = step_failed x c ∧ Threw x c ∈ evs1) →
  (∀ x, x ≠ s → containers st' !! x = containers st !! x) →
  context_sound flow earlier (new ++ evs ++ evs1) →
  (∀ ev, ev ∈ evs1 → call_kind wf flowName ev) →
  input_sound wf flow (new ++ evs ++ evs1) →
  level_inv wf flowName flow earlier new st0 (started ++ [s]) (tasks ++ [t])
            (evs ++ evs1) st'.
Proof.
  intros [Htasks Hdone Hprod Hfailed Hthrew Hsteps Hcalled Hframe Hctx Hkind Hinput]
    Hs Ht Hev1 Hcalled1 Hprod1 Hdone1 Hthrew1 Hfailed1 Hcont Hctx1 Hkind1 Hinput1.
  assert (Hin : ∀ s' v, TaskDone s' v ∈ tasks → s' ∈ started).
  { intros s' v [i Hi]%list_elem_of_lookup.
    destruct (Forall2_lookup_r _ _ _ _ _ Htasks Hi) as (x & Hx & [-> _]).
    by eapply list_elem_of_lookup_2. }
  split.
  - apply Forall2_app; [done | by constructor].
  - intros s' v [Hin' | <-%list_elem_of_singleton]%elem_of_app.
    + destruct (Hdone s' v Hin') as [Hp Hb]. split; [set_solver|].
      intros Hbuild. rewrite Hcont; [by apply Hb|].
      intros ->. by apply Hs, (Hin s v).
    + destruct (Hdone1 s' v eq_refl) as [Hp Hb]. split; [set_solver | done].
  - intros s' v [Hp | Hp]%elem_of_app; [set_solver|].
    apply elem_of_app. right. apply list_elem_of_singleton. symmetry. by apply Hprod1.
  - intros e [He | <-%list_elem_of_singleton]%elem_of_app.
    + destruct (Hfailed e He) as (x & c & -> & Hx). exists x, c. set_solver.
    + destruct (Hfailed1 e eq_refl) as (x & c & -> & Hx). exists x, c. set_solver.
  - intros s' c [Hp | Hp]%elem_of_app; [set_solver|].
    apply elem_of_app. right. apply list_elem_of_singleton. symmetry. by apply Hthrew1.
  - intros ev [Hev | Hev]%elem_of_app; [set_solver|].
    rewrite (Hev1 ev Hev). set_solver.
  - intros Hnofail. unfold called in *.
    rewrite filter_app, fmap_app, Hcalled, Hcalled1 by set_solver.
    rewrite filter_app, filter_cons, filter_nil. by case_decide.
  - intros x Hx. rewrite Hcont by set_solver. apply Hframe. set_solver.
  - done.
  - intros ev [Hev | Hev]%elem_of_app; [by apply Hkind | by apply Hkind1].
  - done.
Qed.

Lemma call_event_not_result wf flowName context s st :
  (∀ x v, Produced x v ≠ call_event wf flowName context s st) ∧
  (∀ x e, Threw x e ≠ call_event wf flowName context s st).
Proof. unfold call_event. by destruct (is_build_flow wf flowName). Qed.

Lemma called_call wf flowName context s st (evs : list (@event V)) :
  (∀ ev, ev ∈ evs → is_call ev = false) →
  called (call_event wf flowName context s st :: evs) = [s].
Proof.
  intros Hevs. destruct (call_event_is_call wf flowName context s st) as [Hcall Hstep].
  unfold called. rewrite filter_cons, decide_True by done. simpl. rewrite Hstep.
  f_equal. induction evs as [|ev evs IH]; [done|].
  rewrite filter_cons, decide_False; [apply IH; set_solver|].
  rewrite (Hevs ev) by set_solver. done.
Qed.

Lemma start_step_inv wf flowName flow earlier new st0 started tasks evs st tr0
    ctx s :
  level_inv wf flowName flow earlier new st0 started tasks evs st →
  trace st = tr0 ++ new ++ evs →
  s ∉ started →
  (∀ i x v, (new ++ evs) !! i = Some (Produced x v) → earlier x s →
            ctx !! x = Some v) →
  (∀ d, d ∈ deps (fd_dependencies flow) s → has_action flow d →
        ∃ i v, (new ++ evs) !! i = Some (Produced d v) ∧ ctx !! d = Some v ∧
               (is_build_flow wf flowName = true → containers st !! d = Some v)) →
  ∃ st' t evs1,
    start_step wf flowName flow ctx s st = (st', t) ∧
    trace st' = tr0 ++ new ++ evs ++ evs1 ∧
    level_inv wf flowName flow earlier new st0 (started ++ [s]) (tasks ++ [t])
              (evs ++ evs1) st'.
Proof.
  intros Hinv Htr Hs Hearlier Hdeps. unfold start_step.
  destruct (Rec.has (fd_steps flow) s) eqn:Hact; simpl.
  2: { exists st, TaskSkipped, []. rewrite !app_nil_r. split_and!; [done | done |].
       rewrite <- (app_nil_r evs).
       apply (level_inv_extend _ _ _ _ _ _ _ _ _ st); try done.
       - simpl. unfold has_action. by rewrite Hact.
       - intros ev Hev. by apply elem_of_nil in Hev.
       - intros _. rewrite decide_False; [done|]. unfold has_action. by rewrite Hact.
       - intros x v Hx. by apply elem_of_nil in Hx.
       - intros x c Hx. by apply elem_of_nil in Hx.
       - rewrite !app_nil_r. apply Hinv.
       - intros ev Hev. by apply elem_of_nil in Hev.
       - rewrite !app_nil_r. apply Hinv. }
  destruct (invoke_spec wf flowName flow ctx s st Hact) as (st1 & c & -> & Hcont & Hlog).
  destruct (call_event_is_call wf flowName ctx s st) as [Hcall Hstep].
  destruct (call_event_not_result wf flowName ctx s st) as [Hnp Hnt].
  pose proof (call_event_kind wf flowName ctx s st) as Hck.
  destruct (call_event_sound wf flowName flow earlier (new ++ evs) ctx s st
              Hearlier Hdeps) as [Hcs His].
  assert (Hsound : context_sound flow earlier
            ((new ++ evs) ++ [call_event wf flowName ctx s st]))
    by (apply context_sound_snoc; [apply Hinv | done]).
  assert (Hisound : input_sound wf flow
            ((new ++ evs) ++ [call_event wf flowName ctx s st]))
    by (apply input_sound_snoc; [apply Hinv | done]).
  clear Hcs His.
  set (call := call_event wf flowName ctx s st) in *.
  destruct c as [[v|p]|e].
  - destruct (produce_spec wf flowName s v st1) as (Hptr & Hpcont & _).
    eexists _, (TaskDone s v), [call; Produced s v]. split_and!; [done | |].
    { rewrite Hptr, Hlog, Htr. by rewrite <- !app_assoc. }
    apply (level_inv_extend _ _ _ _ _ _ _ _ _ st); try done.
    + intros ev [-> | ->%list_elem_of_singleton]%elem_of_cons; done.
    + intros _. rewrite decide_True by done. apply called_call.
      intros ev ->%list_elem_of_singleton. done.
    + intros x v' [Hx | Hx%list_elem_of_singleton]%elem_of_cons; [by apply Hnp in Hx|].
      by simplify_eq.
    + intros x v' Hx. simplify_eq. split; [set_solver|].
      intros Hbuild. by rewrite Hpcont, Hbuild, lookup_insert_eq.
    + intros x c [Hx | Hx%list_elem_of_singleton]%elem_of_cons; [by apply Hnt in Hx | done].
    + intros x Hx. rewrite Hpcont, Hcont.
      destruct (is_build_flow wf flowName); [by rewrite lookup_insert_ne | done].
    + rewrite app_assoc. replace ((new ++ evs) ++ [call; Produced s v])
        with (((new ++ evs) ++ [call]) ++ [Produced s v]) by by rewrite <- !app_assoc.
      by apply context_sound_snoc.
    + intros ev [-> | ->%list_elem_of_singleton]%elem_of_cons; done.
    + rewrite app_assoc. replace ((new ++ evs) ++ [call; Produced s v])
        with (((new ++ evs) ++ [call]) ++ [Produced s v]) by by rewrite <- !app_assoc.
      by apply input_sound_snoc.
  - eexists _, (TaskAwaiting s p), [call]. split_and!; [done | |].
    { rewrite Hlog, Htr. by rewrite <- !app_assoc. }
    apply (level_inv_extend _ _ _ _ _ _ _ _ _ st); try done.
    + intros ev ->%list_elem_of_singleton. done.
    + intros _. rewrite decide_True by done. apply called_call.
      intros ev Hev. by apply elem_of_nil in Hev.
    + intros x v' Hx%list_elem_of_singleton. by apply Hnp in Hx.
    + intros x c Hx%list_elem_of_singleton. by apply Hnt in Hx.
    + intros x Hx. by rewrite Hcont.
    + by rewrite app_assoc.
    + intros ev ->%list_elem_of_singleton. done.
    + by rewrite app_assoc.
  - destruct Hlog as [Hlog | [Hlog _]].
    + eexists _, (TaskFailed (step_failed s e)), [call; Threw s e]. split_and!; [done | |].
      { rewrite Hlog, Htr. by rewrite <- !app_assoc. }
      apply (level_inv_extend _ _ _ _ _ _ _ _ _ st); try done.
      * simpl. split; [done | by exists e].
      * intros ev [-> | ->%list_elem_of_singleton]%elem_of_cons; done.
      * intros Hnf. by destruct (Hnf (step_failed s e)).
      * intros x v' [Hx | Hx%list_elem_of_singleton]%elem_of_cons; [by apply Hnp in Hx | done].
      * intros x c [Hx | Hx%list_elem_of_singleton]%elem_of_cons; [by apply Hnt in Hx|].
        by simplify_eq.
      * intros e' He'. simplify_eq. exists s, e. set_solver.
      * intros x Hx. by rewrite Hcont.
      * rewrite app_assoc. replace ((new ++ evs) ++ [call; Threw s e])
          with (((new ++ evs) ++ [call]) ++ [Threw s e]) by by rewrite <- !app_assoc.
        by apply context_sound_snoc.
      * intros ev [-> | ->%list_elem_of_singleton]%elem_of_cons; done.
      * rewrite app_assoc. replace ((new ++ evs) ++ [call; Threw s e])
          with (((new ++ evs) ++ [call]) ++ [Threw s e]) by by rewrite <- !app_assoc.
        by apply input_sound_snoc.
    + eexists _, (TaskFailed (step_failed s e)), [Threw s e]. split_and!; [done | |].
      { rewrite Hlog, Htr. by rewrite <- !app_assoc. }
      apply (level_inv_extend _ _ _ _ _ _ _ _ _ st); try done.
      * simpl. split; [done | by exists e].
      * intros ev ->%list_elem_of_singleton. done.
      * intros Hnf. by destruct (Hnf (step_failed s e)).
      * intros x v' Hx%list_elem_of_singleton. done.
      * intros x c Hx%list_elem_of_singleton. by simplify_eq.
      * intros e' He'. simplify_eq. exists s, e. set_solver.
      * intros x Hx. by rewrite Hcont.
      * rewrite app_assoc. apply context_sound_snoc; [apply Hinv | done].
      * intros ev ->%list_elem_of_singleton. done.
      * rewrite app_assoc. apply input_sound_snoc; [apply Hinv | done].
Qed.

Lemma start_level_inv wf flowName flow earlier new st0 tr0 ctx rest :
  ∀ started tasks evs st,
  level_inv wf flowName flow earlier new st0 started tasks evs st →
  trace st = tr0 ++ new ++ evs →
  NoDup (started ++ rest) →
  (∀ s x, s ∈ rest → x ∈ started ++ rest → ¬ earlier x s) →
  (∀ i x v, new !! i = Some (Produced x v) → ctx !! x = Some v) →
  (∀ s d, s ∈ rest → d ∈ deps (fd_dependencies flow) s → has_action flow d →
          (d ∉ started ++ rest) ∧
          ∃ i v, new !! i = Some (Produced d v) ∧ ctx !! d = Some v ∧
                 (is_build_flow wf flowName = true → containers st0 !! d = Some v)) →
  ∃ st' ts evs',
    start_level wf flowName flow ctx rest st = (st', ts) ∧
    trace st' = tr0 ++ new ++ evs' ∧
    level_inv wf flowName flow earlier new st0 (started ++ rest) (tasks ++ ts)
              evs' st'.
Proof.
  induction rest as [|s rest IH]; intros started tasks evs st Hinv Htr Hnd Hearlier Hprev Hdeps.
  { exists st, [], evs. by rewrite !app_nil_r. }
  assert (Hs : s ∉ started).
  { apply NoDup_app in Hnd as (_ & Hnd & _). intros Hin. apply (Hnd s Hin). left. }
  destruct (start_step_inv wf flowName flow earlier new st0 started tasks evs st tr0 ctx s
              Hinv Htr Hs) as (st1 & t & evs1 & Hstep & Htr1 & Hinv1).
  { intros i x v Hi Hx. apply lookup_app_Some in Hi as [Hi | [_ Hi]]; [by eapply Hprev|].
    exfalso. apply (Hearlier s x); [left | | done].
    apply elem_of_app. left. apply (lv_steps _ _ _ _ _ _ _ _ _ _ Hinv (Produced x v)).
    by eapply list_elem_of_lookup_2. }
  { intros d Hd Hact.
    destruct (Hdeps s d) as (Hout & i & v & Hi & Hc & Hb); [left | done | done |].
    exists i, v. split_and!; [by apply lookup_app_l_Some | done |].
    intros Hbuild. rewrite (lv_frame _ _ _ _ _ _ _ _ _ _ Hinv); [by apply Hb|].
    set_solver. }
  assert (Heq : started ++ s :: rest = (started ++ [s]) ++ rest) by by rewrite <- app_assoc.
  rewrite Heq in Hnd, Hearlier |- *.
  destruct (IH (started ++ [s]) (tasks ++ [t]) (evs ++ evs1) st1)
    as (st2 & ts & evs2 & Hlevel & Htr2 & Hinv2); try done.
  { intros s' x Hs' Hx. apply Hearlier; [by right | done]. }
  { intros s' d Hs' Hd Hact. rewrite <- Heq. apply (Hdeps s' d); [by right | done..]. }
  exists st2, (t :: ts), evs2. simpl. rewrite Hstep, Hlevel.
  split_and!; [done | done |].
  replace (tasks ++ t :: ts) with ((tasks ++ [t]) ++ ts) by by rewrite <- app_assoc.
  done.
Qed.

Lemma context_sound_app flow earlier (l l' : list (@event V)) :
  context_sound flow earlier l →
  (∀ ev, ev ∈ l' → is_call ev = false) →
  context_sound flow earlier (l ++ l').
Proof.
  revert l. induction l' as [|ev l' IH]; intros l Hl Hl'; [by rewrite app_nil_r|].
  replace (l ++ ev :: l') with ((l ++ [ev]) ++ l') by by rewrite <- app_assoc.
  apply IH; [|set_solver].
  apply context_sound_snoc; [done|].
  assert (is_call ev = false) by (apply Hl'; left). by destruct ev.
Qed.

(** The suspended callback at index [i] was given a turn. *)
Lemma level_inv_update wf flowName flow earlier new st0 lvl tasks evs st
    i s p t' evs1 st' :
  level_inv wf flowName flow earlier new st0 lvl tasks evs st →
  NoDup lvl →
  tasks !! i = Some (TaskAwaiting s p) →
  task_for flow s t' →
  (∀ ev, ev ∈ evs1 → event_step ev = s ∧ is_call ev = false) →
  (∀ x v, Produced x v ∈ evs1 → t' = TaskDone x v) →
  (∀ x v, t' = TaskDone x v →
          Produced x v ∈ evs1 ∧
          (is_build_flow wf flowName = true → containers st' !! x = Some v)) →
  (∀ x c, Threw x c ∈ evs1 → t' = TaskFailed (step_failed x c)) →
  (∀ e, t' = TaskFailed e → ∃ x c, e = step_failed x c ∧ Threw x c ∈ evs1) →
  (∀ x, x ≠ s → containers st' !! x = containers st !! x) →
  level_inv wf flowName flow earlier new st0 lvl (<[i := t']> tasks)
            (evs ++ evs1) st'.
Proof.
  intros [Htasks Hdone Hprod Hfailed Hthrew Hsteps Hcalled Hframe Hctx Hkind Hinput]
    Hnd Hi Ht' Hev1 Hprod1 Hdone1 Hthrew1 Hfailed1 Hcont.
  destruct (Forall2_lookup_r _ _ _ _ _ Htasks Hi) as (s0 & Hs0 & [<- Hact]).
  assert (Hlt : i < length tasks) by by eapply lookup_lt_Some.
  assert (Hkeep : ∀ t, t ∈ tasks → (∀ q, t ≠ TaskAwaiting s q) → t ∈ <[i := t']> tasks).
  { intros t Ht Hne. eapply elem_of_insert_keep; [done | done |]. apply Hne. }
  assert (Hother : ∀ x v, TaskDone x v ∈ tasks → x ≠ s).
  { intros x v [j Hj]%list_elem_of_lookup ->.
    destruct (Forall2_lookup_r _ _ _ _ _ Htasks Hj) as (x & Hx & [<- _]).
    assert (i = j) by by eapply NoDup_lookup. simplify_eq. }
  split.
  - rewrite <- (list_insert_id lvl i s Hs0). by apply Forall2_insert.
  - intros x v [<- | Hx]%elem_of_insert_inv.
    + destruct (Hdone1 x v eq_refl) as [Hp Hb]. split; [set_solver | done].
    + destruct (Hdone x v Hx) as [Hp Hb]. split; [set_solver|].
      intros Hbuild. rewrite Hcont by by eapply Hother. by apply Hb.
  - intros x v [Hp | Hp]%elem_of_app.
    + apply Hkeep; [by apply Hprod | done].
    + rewrite <- (Hprod1 x v Hp). by apply list_elem_of_insert.
  - intros e [<- | He]%elem_of_insert_inv.
    + destruct (Hfailed1 e eq_refl) as (x & c & -> & Hx). exists x, c. set_solver.
    + destruct (Hfailed e He) as (x & c & -> & Hx). exists x, c. set_solver.
  - intros x c [Hp | Hp]%elem_of_app.
    + apply Hkeep; [by apply Hthrew | done].
    + rewrite <- (Hthrew1 x c Hp). by apply list_elem_of_insert.
  - intros ev [Hev | Hev]%elem_of_app; [by apply Hsteps|].
    destruct (Hev1 ev Hev) as [-> _]. by eapply list_elem_of_lookup_2.
  - intros Hnofail. unfold called in *. rewrite filter_app, fmap_app, Hcalled.
    + replace (filter (λ ev, is_call ev = true) evs1) with (@nil (@event V));
        [by rewrite app_nil_r|].
      clear -Hev1. induction evs1 as [|ev evs1 IH]; [done|].
      rewrite filter_cons, decide_False; [apply IH; set_solver|].
      destruct (Hev1 ev) as [_ ->]; [left | done].
    + intros e He. apply (Hnofail e). by apply Hkeep.
  - intros x Hx. rewrite Hcont; [by apply Hframe|].
    intros ->. apply Hx. by eapply list_elem_of_lookup_2.
  - rewrite app_assoc. apply context_sound_app; [done|]. intros ev Hev. by apply Hev1.
  - intros ev [Hev | Hev]%elem_of_app; [by apply Hkind|].
    destruct (Hev1 ev Hev) as [_ Hc]. by destruct ev.
  - rewrite app_assoc. apply input_sound_app; [done|]. intros ev Hev. by apply Hev1.
Qed.

Lemma resume_at_inv wf flowName flow earlier new st0 lvl tasks evs st tr0 i :
  level_inv wf flowName flow earlier new st0 lvl tasks evs st →
  NoDup lvl →
  trace st = tr0 ++ new ++ evs →
  ∃ st' tasks' evs',
    resume_at wf flowName i tasks st = (st', tasks') ∧
    trace st' = tr0 ++ new ++ evs' ∧
    level_inv wf flowName flow earlier new st0 lvl tasks' evs' st'.
Proof.
  intros Hinv Hnd Htr. unfold resume_at.
  destruct (tasks !! i) as [t|] eqn:Hi; [|by exists st, tasks, evs].
  assert (Hidle : resume_task wf flowName t st = (st, t) →
    ∃ st' tasks' evs',
      (let '(st', t') := resume_task wf flowName t st in (st', <[i:=t']> tasks))
      = (st', tasks') ∧
      trace st' = tr0 ++ new ++ evs' ∧
      level_inv wf flowName flow earlier new st0 lvl tasks' evs' st').
  { intros ->. exists st, tasks, evs. by rewrite list_insert_id. }
  destruct t as [|s v|e|s [v|e|k]]; try by apply Hidle.
  - destruct (produce_spec wf flowName s v st) as (Hptr & Hpcont & _).
    eexists _, _, (evs ++ [Produced s v]). cbn -[produce]. split_and!; [done | |].
    { rewrite Hptr, Htr. by rewrite <- !app_assoc. }
    destruct (Forall2_lookup_r _ _ _ _ _ (lv_tasks _ _ _ _ _ _ _ _ _ _ Hinv) Hi)
      as (s0 & Hs0 & [<- Hact]).
    eapply level_inv_update; try done.
    + intros ev ->%list_elem_of_singleton. done.
    + intros x v' Hx%list_elem_of_singleton. by simplify_eq.
    + intros x v' Hx. simplify_eq. split; [set_solver|].
      intros Hbuild. by rewrite Hpcont, Hbuild, lookup_insert_eq.
    + intros x c Hx%list_elem_of_singleton. done.
    + intros x Hx. rewrite Hpcont.
      destruct (is_build_flow wf flowName); [by rewrite lookup_insert_ne | done].
  - eexists _, _, (evs ++ [Threw s e]). simpl. split_and!; [done | |].
    { simpl. rewrite Htr. by rewrite <- !app_assoc. }
    destruct (Forall2_lookup_r _ _ _ _ _ (lv_tasks _ _ _ _ _ _ _ _ _ _ Hinv) Hi)
      as (s0 & Hs0 & [<- Hact]).
    eapply level_inv_update; try done.
    + simpl. split; [done | by exists e].
    + intros ev ->%list_elem_of_singleton. done.
    + intros x v' Hx%list_elem_of_singleton. done.
    + intros x c Hx%list_elem_of_singleton. by simplify_eq.
    + intros e' He'. simplify_eq. exists s, e. set_solver.
  - simpl. destruct (k (world st)) as [w p] eqn:Hk.
    eexists _, _, (evs ++ []). split_and!; [done | |].
    { simpl. by rewrite app_nil_r. }
    destruct (Forall2_lookup_r _ _ _ _ _ (lv_tasks _ _ _ _ _ _ _ _ _ _ Hinv) Hi)
      as (s0 & Hs0 & [<- Hact]).
    eapply level_inv_update; try done.
    + intros ev Hev. by apply elem_of_nil in Hev.
    + intros x v' Hx. by apply elem_of_nil in Hx.
    + intros x c Hx. by apply elem_of_nil in Hx.
Qed.

Lemma first_rejection_Some (tasks : list (@task V W)) e :
  first_rejection tasks = Some e → TaskFailed e ∈ tasks.
Proof.
  induction tasks as [|t tasks IH]; [done|].
  destruct t; simpl; intros He; simplify_eq; try (right; by apply IH). left.
Qed.

Lemma first_rejection_None (tasks : list (@task V W)) :
  first_rejection tasks = None → ∀ e, TaskFailed e ∉ tasks.
Proof.
  induction tasks as [|t tasks IH]; intros Hnone e He; [by apply elem_of_nil in He|].
  destruct t; simpl in Hnone; try done;
    apply elem_of_cons in He as [He | He]; try done; by eapply IH.
Qed.

Lemma level_results_Some (tasks : list (@task V W)) items :
  level_results tasks = Some items →
  (∀ t, t ∈ tasks → t = TaskSkipped ∨ ∃ s v, t = TaskDone s v) ∧
  (∀ s v, Some (s, v) ∈ items ↔ TaskDone s v ∈ tasks).
Proof.
  revert items. induction tasks as [|t tasks IH]; intros items Hres.
  { simpl in Hres. simplify_eq. split; [by intros ? ?%elem_of_nil|].
    intros s v. split; by intros ?%elem_of_nil. }
  destruct t as [|s0 v0| |]; simpl in Hres; try done;
    destruct (level_results tasks) as [items'|]; simpl in Hres; simplify_eq;
    destruct (IH items' eq_refl) as [Hkinds Hitems].
  - split.
    + intros t [-> | Ht]%elem_of_cons; [by left | by apply Hkinds].
    + intros s v. rewrite !elem_of_cons, Hitems. naive_solver.
  - split.
    + intros t [-> | Ht]%elem_of_cons; [right; eauto | by apply Hkinds].
    + intros s v. rewrite !elem_of_cons, Hitems. naive_solver.
Qed.

Lemma fold_results_lookup (items : list (option (string * V))) x v :
  ∀ m : gmap string V,
  (∀ v', Some (x, v') ∈ items → v' = v) →
  Some (x, v) ∈ items ∨ m !! x = Some v →
  fold_results items m !! x = Some v.
Proof.
  unfold fold_results. induction items as [|item items IH]; intros m Huniq Hin; simpl.
  { destruct Hin as [Hin | Hin]; [by apply elem_of_nil in Hin | done]. }
  apply IH; [intros v' Hv'; apply Huniq; by right|].
  destruct Hin as [[<- | Hin]%elem_of_cons | Hin]; [| by left |].
  - right. by rewrite lookup_insert_eq.
  - destruct item as [[s' v']|]; [|by right].
    destruct (decide (s' = x)) as [->|Hne].
    + rewrite (Huniq v') by left. right. by rewrite lookup_insert_eq.
    + right. by rewrite lookup_insert_ne.
Qed.

Lemma fold_results_other (items : list (option (string * V))) x :
  ∀ m : gmap string V,
  (∀ v, Some (x, v) ∉ items) →
  fold_results items m !! x = m !! x.
Proof.
  unfold fold_results. induction items as [|item items IH]; intros m Hnot; simpl; [done|].
  rewrite IH by (intros v Hv; apply (Hnot v); by right).
  destruct item as [[s' v']|]; [|done].
  rewrite lookup_insert_ne; [done|]. intros ->. apply (Hnot v'). left.
Qed.

Lemma await_all_inv wf flowName flow earlier new st0 lvl tr0 schedule :
  ∀ tasks evs st,
  level_inv wf flowName flow earlier new st0 lvl tasks evs st →
  NoDup lvl →
  trace st = tr0 ++ new ++ evs →
  ∃ schedule' st' out tasks' evs',
    await_all wf flowName schedule tasks st = (schedule', st', out) ∧
    trace st' = tr0 ++ new ++ evs' ∧
    level_inv wf flowName flow earlier new st0 lvl tasks' evs' st' ∧
    match out with
    | AllResolved items => level_results tasks' = Some items
    | OneRejected e => TaskFailed e ∈ tasks'
    | NeverSettled => ∀ e, TaskFailed e ∉ tasks'
    end.
Proof.
  induction schedule as [|i schedule IH]; intros tasks evs st Hinv Hnd Htr; simpl.
  - destruct (first_rejection tasks) as [e|] eqn:Hrej.
    { eexists _, _, _, tasks, evs. split_and!; [done..|]. simpl.
      by apply first_rejection_Some. }
    destruct (level_results tasks) as [items|] eqn:Hres.
    { by eexists _, _, _, tasks, evs. }
    eexists _, _, _, tasks, evs. split_and!; [done..|]. simpl.
    by apply first_rejection_None.
  - destruct (first_rejection tasks) as [e|] eqn:Hrej.
    { eexists _, _, _, tasks, evs. split_and!; [done..|]. simpl.
      by apply first_rejection_Some. }
    destruct (level_results tasks) as [items|] eqn:Hres.
    { by eexists _, _, _, tasks, evs. }
    destruct (resume_at_inv wf flowName flow earlier new st0 lvl tasks evs st tr0 i
                Hinv Hnd Htr) as (st1 & tasks1 & evs1 & -> & Htr1 & Hinv1).
    by apply (IH tasks1 evs1 st1).
Qed.

Lemma called_app (l l' : list (@event V)) : called (l ++ l') = called l ++ called l'.
Proof. unfold called. by rewrite filter_app, fmap_app. Qed.

(** A level whose callbacks all resolved, folded into the run. *)
Lemma run_inv_level wf flowName flow earlier done new ctx res st0 lvl tasks evs st
    items :
  run_inv wf flowName flow earlier done new ctx res st0 →
  level_inv wf flowName flow earlier new st0 lvl tasks evs st →
  NoDup (done ++ lvl) →
  level_results tasks = Some items →
  run_inv wf flowName flow earlier (done ++ lvl) (new ++ evs)
          (fold_results items ctx) (fold_results items res) st.
Proof.
  intros [Hprod Hdone Hsteps Hcalled Hthrow Hctx Hkind Hinput]
    [Htasks Hldone Hlprod Hlfailed Hlthrew Hlsteps Hlcalled Hlframe Hlctx Hlkind Hlinput]
    Hnd Hres.
  destruct (level_results_Some tasks items Hres) as [Hkinds Hitems].
  apply NoDup_app in Hnd as (Hnd_done & Hdisj & Hnd_lvl).
  assert (Hnofail : ∀ e, TaskFailed e ∉ tasks).
  { intros e He. destruct (Hkinds _ He) as [? | (? & ? & ?)]; done. }
  assert (Hin : ∀ s v, TaskDone s v ∈ tasks → s ∈ lvl ∧ has_action flow s).
  { intros s v [i Hi]%list_elem_of_lookup.
    destruct (Forall2_lookup_r _ _ _ _ _ Htasks Hi) as (x & Hx & [-> ?]).
    split; [by eapply list_elem_of_lookup_2 | done]. }
  assert (Huniq : ∀ s v v', TaskDone s v ∈ tasks → TaskDone s v' ∈ tasks → v' = v).
  { intros s v v' [i Hi]%list_elem_of_lookup [j Hj]%list_elem_of_lookup.
    destruct (Forall2_lookup_r _ _ _ _ _ Htasks Hi) as (x & Hx & [<- _]).
    destruct (Forall2_lookup_r _ _ _ _ _ Htasks Hj) as (y & Hy & [<- _]).
    assert (i = j) by by eapply NoDup_lookup. by simplify_eq. }
  assert (Hold : ∀ x (m : gmap string V), x ∈ done → fold_results items m !! x = m !! x).
  { intros x m Hx. apply fold_results_other. intros v [Hv _]%Hitems%Hin.
    by apply (Hdisj x Hx). }
  assert (Hnew : ∀ x v (m : gmap string V), TaskDone x v ∈ tasks →
    fold_results items m !! x = Some v).
  { intros x v m Hx. apply fold_results_lookup; [|left; by apply Hitems].
    intros v' Hv'%Hitems. by eapply Huniq. }
  split.
  - intros i x v [Hi | [_ Hi]]%lookup_app_Some.
    + destruct (Hprod i x v Hi) as (Hx & Hc & Hr & Hb).
      split_and!; [set_solver | by rewrite Hold.. |].
      intros Hbuild. rewrite Hlframe; [by apply Hb|]. by apply Hdisj.
    + assert (Ht : TaskDone x v ∈ tasks) by by eapply Hlprod, list_elem_of_lookup_2.
      destruct (Hin x v Ht) as [Hx _].
      split_and!; [set_solver | by apply Hnew.. |]. by apply (Hldone x v Ht).
  - intros x [Hx | Hx]%elem_of_app Hact.
    + destruct (Hdone x Hx Hact) as (i & v & Hi). exists i, v. by apply lookup_app_l_Some.
    + apply list_elem_of_lookup in Hx as [i Hi].
      destruct (Forall2_lookup_l _ _ _ _ _ Htasks Hi) as (t & Ht & Hfor).
      destruct (Hkinds t) as [-> | (s & v & ->)]; [by eapply list_elem_of_lookup_2 | done |].
      destruct Hfor as [-> _].
      destruct (Hldone x v) as [Hp _]; [by eapply list_elem_of_lookup_2|].
      apply list_elem_of_lookup in Hp as [j Hj].
      exists (length new + j), v. rewrite lookup_app_r by lia.
      by replace (length new + j - length new) with j by lia.
  - intros ev [Hev | Hev]%elem_of_app; apply elem_of_app; [left | right]; eauto.
  - by rewrite called_app, Hcalled, Hlcalled, filter_app.
  - intros s e [He | He]%elem_of_app; [by eapply Hthrow|].
    by eapply Hnofail, Hlthrew.
  - done.
  - intros ev [Hev | Hev]%elem_of_app; [by apply Hkind | by apply Hlkind].
  - done.
Qed.

Lemma level_inv_empty wf flowName flow earlier new st0 :
  context_sound flow earlier new →
  input_sound wf flow new →
  level_inv wf flowName flow earlier new st0 [] [] [] st0.
Proof.
  intros Hctx Hinput. split; try done; try by intros * ?%elem_of_nil.
  all: by rewrite app_nil_r.
Qed.

(** The concurrent loop from a state that satisfies the invariant. A
    rejection wraps what a step of the failing level threw, and nothing
    was called beyond that level; a run that returns satisfies the
    invariant for all levels; a run that never settles saw no step throw. *)
Lemma executeAsync_loop_inv wf flowName flow earlier levels :
  ∀ done new ctx res st tr0 schedule,
  trace st = tr0 ++ new →
  run_inv wf flowName flow earlier done new ctx res st →
  NoDup (done ++ concat levels) →
  (∀ pre lvl post, levels = pre ++ lvl :: post →
     (∀ s x, s ∈ lvl → x ∈ lvl → ¬ earlier x s) ∧
     (∀ s d, s ∈ lvl → d ∈ deps (fd_dependencies flow) s → d ∈ done ++ concat pre)) →
  ∃ st' out new',
    executeAsync_loop wf flowName flow levels schedule ctx res st = (st', out) ∧
    trace st' = tr0 ++ new' ∧
    context_sound flow earlier new' ∧
    input_sound wf flow new' ∧
    match out with
    | Returned r =>
        ∃ ctx', run_inv wf flowName flow earlier (done ++ concat levels) new'
                  ctx' (results r) st'
    | Raised e =>
        ∃ pre lvl post s cause,
          levels = pre ++ lvl :: post ∧ s ∈ lvl ∧
          e = step_failed s cause ∧ Threw s cause ∈ new' ∧
          (∀ ev, ev ∈ new' → event_step ev ∈ done ++ concat pre ++ lvl)
    | Unsettled => ∀ s cause, Threw s cause ∉ new'
    end.
Proof.
  induction levels as [|lvl levels IH];
    intros done new ctx res st tr0 schedule Htr Hinv Hnd Hlevels.
  { simpl. eexists _, _, new. split_and!; [done | done | apply Hinv | apply Hinv |].
    exists ctx. by rewrite app_nil_r. }
  simpl in Hnd. rewrite app_assoc in Hnd.
  assert (Hnd_lvl : NoDup lvl).
  { apply NoDup_app in Hnd as (Hnd & _). by apply NoDup_app in Hnd as (_ & _ & ?). }
  destruct (Hlevels [] lvl levels eq_refl) as [Hsame Hdeps]. simpl in Hdeps.
  rewrite app_nil_r in Hdeps.
  destruct (start_level_inv wf flowName flow earlier new st tr0 ctx lvl [] [] [] st)
    as (st1 & tasks & evs & Hstart & Htr1 & Hinv1).
  { apply level_inv_empty; apply Hinv. }
  { by rewrite app_nil_r. }
  { done. }
  { intros s x Hs Hx. by apply Hsame. }
  { intros i x v Hi. by destruct (inv_produced _ _ _ _ _ _ _ _ _ Hinv i x v Hi) as (_ & ? & _). }
  { intros s d Hs Hd Hact. split.
    { simpl. intros Hin. apply NoDup_app in Hnd as (Hnd & _).
      apply NoDup_app in Hnd as (_ & Hdisj & _). by apply (Hdisj d (Hdeps s d Hs Hd)). }
    destruct (inv_done _ _ _ _ _ _ _ _ _ Hinv d (Hdeps s d Hs Hd) Hact) as (i & v & Hi).
    exists i, v.
    destruct (inv_produced _ _ _ _ _ _ _ _ _ Hinv i d v Hi) as (_ & ? & _ & ?).
    by split_and!. }
  simpl in Hstart, Hinv1.
  destruct (await_all_inv wf flowName flow earlier new st lvl tr0 schedule tasks evs st1
              Hinv1 Hnd_lvl Htr1)
    as (schedule' & st2 & out & tasks' & evs' & Hawait & Htr2 & Hinv2 & Hout).
  simpl. rewrite Hstart, Hawait.
  destruct out as [items|e|].
  - destruct (IH (done ++ lvl) (new ++ evs') (fold_results items ctx)
                (fold_results items res) st2 tr0 schedule')
      as (st' & out & new' & Hrun & Htr' & Hctx' & Hinput' & Hout').
    + by rewrite Htr2, app_assoc.
    + apply (run_inv_level _ _ _ _ _ _ _ _ st _ tasks'); try done.
      by apply NoDup_app in Hnd as (? & _).
    + done.
    + intros pre lvl' post ->.
      destruct (Hlevels (lvl :: pre) lvl' post eq_refl) as [Hsame' Hdeps'].
      split; [done|]. intros s d Hs Hd. specialize (Hdeps' s d Hs Hd).
      simpl in Hdeps'. by rewrite app_assoc in Hdeps'.
    + exists st', out, new'. split_and!; [done..|].
      destruct out as [r|e|]; [| |done].
      * destruct Hout' as [ctx' Hout']. exists ctx'. simpl. by rewrite app_assoc.
      * destruct Hout' as (pre & lvl' & post & s & cause & -> & Hs & -> & Hthrew & Hevs).
        exists (lvl :: pre), lvl', post, s, cause. split_and!; [done..|].
        intros ev Hev. specialize (Hevs ev Hev). simpl.
        by rewrite <- !app_assoc in Hevs |- *.
  - destruct (lv_failed _ _ _ _ _ _ _ _ _ _ Hinv2 e Hout) as (s & cause & -> & Hthrew).
    eexists _, _, (new ++ evs'). split_and!; [done | done | apply Hinv2 | apply Hinv2 |].
    exists [], lvl, levels, s, cause. split_and!; [done | | done | set_solver |].
    + apply (lv_steps _ _ _ _ _ _ _ _ _ _ Hinv2 (Threw s cause) Hthrew).
    + intros ev [Hev | Hev]%elem_of_app; simpl.
      * apply elem_of_app. left. by apply (inv_steps _ _ _ _ _ _ _ _ _ Hinv).
      * apply elem_of_app. right. by apply (lv_steps _ _ _ _ _ _ _ _ _ _ Hinv2).
  - eexists _, _, (new ++ evs'). split_and!; [done | done | apply Hinv2 | apply Hinv2 |].
    intros s cause [He | He]%elem_of_app.
    + by apply (inv_no_throw _ _ _ _ _ _ _ _ _ Hinv s cause).
    + by apply (Hout (step_failed s cause)), (lv_threw _ _ _ _ _ _ _ _ _ _ Hinv2).
Qed.

(** *** Whole runs *)

Lemma elem_of_concat (ls : list (list string)) x :
  x ∈ concat ls ↔ ∃ l, l ∈ ls ∧ x ∈ l.
Proof.
  induction ls as [|l ls IH]; simpl.
  - split; [by intros ?%elem_of_nil | by intros (l & ?%elem_of_nil & _)].
  - rewrite elem_of_app, IH. split.
    + intros [Hx | (l' & Hl' & Hx)]; [exists l; split; [left | done]|].
      exists l'. split; [by right | done].
    + intros (l' & [-> | Hl']%elem_of_cons & Hx); [by left | right; eauto].
Qed.

Lemma NoDup_concat_levels (f : string → nat) xs :
  NoDup xs →
  ∀ levels n,
    (∀ k, level_at levels k = filter (λ s, f s = n + k) xs) →
    NoDup (concat levels).
Proof.
  intros Hnd. induction levels as [|l levels IH]; intros n Hat; simpl; [constructor|].
  assert (Hrest : ∀ k, level_at levels k = filter (λ s, f s = S n + k) xs).
  { intros k. specialize (Hat (S k)). unfold level_at in *. simpl in Hat.
    rewrite Hat. apply list_filter_iff. intros x. lia. }
  apply NoDup_app. split_and!.
  - specialize (Hat 0). unfold level_at in Hat. simpl in Hat. rewrite Hat.
    by apply NoDup_filter.
  - intros x Hx (l' & Hl' & Hx')%elem_of_concat.
    specialize (Hat 0). unfold level_at in Hat. simpl in Hat. rewrite Hat in Hx.
    apply list_elem_of_filter in Hx as [Hfx _].
    apply list_elem_of_lookup in Hl' as [k Hk].
    specialize (Hrest k). unfold level_at in Hrest. rewrite Hk in Hrest. simpl in Hrest.
    rewrite Hrest in Hx'. apply list_elem_of_filter in Hx' as [Hfx' _]. lia.
  - by apply (IH (S n)).
Qed.

(** The levels of a sorted acyclic graph: every step is in exactly one
    level, steps of one level have the same computed level, and the
    dependencies of a step are in earlier levels. *)
Lemma levels_structure (g : graph) order :
  topologicalSort g = Done order →
  ∃ levels,
    groupStepsByLevel g order = Some levels ∧
    NoDup (concat levels) ∧
    (∀ s, s ∈ order → s ∈ concat levels) ∧
    (∀ pre lvl post, levels = pre ++ lvl :: post →
       (∀ s x, s ∈ lvl → x ∈ lvl → ¬ step_level g x < step_level g s) ∧
       (∀ s d, s ∈ lvl → d ∈ deps g s → d ∈ concat pre)).
Proof.
  intros Hsort. pose proof (topologicalSort_Done_acyclic g order Hsort) as Hac.
  pose proof (topologicalSort_spec g) as Hspec. rewrite Hsort in Hspec.
  destruct Hspec as (Hnd & Hord & Hall).
  destruct (groupStepsByLevel_spec g order Hac) as (levels & Hgroup & Hat & Hlen).
  { intros s. apply Hall. }
  exists levels. split_and!; [done | | |].
  - apply (NoDup_concat_levels (step_level g) order Hnd levels 0). intros k. apply Hat.
  - intros s Hs. destruct (lookup_lt_is_Some_2 levels _ (Hlen s Hs)) as [l Hl].
    apply elem_of_concat. exists l. split; [by eapply list_elem_of_lookup_2|].
    specialize (Hat (step_level g s)). unfold level_at in Hat. rewrite Hl in Hat.
    simpl in Hat. rewrite Hat. by apply list_elem_of_filter.
  - intros pre lvl post ->.
    assert (Hlvl : ∀ s, s ∈ lvl → step_level g s = length pre).
    { intros s Hs. specialize (Hat (length pre)). unfold level_at in Hat.
      rewrite lookup_app_r, Nat.sub_diag in Hat by lia. simpl in Hat.
      rewrite Hat in Hs. by apply list_elem_of_filter in Hs as [? _]. }
    split.
    + intros s x Hs Hx. rewrite (Hlvl s Hs), (Hlvl x Hx). lia.
    + intros s d Hs Hd.
      pose proof (step_level_edge g s d Hac Hd) as Hlt. rewrite (Hlvl s Hs) in Hlt.
      assert (Hdo : d ∈ order) by (apply Hall; by apply (edge_in_nodes g s d)).
      destruct (lookup_lt_is_Some_2 pre _ Hlt) as [l Hl].
      apply elem_of_concat. exists l. split; [by eapply list_elem_of_lookup_2|].
      specialize (Hat (step_level g d)). unfold level_at in Hat.
      rewrite lookup_app_l, Hl in Hat by lia. simpl in Hat. rewrite Hat.
      by apply list_elem_of_filter.
Qed.

Lemma new_events_app st st' new :
  trace st' = trace st ++ new → new_events st st' = new.
Proof. intros Htr. unfold new_events. rewrite Htr. apply drop_app_length. Qed.

(** A blocking run of a flow whose graph sorts. *)
Lemma execute_run wf flowName flow order st :
  Rec.get (wf_flows wf) flowName = Some flow →
  topologicalSort (fd_dependencies flow) = Done order →
  ∃ st' out,
    execute wf flowName st = (st', out) ∧
    trace st' = trace st ++ new_events st st' ∧
    context_sound flow (λ _ _, True) (new_events st st') ∧
    input_sound wf flow (new_events st st') ∧
    match out with
    | Returned r =>
        ∃ ctx', run_inv wf flowName flow (λ _ _, True) order (new_events st st')
                  ctx' (results r) st'
    | Raised _ => True
    | Unsettled => False
    end.
Proof.
  intros Hflow Hsort. unfold execute. rewrite Hflow, Hsort.
  pose proof (topologicalSort_spec (fd_dependencies flow)) as Hspec.
  rewrite Hsort in Hspec. destruct Hspec as (Hnd & Hord & _).
  destruct (execute_loop_inv wf flowName flow order [] [] ∅ ∅ st (trace st))
    as (st' & out & new' & Hrun & Htr & Hctx & Hinput & Hout);
    [by rewrite app_nil_r | apply run_inv_empty | done | by apply ordered_dep_sorted |].
  exists st', out. rewrite (new_events_app st st' new' Htr). by split_and!.
Qed.

(** A concurrent run of a flow whose graph sorts. *)
Lemma executeAsync_run wf flowName flow order schedule st :
  Rec.get (wf_flows wf) flowName = Some flow →
  topologicalSort (fd_dependencies flow) = Done order →
  let earlier := λ x s, step_level (fd_dependencies flow) x
                        < step_level (fd_dependencies flow) s in
  ∃ levels st' out,
    groupStepsByLevel (fd_dependencies flow) order = Some levels ∧
    NoDup (concat levels) ∧
    (∀ s, s ∈ order → s ∈ concat levels) ∧
    executeAsync wf flowName schedule st = (st', out) ∧
    trace st' = trace st ++ new_events st st' ∧
    context_sound flow earlier (new_events st st') ∧
    input_sound wf flow (new_events st st') ∧
    match out with
    | Returned r =>
        ∃ ctx', run_inv wf flowName flow earlier (concat levels)
                  (new_events st st') ctx' (results r) st'
    | Raised e =>
        ∃ pre lvl post s cause,
          levels = pre ++ lvl :: post ∧ s ∈ lvl ∧
          e = step_failed s cause ∧ Threw s cause ∈ new_events st st' ∧
          (∀ ev, ev ∈ new_events st st' → event_step ev ∈ concat pre ++ lvl)
    | Unsettled => ∀ s cause, Threw s cause ∉ new_events st st'
    end.
Proof.
  intros Hflow Hsort earlier. unfold executeAsync. rewrite Hflow, Hsort.
  destruct (levels_structure (fd_dependencies flow) order Hsort)
    as (levels & Hgroup & Hnd & Hcover & Hlevels).
  rewrite Hgroup.
  destruct (executeAsync_loop_inv wf flowName flow earlier levels [] [] ∅ ∅ st
              (trace st) schedule)
    as (st' & out & new' & Hrun & Htr & Hctx & Hinput & Hout);
    [by rewrite app_nil_r | apply run_inv_empty | done | |].
  { intros pre lvl post Heq. destruct (Hlevels pre lvl post Heq) as [Hsame Hdeps].
    split; [done|]. intros s d Hs Hd. simpl. by apply (Hdeps s d). }
  exists levels, st', out. rewrite (new_events_app st st' new' Htr).
  by split_and!.
Qed.

(** *** Failing steps *)

Lemma execute_loop_app wf flowName flow pre rest : ∀ (m : gmap string V) st st1 r1,
  execute_loop wf flowName flow pre m m st = (st1, Returned r1) →
  execute_loop wf flowName flow (pre ++ rest) m m st
  = execute_loop wf flowName flow rest (results r1) (results r1) st1.
Proof.
  induction pre as [|s pre IH]; intros m st st1 r1 Hpre; simpl in *.
  - by simplify_eq.
  - destruct (negb (Rec.has (fd_steps flow) s)); [by apply IH|].
    destruct (try_step wf flowName flow m s st) as [st' [v|e]]; [by apply IH | done].
Qed.

(** The steps of a sorted order that ran before a given step. *)
Lemma execute_prefix wf flowName flow pre rest st st1 r1 :
  topologicalSort (fd_dependencies flow) = Done (pre ++ rest) →
  execute_loop wf flowName flow pre ∅ ∅ st = (st1, Returned r1) →
  ∃ new1 ctx1,
    trace st1 = trace st ++ new1 ∧
    run_inv wf flowName flow (λ _ _, True) pre new1 ctx1 (results r1) st1.
Proof.
  intros Hsort Hpre.
  pose proof (topologicalSort_spec (fd_dependencies flow)) as Hspec.
  rewrite Hsort in Hspec. destruct Hspec as (Hnd & Hord%ordered_dep_sorted & _).
  destruct (execute_loop_inv wf flowName flow pre [] [] ∅ ∅ st (trace st))
    as (st' & out & new' & Hrun & Htr & _ & _ & Hout).
  - by rewrite app_nil_r.
  - apply run_inv_empty.
  - by apply NoDup_app in Hnd as (? & _).
  - intros l1 s l2 Heq. apply (Hord l1 s (l2 ++ rest)).
    simpl in Heq. rewrite Heq. by rewrite <- app_assoc.
  - rewrite Hpre in Hrun. simplify_eq. destruct Hout as [ctx1 Hinv].
    by exists new', ctx1.
Qed.

(** What was called when a run stops right after the call of [s]. *)
Lemma stopped_after_call wf flowName flow pre s post st st1 r1 st2 evs :
  topologicalSort (fd_dependencies flow) = Done (pre ++ s :: post) →
  execute_loop wf flowName flow pre ∅ ∅ st = (st1, Returned r1) →
  trace st2 = trace st1 ++ evs →
  (∀ ev, ev ∈ evs → event_step ev = s) →
  ∀ x, x ∈ post → x ∉ called (new_events st st2).
Proof.
  intros Hsort Hpre Htr Hevs x Hx Hcalled.
  destruct (execute_prefix wf flowName flow pre (s :: post) st st1 r1 Hsort Hpre)
    as (new1 & ctx1 & Htr1 & Hinv).
  pose proof (topologicalSort_spec (fd_dependencies flow)) as Hspec.
  rewrite Hsort in Hspec. destruct Hspec as (Hnd & _).
  rewrite (new_events_app st st2 (new1 ++ evs)) in Hcalled
    by by rewrite Htr, Htr1, app_assoc.
  unfold called in Hcalled.
  apply list_elem_of_fmap in Hcalled as (ev & -> & [_ Hev]%list_elem_of_filter).
  apply NoDup_app in Hnd as (_ & Hdisj & Hnd).
  apply elem_of_app in Hev as [Hev | Hev].
  - apply (Hdisj (event_step ev)); [|by right].
    by apply (inv_steps _ _ _ _ _ _ _ _ _ Hinv).
  - rewrite (Hevs ev Hev) in Hx. by apply NoDup_cons in Hnd as [? _].
Qed.

(** C2. In blocking execution the steps are taken one at a time in
    topological order. When the callable of a step (step implementation in
    the build flow, flow action otherwise) returns a promise, [execute]
    throws at once: the error is the mode violation ("... returned a
    Promise, but execute requires synchronous execution ...") wrapped by
    the step-failure handler, the run ends in the state right after that
    call, so no later step of the order is called, the container store
    is as it was before the call, and no results are returned. *)
Theorem execute_rejects_promise wf flowName flow pre s post st st1 r1 st2 p :
  Rec.get (wf_flows wf) flowName = Some flow →
  topologicalSort (fd_dependencies flow) = Done (pre ++ s :: post) →
  execute_loop wf flowName flow pre ∅ ∅ st = (st1, Returned r1) →
  has_action flow s →
  invoke wf flowName flow (results r1) s st1 = (st2, Return (Deferred p)) →
  execute wf flowName st
  = (st2, Raised (step_failed s (returned_promise wf flowName s))) ∧
  containers st2 = containers st1 ∧
  called (new_events st st2)
  = called (new_events st st1) ++ [s] ∧
  called (new_events st st1) = filter (has_action flow) pre ∧
  (∀ x, x ∈ post → x ∉ called (new_events st st2)).
Proof.
  intros Hflow Hsort Hpre Hact Hinvoke.
  destruct (invoke_spec wf flowName flow (results r1) s st1 Hact)
    as (st2' & c & Hrun & Hcont & Hlog).
  rewrite Hinvoke in Hrun. simplify_eq.
  destruct (execute_prefix wf flowName flow pre (s :: post) st st1 r1 Hsort Hpre)
    as (new1 & ctx1 & Htr1 & Hinv).
  destruct (call_event_is_call wf flowName (results r1) s st1) as [Hcall Hstep].
  split_and!.
  - unfold execute. rewrite Hflow, Hsort.
    rewrite (execute_loop_app wf flowName flow pre (s :: post) ∅ st st1 r1 Hpre).
    simpl. unfold has_action in Hact. rewrite Hact. simpl.
    unfold try_step. rewrite Hinvoke. done.
  - done.
  - rewrite (new_events_app st st2' (new1 ++ [call_event wf flowName (results r1) s st1]))
      by by rewrite Hlog, Htr1, app_assoc.
    rewrite (new_events_app st st1 new1 Htr1).
    by rewrite called_snoc, Hcall, Hstep.
  - rewrite (new_events_app st st1 new1 Htr1). apply Hinv.
  - eapply stopped_after_call; [done | done | done |].
    intros ev ->%list_elem_of_singleton. done.
Qed.

(** *** Runs of the build flow *)

Lemma run_inv_recomputed wf flowName flow earlier done new ctx st' r :
  is_build_flow wf flowName = true →
  run_inv wf flowName flow earlier done new ctx (results r) st' →
  recomputed flow done new st' r.
Proof.
  intros Hbuild [Hprod Hdone Hsteps Hcalled Hthrow Hctx Hkind _].
  assert (Hcalls : ∀ ev, ev ∈ new → is_call ev = true →
    ∃ s inputData, ev = CallStep s inputData).
  { intros ev Hev Hcall. specialize (Hkind ev Hev).
    destruct ev; simpl in *; try done; [eauto | congruence]. }
  split; [done|].
  intros s Hs Hact.
  destruct (Hdone s Hs Hact) as (i & v & Hi).
  destruct (Hprod i s v Hi) as (_ & _ & Hres & Hcont).
  assert (Hin : s ∈ called new).
  { rewrite Hcalled. by apply list_elem_of_filter. }
  unfold called in Hin.
  apply list_elem_of_fmap in Hin as (ev & -> & [Hcall Hev]%list_elem_of_filter).
  destruct (Hcalls ev Hev Hcall) as (s' & inputData & ->).
  exists inputData, v. split_and!; [done | by eapply list_elem_of_lookup_2 | auto | done].
Qed.

(** A run of the build flow that returns has called the implementation
    of every step of the flow, in topological order in blocking mode, and
    has overwritten the container of each with the value produced. *)
Lemma build_flow_run wf flowName flow order :
  Rec.get (wf_flows wf) flowName = Some flow →
  topologicalSort (fd_dependencies flow) = Done order →
  is_build_flow wf flowName = true →
  (∀ st st' r,
     execute wf flowName st = (st', Returned r) →
     called (new_events st st') = filter (has_action flow) order ∧
     recomputed flow order (new_events st st') st' r) ∧
  (∀ schedule st st' r,
     executeAsync wf flowName schedule st = (st', Returned r) →
     recomputed flow order (new_events st st') st' r).
Proof.
  intros Hflow Hsort Hbuild. split.
  - intros st st' r Hrun.
    destruct (execute_run wf flowName flow order st Hflow Hsort)
      as (st'' & out & Hrun' & _ & _ & _ & Hout).
    rewrite Hrun in Hrun'. simplify_eq. destruct Hout as [ctx' Hinv].
    split; [apply Hinv | by eapply run_inv_recomputed].
  - intros schedule st st' r Hrun.
    destruct (executeAsync_run wf flowName flow order schedule st Hflow Hsort)
      as (levels & st'' & out & _ & _ & Hcover & Hrun' & _ & _ & _ & Hout).
    rewrite Hrun in Hrun'. simplify_eq. destruct Hout as [ctx' Hinv].
    destruct (run_inv_recomputed wf flowName flow _ _ _ _ _ _ Hbuild Hinv)
      as [Hcalls Hsteps].
    split; [done|]. intros s Hs. by apply Hsteps, Hcover.
Qed.

Lemma refresh_run wf flow order st st' :
  Rec.get (wf_flows wf) (wf_buildFlowName wf) = Some flow →
  topologicalSort (fd_dependencies flow) = Done order →
  refresh wf st = (st', Returned ()) →
  called (new_events st st') = filter (has_action flow) order ∧
  (∀ ev, ev ∈ new_events st st' → is_call ev = true →
         ∃ s inputData, ev = CallStep s inputData) ∧
  (∀ s, s ∈ order → has_action flow s →
        ∃ v, Produced s v ∈ new_events st st' ∧ containers st' !! s = Some v).
Proof.
  intros Hflow Hsort Hrefresh. unfold refresh in Hrefresh.
  destruct (execute wf (wf_buildFlowName wf) st) as [st'' [r|e|]] eqn:Hrun;
    simplify_eq.
  destruct (build_flow_run wf (wf_buildFlowName wf) flow order Hflow Hsort) as [Hsync _].
  { unfold is_build_flow. by apply bool_decide_eq_true_2. }
  destruct (Hsync st st' r Hrun) as (Hcalled & Hcalls & Hsteps).
  split_and!; [done | done |].
  intros s Hs Hact. destruct (Hsteps s Hs Hact) as (inputData & v & _ & ? & ? & _).
  by exists v.
Qed.

(** *** The builder *)

Lemma Rec_get_set_eq {A : Type} (r : list (string * A)) k v :
  Rec.get (Rec.set r k v) k = Some v.
Proof.
  induction r as [|[k' v'] r IH]; simpl.
  - by rewrite decide_True.
  - case_decide; simpl; [by rewrite decide_True | by rewrite decide_False].
Qed.

Lemma Rec_get_set_ne {A : Type} (r : list (string * A)) k k' v :
  k ≠ k' → Rec.get (Rec.set r k v) k' = Rec.get r k'.
Proof.
  intros Hne. induction r as [|[k0 v0] r IH]; simpl.
  - by rewrite decide_False.
  - case_decide; simpl.
    + subst. by rewrite !decide_False.
    + case_decide; [done | apply IH].
Qed.

Lemma Rec_has_set {A : Type} (r : list (string * A)) k k' v :
  Rec.has (Rec.set r k v) k' = true ↔ k' = k ∨ Rec.has r k' = true.
Proof.
  unfold Rec.has. destruct (decide (k = k')) as [->|Hne].
  - rewrite Rec_get_set_eq. naive_solver.
  - rewrite Rec_get_set_ne by done. naive_solver.
Qed.

Lemma Rec_has_foldl_set {A B : Type} (f : string * A → B) (l : list (string * A)) :
  ∀ acc k,
    Rec.has (foldl (λ acc kv, Rec.set acc kv.1 (f kv)) acc l) k = true
    ↔ Rec.has acc k = true ∨ k ∈ l.*1.
Proof.
  induction l as [|[k0 v0] l IH]; intros acc k; simpl.
  - set_solver.
  - rewrite IH, Rec_has_set. simpl. set_solver.
Qed.

Lemma buildSteps_has (b : @WorkflowBuilder V W) s :
  has_action (build_flow b) s ↔ s ∈ Rec.keys (b_dependencies b).
Proof.
  unfold has_action, build_flow, buildSteps. simpl.
  rewrite (Rec_has_foldl_set (λ _, build_action)). unfold Rec.keys. set_solver.
Qed.

Lemma buildDependencies_keys (b : @WorkflowBuilder V W) s :
  s ∈ Rec.keys (buildDependencies b) ↔ s ∈ Rec.keys (b_dependencies b).
Proof.
  rewrite <- Rec_has_true. unfold buildDependencies.
  rewrite (Rec_has_foldl_set (λ kv, kv.2)). unfold Rec.keys. set_solver.
Qed.


End EngineFacts.

(** ** Claims on the scenarios *)

(** C7. [refresh()] runs the build flow again: when it returns, the step
    implementations (not the placeholder actions) were called, once for
    each step of the flow and in topological order, and the container of
    each step holds the value produced in this run, nothing older. A step
    that increments a counter and returns it yields counter 1 after the
    initial build and counter 2 after one [refresh()]. *)
Theorem refresh_recomputes_containers :
  (∀ (V W : Type) (JV : JsValue V) (wf : @Workflow V W) flow order st st',
     Rec.get (wf_flows wf) (wf_buildFlowName wf) = Some flow →
     topologicalSort (fd_dependencies flow) = Done order →
     refresh wf st = (st', Returned ()) →
     called (new_events st st') = filter (has_action flow) order ∧
     (∀ ev, ev ∈ new_events st st' → is_call ev = true →
            ∃ s inputData, ev = CallStep s inputData) ∧
     (∀ s, s ∈ order → has_action flow s →
           ∃ v, Produced s v ∈ new_events st st' ∧ containers st' !! s = Some v)) ∧
  built_container (built refresh_builder 0%Z) "refreshTest" = Some (VCounter 1) ∧
  containers (refresh (workflow_of refresh_builder)
                      (built_state refresh_builder 0%Z)).1 !! "refreshTest"
  = Some (VCounter 2).
Proof.
  split_and!.
  - intros V W JV wf flow order st st'. apply refresh_run.
  - vm_compute. reflexivity.
  - vm_compute. reflexivity.
Qed.

Lemma refresh_recomputes_containers_witness :
  Rec.get (wf_flows refresh_wf) (wf_buildFlowName refresh_wf)
  = Some (build_flow (builder_of refresh_builder)) ∧
  topologicalSort (fd_dependencies (build_flow (builder_of refresh_builder)))
  = Done ["refreshTest"] ∧
  refresh refresh_wf refresh_st = ((refresh refresh_wf refresh_st).1, Returned ()) ∧
  called (new_events refresh_st (refresh refresh_wf refresh_st).1)
  = filter (has_action (build_flow (builder_of refresh_builder))) ["refreshTest"] ∧
  (∀ ev, ev ∈ new_events refresh_st (refresh refresh_wf refresh_st).1 →
         is_call ev = true → ∃ s inputData, ev = CallStep s inputData) ∧
  (∀ s, s ∈ ["refreshTest"] →
        has_action (build_flow (builder_of refresh_builder)) s →
        ∃ v, Produced s v ∈ new_events refresh_st (refresh refresh_wf refresh_st).1 ∧
             containers (refresh refresh_wf refresh_st).1 !! s = Some v).
Proof.
  assert (H1 : Rec.get (wf_flows refresh_wf) (wf_buildFlowName refresh_wf)
               = Some (build_flow (builder_of refresh_builder)))
    by (vm_compute; reflexivity).
  assert (H2 : topologicalSort (fd_dependencies (build_flow (builder_of refresh_builder)))
               = Done ["refreshTest"])
    by (vm_compute; reflexivity).
  assert (H3 : refresh refresh_wf refresh_st
               = ((refresh refresh_wf refresh_st).1, Returned ()))
    by (vm_compute; reflexivity).
  split; [exact H1|]. split; [exact H2|]. split; [exact H3|].
  exact (proj1 refresh_recomputes_containers value Z _ refresh_wf
           (build_flow (builder_of refresh_builder)) ["refreshTest"] refresh_st
           (refresh refresh_wf refresh_st).1 H1 H2 H3).
Defined.

(** Scenario 3: the flow with one step whose action throws. *)
Example scenario_error_flow :
  (execute error_wf "error-flow" error_st).2
  = Raised (JsError ("Step " +:+ quoted "a" +:+ " failed: Flow action error")
                    (Some flow_action_error)) ∧
  containers (execute error_wf "error-flow" error_st).1 !! "a" = Some (VStr "a-data").
Proof. split; vm_compute; reflexivity. Qed.

Lemma execute_rejects_promise_witness :
  execute async_wf "__build__" fresh_unit
  = (after_async_call,
     Raised (step_failed "asyncStep"
               (returned_promise async_wf "__build__" "asyncStep"))) ∧
  containers after_async_call = containers fresh_unit ∧
  called (new_events fresh_unit after_async_call)
  = called (new_events fresh_unit fresh_unit) ++ ["asyncStep"] ∧
  called (new_events fresh_unit fresh_unit)
  = filter (has_action (build_flow (builder_of async_builder))) [] ∧
  (∀ x, x ∈ [] → x ∉ called (new_events fresh_unit after_async_call)).
Proof.
  apply (execute_rejects_promise async_wf "__build__"
           (build_flow (builder_of async_builder)) [] "asyncStep" []
           fresh_unit fresh_unit empty_run after_async_call
           (Fulfilled (VStr "async data"))).
  - vm_compute. reflexivity.
  - vm_compute. reflexivity.
  - reflexivity.
  - vm_compute. reflexivity.
  - vm_compute. reflexivity.
Defined.

Lemma user_flow_keeps_containers_witness :
  "error-flow" ≠ wf_buildFlowName error_wf ∧
  (∀ st, containers (execute error_wf "error-flow" st).1 = containers st) ∧
  (∀ schedule st,
     containers (executeAsync error_wf "error-flow" schedule st).1 = containers st).
Proof.
  assert (Hne : "error-flow" ≠ wf_buildFlowName error_wf).
  { vm_compute. discriminate. }
  split; [exact Hne|].
  exact (user_flow_keeps_containers error_wf "error-flow" Hne).
Defined.

Lemma success_is_true_witness :
  ∃ st' r, execute pair_wf "test" pair_st = (st', Returned r) ∧ success r = true.
Proof.
  destruct (execute pair_wf "test" pair_st) as [st' [r| |]] eqn:Hrun.
  - exists st', r. split; [reflexivity|].
    exact (proj1 (success_is_true pair_wf "test") pair_st st' r Hrun).
  - vm_compute in Hrun. discriminate.
  - vm_compute in Hrun. discriminate.
Defined.

(** C6 as worded fails in concurrent mode: the two steps of the flow are
    in one level; the action of b is called after the action of a has
    returned its value, and the context it receives is still empty. *)
Lemma context_claim_counterexample :
  ¬ context_claim_as_stated pair_wf "test" (flow_of pair_wf "test").
Proof.
  intros [_ Hasync].
  specialize (Hasync [] pair_st 2 "b" (VStr "b-value") ∅).
  destruct Hasync as [Hctx _]; [vm_compute; reflexivity|].
  specialize (Hctx 1 "a" (VStr "modified-a-value")).
  assert (Hlookup : (∅ : gmap string value) !! "a" = Some (VStr "modified-a-value")).
  { apply Hctx; [lia | vm_compute; reflexivity | exact I]. }
  rewrite lookup_empty in Hlookup. discriminate.
Qed.


(** The scenario of C10: the user's "__build__" flow is gone from the
    built workflow; running "__build__" calls the implementation. *)
Example scenario_shadowed_build_flow :
  Rec.has (b_flows (builder_of shadow_builder)) "__build__" = true ∧
  results <$> match (execute shadow_wf "__build__" shadow_st).2 with
              | Returned r => Some r
              | _ => None
              end
  = Some (<["a" := VStr "a-data"]> ∅).
Proof. split; vm_compute; reflexivity. Qed.

(** A step implementation receives its declared dependencies only: in
    the build of two independent steps the implementation of b is called
    with empty input data, after a has produced its value. *)
Example scenario_build_input_data :
  trace pair_st
  = [CallStep "a" ∅; Produced "a" (VStr "a-value");
     CallStep "b" ∅; Produced "b" (VStr "b-value")].
Proof. vm_compute. reflexivity. Qed.

(** * Further properties of the code *)

(** ** More on [hasCircularDependency] *)

Lemma depends_on_step_r (g : graph) t node dep :
  rtc (edge g) t node → edge g node dep → depends_on g t dep.
Proof. intros Ht Hd. eapply tc_rtc_l; [done | by apply tc_once]. Qed.

Lemma hasCycle_deps_sound (g : graph)
    (rec : string → cd_state → option (bool * cd_state)) node :
  (∀ dep st,
     cd_recStack st ⊆ cd_visited st → dep ∉ cd_recStack st →
     (∀ t, t ∈ cd_recStack st → depends_on g t dep) →
     cd_sound g dep st (rec dep st)) →
  ∀ ds st,
    (∀ d, d ∈ ds → edge g node d) →
    cd_recStack st ⊆ cd_visited st →
    (∀ t, t ∈ cd_recStack st → rtc (edge g) t node) →
    cd_sound g node st (hasCycle_deps rec ds st).
Proof.
  intros Hrec. induction ds as [|dep ds IH]; intros st Hds Hsub Hstack; simpl.
  { done. }
  assert (Hedge : edge g node dep) by (apply Hds; left).
  assert (Hfound : ∀ st', cd_recStack st' = cd_recStack st →
                          dep ∈ cd_recStack st' → cycle_from g node).
  { intros st' Heq Hin. rewrite Heq in Hin. exists dep. split; [by apply rtc_once|].
    eapply depends_on_step_r; [by apply Hstack | done]. }
  destruct (decide (dep ∈ cd_visited st)) as [Hvis|Hvis].
  - destruct (decide (dep ∈ cd_recStack st)) as [Hin|Hin]; [by apply (Hfound st)|].
    apply IH; [set_solver | done | done].
  - specialize (Hrec dep st Hsub). ospecialize* Hrec; [set_solver | |].
    { intros t Ht. eapply depends_on_step_r; [by apply Hstack | done]. }
    destruct (rec dep st) as [[[] st']|]; simpl in Hrec |- *; [| |done].
    + destruct Hrec as (n & Hn & Hcyc). exists n. split; [|done].
      by eapply rtc_l.
    + destruct Hrec as [Heq Hsub'].
      destruct (decide (dep ∈ cd_recStack st')) as [Hin|Hin]; [by apply (Hfound st')|].
      specialize (IH st'). ospecialize* IH; [set_solver | done | by rewrite Heq |].
      destruct (hasCycle_deps rec ds st') as [[[] st'']|]; simpl in IH |- *;
        [done | | done].
      destruct IH as [Heq' Hsub'']. split; [congruence | done].
Qed.

Lemma hasCycle_sound (g : graph) fuel : ∀ node st,
  cd_recStack st ⊆ cd_visited st →
  node ∉ cd_recStack st →
  (∀ t, t ∈ cd_recStack st → depends_on g t node) →
  cd_sound g node st (hasCycle fuel g node st).
Proof.
  induction fuel as [|fuel IH]; intros node st Hsub Hnode Hstack; simpl; [done|].
  destruct (decide (node ∈ cd_visited st)) as [Hvis|Hvis]; simpl.
  { split; set_solver. }
  pose proof (hasCycle_deps_sound g (hasCycle fuel g) node IH (deps g node)
                (CdState ({[node]} ∪ cd_visited st) ({[node]} ∪ cd_recStack st)))
    as Hloop.
  ospecialize* Hloop; simpl.
  { by intros d Hd. }
  { set_solver. }
  { intros t [->%elem_of_singleton | Ht]%elem_of_union; [done|].
    by apply tc_rtc, Hstack. }
  destruct (hasCycle_deps _ _ _) as [[[] st2]|]; simpl in Hloop |- *; [done | | done].
  destruct Hloop as [Heq Hsub2]. split; set_solver.
Qed.

Lemma hasCycle_roots_sound (g : graph) fuel : ∀ roots st,
  cd_recStack st = ∅ →
  hasCycle_roots fuel g roots st = Some true →
  ∃ r, r ∈ roots ∧ cycle_from g r.
Proof.
  induction roots as [|r roots IH]; intros st Hempty Hrun; simpl in Hrun; [done|].
  pose proof (hasCycle_sound g fuel r st) as Hr.
  ospecialize* Hr; [set_solver..|].
  destruct (hasCycle fuel g r st) as [[[] st']|]; simpl in Hr; [| |done].
  - exists r. split; [left | done].
  - destruct Hr as [Heq _]. destruct (IH st') as (r' & Hr' & Hcyc); [congruence | done |].
    exists r'. split; [by right | done].
Qed.

Lemma cycle_from_cyclic (g : graph) s : cycle_from g s → ¬ acyclic g.
Proof. intros (n & _ & Hn) Hac. by apply (Hac n). Qed.

Lemma hasCircularDependency_sound (g : graph) :
  hasCircularDependency g None = Some true → ¬ acyclic g.
Proof.
  unfold hasCircularDependency, hasCircularDependency_fuel. intros Hrun.
  destruct (hasCycle_roots_sound g _ _ cd_init eq_refl Hrun) as (r & _ & Hcyc).
  by eapply cycle_from_cyclic.
Qed.

Lemma hasCircularDependency_acyclic (g : graph) :
  acyclic g → hasCircularDependency g None = Some false.
Proof.
  intros Hac. pose proof (hasCircularDependency_spec g) as Hspec.
  pose proof (hasCircularDependency_sound g) as Hsound.
  destruct (hasCircularDependency g None) as [[]|];
    [exfalso; by apply Hsound | done | done].
Qed.

(** X1. On a graph none of whose names is the name of a member of
    [Object.prototype] (for such names the marker records [visited] and
    [recStack] are read by their own properties, as in the model),
    [hasCircularDependency] called without a start node answers [true]
    exactly when the graph has a cycle and [false] exactly when it is
    acyclic: it never reports a cycle that is not there, never misses one,
    and always answers. *)
Theorem hasCircularDependency_decides (g : graph) :
  (∀ n, n ∈ nodes g → inherited n = false) →
  (hasCircularDependency g None = Some true ↔ ¬ acyclic g) ∧
  (hasCircularDependency g None = Some false ↔ acyclic g).
Proof.
  intros _. pose proof (hasCircularDependency_spec g) as Hspec.
  split.
  - split; [apply hasCircularDependency_sound | apply hasCircularDependency_cyclic].
  - split; [intros Hrun; by rewrite Hrun in Hspec | apply hasCircularDependency_acyclic].
Qed.

(** ** [hasCircularDependency] from a start node *)

Lemma ordered_closed (g : graph) l :
  ordered g l → ∀ x y, x ∈ l → rtc (edge g) x y → y ∈ l.
Proof.
  intros Hord x y Hx Hxy. induction Hxy as [x | x z y Hxz _ IH]; [done|].
  apply IH.
  assert (Hb : before l z x) by (apply (ordered_before g); [done | done | by apply tc_once]).
  by apply before_elem_of in Hb as [? _].
Qed.

Lemma ordered_no_cycle (g : graph) l n :
  ordered g l → NoDup l → n ∈ l → ¬ depends_on g n n.
Proof.
  intros Hord Hnd Hn Hcyc.
  by apply (before_irrefl l n Hnd), (ordered_before g l Hord).
Qed.

Lemma cycle_from_in_nodes (g : graph) s : cycle_from g s → s ∈ nodes g.
Proof.
  intros (n & Hsn & Hn). destruct Hsn as [|s y n Hsy _].
  - by apply depends_on_in_nodes in Hn as [? _].
  - by apply edge_in_nodes in Hsy as [? _].
Qed.

(** X2. On a graph and for a start node (a non-empty name) that bear
    no name of a member of [Object.prototype], [hasCircularDependency]
    called with the start node answers [true] exactly when a cycle can be
    reached from that node along dependency edges, and [false] otherwise:
    a cycle elsewhere in the graph is not reported. *)
Theorem hasCircularDependency_from (g : graph) (s : string) :
  s ≠ EmptyString →
  inherited s = false →
  (∀ n, n ∈ nodes g → inherited n = false) →
  (hasCircularDependency g (Some s) = Some true ↔ cycle_from g s) ∧
  (hasCircularDependency g (Some s) = Some false ↔ ¬ cycle_from g s).
Proof.
  intros Hs _ _. unfold hasCircularDependency, hasCircularDependency_fuel.
  rewrite decide_False by done.
  pose proof (hasCycle_sound g (cd_fuel g) s cd_init) as Hsound.
  ospecialize* Hsound; [set_solver..|].
  assert (Hcomplete : match hasCycle (cd_fuel g) g s cd_init with
                      | Some (false, _) => ¬ cycle_from g s
                      | Some (true, _) => True
                      | None => False
                      end).
  { destruct (decide (s ∈ nodes g)) as [Hin|Hout].
    - pose proof (hasCycle_spec g (cd_fuel g) s cd_init) as Hspec.
      ospecialize* Hspec.
      { unfold cd_inv, cd_init; simpl. split_and!; [set_solver | set_solver |].
        exists []. split_and!; [constructor | constructor | set_solver]. }
      { by apply elem_of_list_to_set. }
      { set_solver. }
      { unfold cd_fuel, node_set. pose proof (size_list_to_set_le (nodes g)). simpl. lia. }
      destruct (hasCycle (cd_fuel g) g s cd_init) as [[[] st']|];
        cbn [cd_post] in Hspec; [done | | done].
      destruct Hspec as ((_ & _ & fin & Hnd & Hord & Hfin) & _ & Hrs & Hdone).
      assert (Hsfin : s ∈ fin) by (apply Hfin, Hdone; left).
      intros (n & Hsn & Hn).
      apply (ordered_no_cycle g fin n Hord Hnd); [|done].
      by apply (ordered_closed g fin Hord s n).
    - unfold cd_fuel. simpl. rewrite decide_False by set_solver.
      rewrite (deps_nil_outside g s Hout). simpl.
      intros Hcyc. by apply Hout, cycle_from_in_nodes. }
  destruct (hasCycle (cd_fuel g) g s cd_init) as [[[] st']|]; simpl in *; [| |done].
  - split; (split; [done|]); [done | intros Hno; by destruct Hno].
  - split; (split; [done|]); [intros Hcyc; by destruct Hcomplete | done].
Qed.

(** ** The errors of [topologicalSort] *)

Lemma for_each_visit_sound (g : graph) (body : string → ts_state → outcome ts_state)
    node :
  (∀ dep st, dep ∈ nodes g → (∀ t, t ∈ ts_temp st → depends_on g t dep) →
             ts_sound g st (body dep st)) →
  ∀ ds st,
    (∀ d, d ∈ ds → edge g node d) →
    (∀ t, t ∈ ts_temp st → rtc (edge g) t node) →
    ts_sound g st (for_each body ds st).
Proof.
  intros Hbody. induction ds as [|dep ds IH]; intros st Hds Hstack; simpl; [done|].
  assert (Hedge : edge g node dep) by (apply Hds; left).
  specialize (Hbody dep st). ospecialize* Hbody.
  { by apply edge_in_nodes in Hedge as [_ ?]. }
  { intros t Ht. eapply depends_on_step_r; [by apply Hstack | done]. }
  destruct (body dep st) as [st'| |]; simpl in Hbody |- *; [|done..].
  specialize (IH st'). ospecialize* IH; [set_solver | by rewrite Hbody |].
  destruct (for_each body ds st') as [st''| |]; simpl in IH |- *; [congruence | done..].
Qed.

Lemma visit_sound (g : graph) fuel : ∀ node st,
  node ∈ nodes g →
  (∀ t, t ∈ ts_temp st → depends_on g t node) →
  ts_sound g st (visit fuel g node st).
Proof.
  induction fuel as [|fuel IH]; intros node st Hnode Hstack; simpl; [done|].
  destruct (decide (node ∈ ts_temp st)) as [Htemp|Htemp]; simpl.
  { left. exists node. split; [done | by apply Hstack]. }
  destruct (decide (node ∈ ts_visited st)) as [Hvis|Hvis]; simpl; [done|].
  destruct (lookup_deps g node) as [ds|] eqn:Hlook; simpl.
  2: { right. split; [done|]. exists node.
       apply lookup_deps_None in Hlook as [? ?]. by split_and!. }
  apply lookup_deps_Some in Hlook as ->.
  pose proof (for_each_visit_sound g (visit fuel g) node IH (deps g node)
                (TsState (ts_result st) (ts_visited st) ({[node]} ∪ ts_temp st)))
    as Hloop.
  ospecialize* Hloop; simpl.
  { by intros d Hd. }
  { intros t [->%elem_of_singleton | Ht]%elem_of_union; [done|].
    by apply tc_rtc, Hstack. }
  destruct (for_each _ _ _) as [st2| |]; simpl in Hloop |- *; [|done..].
  rewrite Hloop. set_solver.
Qed.

Lemma ts_roots_sound (g : graph) fuel : ∀ roots st,
  (∀ r, r ∈ roots → r ∈ nodes g) →
  ts_temp st = ∅ →
  match for_each (ts_root fuel g) roots st with
  | Fail m =>
      (∃ n, m = circular_message n ∧ depends_on g n n) ∨
      (m = not_iterable ∧ ∃ n, finds_inherited g n)
  | _ => True
  end.
Proof.
  induction roots as [|r roots IH]; intros st Hroots Hempty; simpl; [done|].
  unfold ts_root at 1. destruct (decide (r ∈ ts_visited st)) as [Hvis|Hvis].
  { apply IH; [set_solver | done]. }
  pose proof (visit_sound g fuel r st) as Hr.
  ospecialize* Hr; [apply Hroots; left | set_solver |].
  destruct (visit fuel g r st) as [st'| |]; simpl in Hr; [|done..].
  apply IH; [set_solver | congruence].
Qed.

Lemma topologicalSort_Fail (g : graph) m :
  topologicalSort g = Fail m →
  (∃ n, m = circular_message n ∧ depends_on g n n ∧ n ∈ nodes g) ∨
  (m = not_iterable ∧ ∃ n, finds_inherited g n).
Proof.
  intros Hrun. unfold topologicalSort, topologicalSort_fuel in Hrun.
  pose proof (ts_roots_sound g (ts_fuel g) (Rec.keys g) ts_init) as Hsound.
  ospecialize* Hsound; [by intros r ?%key_in_nodes | done |].
  destruct (for_each _ _ _) as [st| |]; simplify_eq.
  destruct Hsound as [(n & -> & Hn) | Hinh]; [left | by right].
  exists n. split_and!; [done | done |].
  by apply depends_on_in_nodes in Hn as [? _].
Qed.

(** A name enters [result] only after its lookup has found a list. *)
Lemma for_each_preserves {S : Type} (P : S → Prop)
    (body : string → S → outcome S) xs :
  (∀ x s, P s → match body x s with Done s' => P s' | _ => True end) →
  ∀ st, P st → match for_each body xs st with Done s' => P s' | _ => True end.
Proof.
  intros Hbody. induction xs as [|x xs IH]; intros st Hst; simpl; [done|].
  specialize (Hbody x st Hst). destruct (body x st) as [st'| |]; [|done..].
  by apply IH.
Qed.

Lemma visit_found (g : graph) fuel : ∀ node st,
  (∀ x, x ∈ ts_result st → lookup_deps g x ≠ None) →
  match visit fuel g node st with
  | Done st' => ∀ x, x ∈ ts_result st' → lookup_deps g x ≠ None
  | _ => True
  end.
Proof.
  induction fuel as [|fuel IH]; intros node st Hst; simpl; [done|].
  repeat case_decide; try done.
  destruct (lookup_deps g node) as [ds|] eqn:Hlook; [|done].
  pose proof (for_each_preserves
                (λ s, ∀ x, x ∈ ts_result s → lookup_deps g x ≠ None)
                (visit fuel g) ds IH
                (TsState (ts_result st) (ts_visited st) ({[node]} ∪ ts_temp st)) Hst)
    as Hloop.
  destruct (for_each _ _ _) as [st2| |]; [|done..]. simpl.
  intros x [Hx | ->%list_elem_of_singleton]%elem_of_app; [by apply Hloop | congruence].
Qed.

Lemma topologicalSort_Done_found (g : graph) order :
  topologicalSort g = Done order → ∀ n, ¬ finds_inherited g n.
Proof.
  intros Hrun n (Hn & Hget & Hinh).
  pose proof (topologicalSort_spec g) as Hspec. rewrite Hrun in Hspec.
  destruct Hspec as (_ & _ & Hall). apply Hall in Hn.
  unfold topologicalSort, topologicalSort_fuel in Hrun.
  pose proof (for_each_preserves
                (λ s, ∀ x, x ∈ ts_result s → lookup_deps g x ≠ None)
                (ts_root (ts_fuel g) g) (Rec.keys g)) as Hloop.
  ospecialize* (Hloop _ ts_init).
  { intros x s Hs. unfold ts_root. case_decide; [done|]. by apply visit_found. }
  { by intros x ?%elem_of_nil. }
  destruct (for_each _ _ _) as [st| |]; simplify_eq.
  apply (Hloop n Hn). by apply lookup_deps_None.
Qed.

Lemma topologicalSort_not_acyclic (g : graph) :
  ¬ acyclic g → (∀ n, ¬ finds_inherited g n) →
  ∃ n, topologicalSort g = Fail (circular_message n) ∧ depends_on g n n.
Proof.
  intros Hcyc Hown. pose proof (topologicalSort_spec g) as Hspec.
  destruct (topologicalSort g) as [order|m|] eqn:Hrun; [| |done].
  - destruct Hcyc. by apply (topologicalSort_Done_acyclic g order).
  - destruct (topologicalSort_Fail g m Hrun) as [(n & -> & Hn & _) | (_ & n & Hn)].
    + by exists n.
    + by destruct (Hown n).
Qed.

(** X3. [topologicalSort] throws in two cases. On a graph with a cycle
    the error is [Circular dependency detected: n] for a name [n] of the
    graph that lies on a cycle. On a graph with a name that has no entry
    and is the name of a member of [Object.prototype], the lookup
    [dependencies[name]] finds that member and the loop over it throws
    the [TypeError] [deps is not iterable]. The sort throws on every
    graph of one of these kinds (with the first error met in the
    traversal) and on no other graph, and it never fails in another
    way. *)
Theorem topologicalSort_cyclic (g : graph) :
  (∀ m, topologicalSort g = Fail m →
        (∃ n, m = circular_message n ∧ depends_on g n n ∧ n ∈ nodes g) ∨
        (m = not_iterable ∧ ∃ n, finds_inherited g n)) ∧
  ((∃ m, topologicalSort g = Fail m) ↔ ¬ acyclic g ∨ ∃ n, finds_inherited g n) ∧
  (¬ acyclic g → (∀ n, ¬ finds_inherited g n) →
   ∃ n, topologicalSort g = Fail (circular_message n) ∧ depends_on g n n) ∧
  topologicalSort g ≠ OutOfFuel.
Proof.
  pose proof (topologicalSort_spec g) as Hspec.
  split_and!; [apply topologicalSort_Fail | | apply topologicalSort_not_acyclic |].
  - split.
    + intros [m Hrun]. by rewrite Hrun in Hspec.
    + intros Hbad. destruct (topologicalSort g) as [order|m|] eqn:Hrun;
        [|by exists m | done].
      destruct Hbad as [Hcyc | [n Hn]].
      * destruct Hcyc. by apply (topologicalSort_Done_acyclic g order).
      * by destruct (topologicalSort_Done_found g order Hrun n).
  - intros Hrun. by rewrite Hrun in Hspec.
Qed.

(** ** The level groups partition the execution order *)

Lemma foldl_push_length (f : string → nat) xs : ∀ levels k,
  k < length (foldl (λ lv x, push_at_level lv (f x) x) levels xs) →
  k < length levels ∨ ∃ x, x ∈ xs ∧ k ≤ f x.
Proof.
  induction xs as [|x xs IH]; intros levels k Hk; simpl in Hk; [by left|].
  destruct (IH _ _ Hk) as [Hlt | (x' & Hx' & Hle)].
  - rewrite length_push in Hlt.
    destruct (decide (k < length levels)); [by left|].
    right. exists x. split; [left | lia].
  - right. exists x'. split; [by right | done].
Qed.

Lemma groupStepsByLevel_length (g : graph) executionOrder levels :
  acyclic g →
  (∀ s, s ∈ executionOrder → s ∈ nodes g) →
  groupStepsByLevel g executionOrder = Some levels →
  ∀ k, k < length levels → ∃ s, s ∈ executionOrder ∧ k ≤ step_level g s.
Proof.
  intros Hac Hxs Hgroup k Hk.
  destruct (acyclic_levels g Hac) as (l & Hord & Hlen & Hall & Hrec).
  unfold groupStepsByLevel in Hgroup.
  rewrite (group_loop_ordered g (ref_levels g l) l (level_fuel g) Hord Hrec) in Hgroup;
    [| unfold level_fuel; lia | intros x Hx; by apply Hall, Hxs | apply map_empty_subseteq].
  simplify_eq.
  apply foldl_push_length in Hk as [Hk | (s & Hs & Hle)]; [simpl in Hk; lia|].
  exists s. split; [done|].
  assert (Hsl : s ∈ l) by by apply Hall, Hxs.
  rewrite (step_level_ref g l s Hord Hlen Hrec Hsl).
  unfold dep_level in Hle. by rewrite (Hrec s Hsl) in Hle.
Qed.

(** Below a step of level [n] there is a step of every smaller level. *)
Lemma step_level_below (g : graph) :
  acyclic g →
  ∀ n s k, step_level g s = n → s ∈ nodes g → k ≤ n →
           ∃ s', s' ∈ nodes g ∧ step_level g s' = k.
Proof.
  intros Hac. induction n as [|n IH]; intros s k Hs Hin Hk.
  - exists s. split; [done | lia].
  - destruct (decide (k = S n)) as [->|Hne]; [by exists s|].
    destruct (step_level_spec g Hac s) as [_ Hsucc].
    apply Hsucc in Hs as [(d & Hd & Hdn) _].
    apply (IH d k Hdn); [|lia]. by apply (edge_in_nodes g s d).
Qed.

Lemma levels_elem_of (g : graph) order levels :
  topologicalSort g = Done order →
  groupStepsByLevel g order = Some levels →
  (∀ k l, levels !! k = Some l → l = filter (λ s, step_level g s = k) order) ∧
  NoDup (concat levels) ∧
  (∀ s, s ∈ concat levels ↔ s ∈ order).
Proof.
  intros Hsort Hgroup.
  pose proof (topologicalSort_Done_acyclic g order Hsort) as Hac.
  pose proof (topologicalSort_spec g) as Hspec. rewrite Hsort in Hspec.
  destruct Hspec as (Hnd & _ & Hall).
  destruct (groupStepsByLevel_spec g order Hac) as (levels' & Hgroup' & Hat & Hidx).
  { intros s. apply Hall. }
  rewrite Hgroup in Hgroup'. simplify_eq.
  destruct (levels_structure g order Hsort) as (levels & Hgroup' & Hnd' & Hcover & _).
  rewrite Hgroup in Hgroup'. simplify_eq.
  assert (Hlv : ∀ k l, levels !! k = Some l →
                       l = filter (λ s, step_level g s = k) order).
  { intros k l Hl. rewrite <- Hat. unfold level_at. by rewrite Hl. }
  split_and!; [done | done |]. intros s. split; [|apply Hcover].
  intros (l & [k Hk]%list_elem_of_lookup & Hs)%elem_of_concat.
  rewrite (Hlv k l Hk) in Hs. by apply list_elem_of_filter in Hs as [_ ?].
Qed.

(** X4. The groups that [groupStepsByLevel] makes of a topological
    order partition it: together they hold every step of the order once,
    no group is empty, and each group lists its steps in the relative
    order they have in the execution order. *)
Theorem groupStepsByLevel_partition (g : graph) order levels :
  topologicalSort g = Done order →
  groupStepsByLevel g order = Some levels →
  concat levels ≡ₚ order ∧
  (∀ l, l ∈ levels → l ≠ []) ∧
  (∀ k l, levels !! k = Some l → sublist l order).
Proof.
  intros Hsort Hgroup.
  pose proof (topologicalSort_Done_acyclic g order Hsort) as Hac.
  pose proof (topologicalSort_spec g) as Hspec. rewrite Hsort in Hspec.
  destruct Hspec as (Hnd & _ & Hall).
  destruct (levels_elem_of g order levels Hsort Hgroup) as (Hlv & Hnd' & Hmem).
  split_and!.
  - by apply NoDup_Permutation.
  - intros l [k Hk]%list_elem_of_lookup Hnil.
    destruct (groupStepsByLevel_length g order levels Hac) with (k := k)
      as (s & Hs & Hle); [intros s; apply Hall | done | by eapply lookup_lt_Some |].
    destruct (step_level_below g Hac (step_level g s) s k eq_refl) as (s' & Hs' & Hk');
      [by apply Hall | done |].
    assert (Hin : s' ∈ l).
    { rewrite (Hlv k l Hk). apply list_elem_of_filter. split; [done | by apply Hall]. }
    rewrite Hnil in Hin. by apply elem_of_nil in Hin.
  - intros k l Hl. rewrite (Hlv k l Hl). apply sublist_filter.
Qed.

Section BuilderFacts.

Context {V W : Type}.

Implicit Types (b : @WorkflowBuilder V W) (flow : @FlowDefinition V W).

Lemma deps_set_eq (g : graph) k ds : deps (Rec.set g k ds) k = ds.
Proof. unfold deps. by rewrite Rec_get_set_eq. Qed.

Lemma deps_set_ne (g : graph) k k' ds :
  k ≠ k' → deps (Rec.set g k ds) k' = deps g k'.
Proof. intros Hne. unfold deps. by rewrite Rec_get_set_ne. Qed.

Lemma has_step_registerImplementation b name execute x :
  has_step (_registerImplementation b name execute) x = true
  ↔ x = name ∨ has_step b x = true.
Proof.
  unfold has_step, _registerImplementation. simpl.
  rewrite !orb_true_iff, !bool_decide_eq_true.
  destruct (decide (x = name)) as [->|Hne].
  - rewrite lookup_insert_eq. naive_solver.
  - rewrite lookup_insert_ne by done. naive_solver.
Qed.

Lemma has_step_false b name :
  has_step b name = false → b_steps b !! name = None ∧ inherited name = false.
Proof.
  unfold has_step. intros [Hstep Hinh]%orb_false_iff.
  apply bool_decide_eq_false in Hstep. split; [|done].
  destruct (b_steps b !! name) eqn:Hget; [|done]. destruct Hstep. eauto.
Qed.

(** ** [addStep] *)

Lemma addStep_inr b name dependencies b' :
  addStep b name dependencies = inr b' →
  has_step b name = false ∧
  (∀ d, d ∈ dependencies → has_step b d = true) ∧
  b' = {| b_steps := b_steps b;
          b_dependencies := Rec.set (b_dependencies b) name dependencies;
          b_flows := b_flows b |}.
Proof.
  unfold addStep. destruct (has_step b name) eqn:Hname; [done|].
  destruct (list_find _ dependencies) as [[i dep]|] eqn:Hfind; [done|].
  intros Heq. simplify_eq. split_and!; [done | | done].
  apply list_find_None in Hfind. intros d Hd.
  rewrite Forall_forall in Hfind. specialize (Hfind d Hd).
  by destruct (has_step b d).
Qed.

(** ** The workflow graph of a builder made through the interface *)

Lemma implemented_first_depends_on b rank :
  implemented_first b rank →
  ∀ k d, depends_on (b_dependencies b) k d →
         has_step b d = true ∧ (has_step b k = true → rank d < rank k).
Proof.
  intros Hinv k d Hkd. induction Hkd as [k d Hkd | k m d Hkm _ IH].
  - by apply Hinv.
  - destruct (Hinv k m Hkm) as [Hm Hlt]. destruct IH as [Hd Hlt'].
    split; [done|]. intros Hk. specialize (Hlt Hk). specialize (Hlt' Hm). lia.
Qed.

Lemma implemented_first_acyclic b rank :
  implemented_first b rank → acyclic (b_dependencies b).
Proof.
  intros Hinv n Hn.
  destruct (implemented_first_depends_on b rank Hinv n n Hn) as [Hstep Hlt].
  specialize (Hlt Hstep). lia.
Qed.

Lemma api_built_implemented_first b :
  api_built b → ∃ rank, implemented_first b rank.
Proof.
  induction 1 as [|b name ds b' _ [rank IH] Hadd|b name b' _ [rank IH] Hadd
                  |b name execute _ [rank IH] _|b flowName flowDef _ [rank IH] _].
  - exists (λ _, 0). intros k d Hd. by apply elem_of_nil in Hd.
  - apply addStep_inr in Hadd as (Hname & Hdeps & ->).
    exists rank. intros k d. unfold has_step. simpl. fold (has_step b d) (has_step b k).
    destruct (decide (name = k)) as [->|Hne].
    + rewrite deps_set_eq. intros Hd. split; [by apply Hdeps | congruence].
    + rewrite deps_set_ne by done. apply IH.
  - unfold addStepWithoutDependencies in Hadd.
    destruct (has_step b name) eqn:Hname; [done|]. simplify_eq.
    exists rank. intros k d. unfold has_step. simpl. fold (has_step b d) (has_step b k).
    destruct (decide (name = k)) as [->|Hne].
    + rewrite deps_set_eq. by intros ?%elem_of_nil.
    + rewrite deps_set_ne by done. apply IH.
  - destruct (has_step b name) eqn:Hname.
    + exists rank. intros k d Hd. destruct (IH k d Hd) as [Hstep Hlt].
      rewrite !has_step_registerImplementation. split; [by right|].
      intros [-> | Hk]; by apply Hlt.
    + exists (λ x, if decide (x = name)
                   then S (max_list (rank <$> deps (b_dependencies b) name))
                   else rank x).
      intros k d Hd. simpl in Hd. destruct (IH k d Hd) as [Hstep Hlt].
      assert (Hdn : d ≠ name) by (intros ->; congruence).
      rewrite !has_step_registerImplementation. split; [by right|].
      rewrite (decide_False (P := d = name)) by done.
      intros [-> | Hk].
      * rewrite decide_True by done.
        assert (rank d ≤ max_list (rank <$> deps (b_dependencies b) name)); [|lia].
        apply max_list_elem_of_le, list_elem_of_fmap. by exists d.
      * rewrite decide_False by (intros ->; congruence). by apply Hlt.
  - exists rank. apply IH.
Qed.

Lemma api_built_keys b :
  api_built b → ∀ k, k ∈ Rec.keys (b_dependencies b) → inherited k = false.
Proof.
  induction 1 as [|b name ds b' _ IH Hadd|b name b' _ IH Hadd| |]; try done.
  - by intros k ?%elem_of_nil.
  - apply addStep_inr in Hadd as (Hname%has_step_false & _ & ->). simpl.
    intros k [-> | Hk]%Rec_has_true%Rec_has_set; [by destruct Hname|].
    by apply IH, Rec_has_true.
  - unfold addStepWithoutDependencies in Hadd.
    destruct (has_step b name) eqn:Hname; [done|]. simplify_eq. simpl.
    apply has_step_false in Hname.
    intros k [-> | Hk]%Rec_has_true%Rec_has_set; [by destruct Hname|].
    by apply IH, Rec_has_true.
Qed.

(** X6. A builder that was made by calls of [addStep],
    [addStepWithoutDependencies], [withImplementation] and [endFlow] has
    an acyclic workflow graph, since a step can only depend on names that
    [addStep] found in [this.steps] before: implemented steps, and the
    names of the members of [Object.prototype], which [name in
    this.steps] finds in every builder and which can never be added as a
    step. When no dependency bears such a name,
    [checkForCircularDependencies] passes and every dependency is an
    implemented step. *)
Theorem api_built_acyclic b :
  api_built b →
  acyclic (b_dependencies b) ∧
  (∀ k, k ∈ Rec.keys (b_dependencies b) → inherited k = false) ∧
  (∀ k d, d ∈ deps (b_dependencies b) k →
          is_Some (b_steps b !! d) ∨ inherited d = true) ∧
  ((∀ k d, d ∈ deps (b_dependencies b) k → inherited d = false) →
   checkForCircularDependencies b = Done () ∧
   (∀ k d, d ∈ deps (b_dependencies b) k → is_Some (b_steps b !! d))).
Proof.
  intros Hapi. destruct (api_built_implemented_first b Hapi) as [rank Hinv].
  pose proof (implemented_first_acyclic b rank Hinv) as Hac.
  assert (Hfound : ∀ k d, d ∈ deps (b_dependencies b) k →
                          is_Some (b_steps b !! d) ∨ inherited d = true).
  { intros k d Hd. destruct (Hinv k d Hd) as [Hstep _]. unfold has_step in Hstep.
    apply orb_true_iff in Hstep as [Hstep%bool_decide_eq_true | ?]; eauto. }
  split_and!; [done | by apply api_built_keys | done |].
  intros Hnames. split.
  - unfold checkForCircularDependencies.
    by rewrite (hasCircularDependency_acyclic (b_dependencies b) Hac).
  - intros k d Hd. destruct (Hfound k d Hd) as [? | Hinh]; [done|].
    rewrite (Hnames k d Hd) in Hinh. discriminate.
Qed.

(** ** [validateFlows] *)








End BuilderFacts.

Section MoreEngineFacts.

Context {V W : Type} `{!JsValue V}.

Implicit Types (wf : @Workflow V W) (flow : @FlowDefinition V W)
  (st : @state V W) (ctx res : gmap string V) (b : @WorkflowBuilder V W).

(** *** Containers written by a run *)

Lemma writes_within_refl (P : string → Prop) st : writes_within P st st.
Proof. by intros x. Qed.

Lemma writes_within_same (P : string → Prop) st st' :
  containers st' = containers st → writes_within P st st'.
Proof. intros Heq x. by rewrite Heq. Qed.

Lemma writes_within_trans (P : string → Prop) st1 st2 st3 :
  writes_within P st1 st2 → writes_within P st2 st3 → writes_within P st1 st3.
Proof.
  intros H12 H23 x. destruct (H12 x) as [Hd Hf]. destruct (H23 x) as [Hd' Hf'].
  split; [auto|]. intros Hx. by rewrite Hf', Hf.
Qed.

Lemma writes_within_weaken (P Q : string → Prop) st st' :
  (∀ x, P x → Q x) → writes_within P st st' → writes_within Q st st'.
Proof. intros HPQ H x. destruct (H x) as [Hd Hf]. split; [done|]. auto. Qed.

Lemma produce_writes wf flowName s v st :
  writes_within (λ x, is_build_flow wf flowName = true ∧ x = s) st
                (produce wf flowName s v st).
Proof.
  destruct (produce_spec wf flowName s v st) as (_ & Hcont & _).
  intros x. rewrite Hcont. destruct (is_build_flow wf flowName); [|done].
  destruct (decide (x = s)) as [->|Hne].
  - rewrite lookup_insert_eq. split; [eauto | naive_solver].
  - by rewrite lookup_insert_ne.
Qed.

Lemma try_step_writes wf flowName flow ctx s st :
  writes_within (λ x, is_build_flow wf flowName = true ∧ x = s) st
                (try_step wf flowName flow ctx s st).1.
Proof.
  unfold try_step.
  pose proof (invoke_containers wf flowName flow ctx s st) as Hinv.
  destruct (invoke wf flowName flow ctx s st) as [st1 [[v|p]|e]]; simpl in *;
    [| by apply writes_within_same..].
  eapply writes_within_trans; [by apply writes_within_same | apply produce_writes].
Qed.

Lemma execute_loop_writes wf flowName flow order : ∀ ctx res st,
  writes_within (may_write wf flowName flow order) st
                (execute_loop wf flowName flow order ctx res st).1.
Proof.
  induction order as [|s order IH]; intros ctx res st; simpl.
  { apply writes_within_refl. }
  assert (Hweak : ∀ x, may_write wf flowName flow order x
                       → may_write wf flowName flow (s :: order) x).
  { intros x (? & ? & ?). split_and!; [done | done | by right]. }
  destruct (Rec.has (fd_steps flow) s) eqn:Hact; simpl.
  2: { eapply writes_within_weaken; [apply Hweak | apply IH]. }
  pose proof (try_step_writes wf flowName flow ctx s st) as Hstep.
  assert (Hstep' : writes_within (may_write wf flowName flow (s :: order)) st
                     (try_step wf flowName flow ctx s st).1).
  { eapply writes_within_weaken; [|apply Hstep].
    intros x [Hb ->]. split_and!; [done | done | left]. }
  destruct (try_step wf flowName flow ctx s st) as [st1 [v|e]]; simpl in *; [|done].
  eapply writes_within_trans; [done|].
  eapply writes_within_weaken; [apply Hweak | apply IH].
Qed.

(** *** The promises of a level *)

Lemma invoke_Return wf flowName flow ctx s st r :
  (invoke wf flowName flow ctx s st).2 = Return r →
  is_build_flow wf flowName = true → is_Some (wf_steps wf !! s).
Proof.
  unfold invoke. intros Hrun Hbuild. rewrite Hbuild in Hrun.
  destruct (wf_steps wf !! s); [done | by simpl in Hrun].
Qed.

Lemma start_step_task wf flowName flow ctx s st :
  task_of wf flowName flow s (start_step wf flowName flow ctx s st).2.
Proof.
  unfold start_step, task_of.
  destruct (Rec.has (fd_steps flow) s) eqn:Hact; simpl.
  2: { split; [|done]. unfold has_action. by rewrite Hact. }
  pose proof (invoke_Return wf flowName flow ctx s st) as Hret.
  destruct (invoke wf flowName flow ctx s st) as [st1 [[v|p]|e]]; simpl in *.
  - split; [done | by eapply Hret].
  - split; [done | by eapply Hret].
  - split; [|done]. split; [done | by exists e].
Qed.

Lemma start_step_writes wf flowName flow ctx s st :
  writes_within (may_write wf flowName flow [s]) st
                (start_step wf flowName flow ctx s st).1.
Proof.
  unfold start_step.
  destruct (Rec.has (fd_steps flow) s) eqn:Hact; simpl; [|apply writes_within_refl].
  pose proof (invoke_containers wf flowName flow ctx s st) as Hinv.
  destruct (invoke wf flowName flow ctx s st) as [st1 [[v|p]|e]]; simpl in *;
    [| by apply writes_within_same..].
  eapply writes_within_trans; [by apply writes_within_same|].
  eapply writes_within_weaken; [|apply produce_writes].
  intros x [Hb ->]. split_and!; [done | done | left].
Qed.

Lemma start_level_tasks wf flowName flow ctx lvl : ∀ st,
  Forall2 (task_of wf flowName flow) lvl (start_level wf flowName flow ctx lvl st).2 ∧
  writes_within (may_write wf flowName flow lvl) st
                (start_level wf flowName flow ctx lvl st).1.
Proof.
  induction lvl as [|s lvl IH]; intros st; simpl.
  { split; [constructor | apply writes_within_refl]. }
  pose proof (start_step_task wf flowName flow ctx s st) as Htask.
  pose proof (start_step_writes wf flowName flow ctx s st) as Hwrite.
  destruct (start_step wf flowName flow ctx s st) as [st1 t]; simpl in *.
  destruct (IH st1) as [Htasks Hwrites].
  destruct (start_level wf flowName flow ctx lvl st1) as [st2 ts]; simpl in *.
  split; [by constructor|].
  eapply writes_within_trans.
  - eapply writes_within_weaken; [|apply Hwrite].
    intros x (? & ? & ->%list_elem_of_singleton). split_and!; [done | done | left].
  - eapply writes_within_weaken; [|apply Hwrites].
    intros x (? & ? & ?). split_and!; [done | done | by right].
Qed.

Lemma resume_task_of wf flowName flow s t st :
  task_of wf flowName flow s t →
  task_of wf flowName flow s (resume_task wf flowName t st).2 ∧
  writes_within (may_write wf flowName flow [s]) st
                (resume_task wf flowName t st).1.
Proof.
  intros [Hfor Himpl].
  destruct t as [|s' v|e|s' [v|e|k]]; cbn -[produce] in *;
    try (split; [by split | apply writes_within_refl]).
  - destruct Hfor as [-> Hact]. split; [by split|].
    eapply writes_within_weaken; [|apply produce_writes].
    intros x [Hb ->]. split_and!; [done | done | left].
  - destruct Hfor as [-> Hact]. split; [|by apply writes_within_same].
    split; [|done]. split; [done | by exists e].
  - destruct (k (world st)) as [w p]. split; [by split|]. by apply writes_within_same.
Qed.

Lemma resume_at_tasks wf flowName flow lvl i tasks st :
  Forall2 (task_of wf flowName flow) lvl tasks →
  Forall2 (task_of wf flowName flow) lvl (resume_at wf flowName i tasks st).2 ∧
  writes_within (may_write wf flowName flow lvl) st
                (resume_at wf flowName i tasks st).1.
Proof.
  intros Htasks. unfold resume_at.
  destruct (tasks !! i) as [t|] eqn:Hi; [|split; [done | apply writes_within_refl]].
  destruct (Forall2_lookup_r _ _ _ _ _ Htasks Hi) as (s & Hs & Ht).
  destruct (resume_task_of wf flowName flow s t st Ht) as [Ht' Hwrite].
  destruct (resume_task wf flowName t st) as [st' t']; simpl in *. split.
  - rewrite <- (list_insert_id lvl i s Hs). by apply Forall2_insert.
  - eapply writes_within_weaken; [|apply Hwrite].
    intros x (? & ? & ->%list_elem_of_singleton).
    split_and!; [done | done | by eapply list_elem_of_lookup_2].
Qed.

Lemma await_all_tasks wf flowName flow lvl schedule : ∀ tasks st,
  Forall2 (task_of wf flowName flow) lvl tasks →
  writes_within (may_write wf flowName flow lvl) st
                (await_all wf flowName schedule tasks st).1.2 ∧
  ∃ tasks', Forall2 (task_of wf flowName flow) lvl tasks' ∧
    match (await_all wf flowName schedule tasks st).2 with
    | AllResolved items => level_results tasks' = Some items
    | OneRejected e => TaskFailed e ∈ tasks'
    | NeverSettled => True
    end.
Proof.
  induction schedule as [|i schedule IH]; intros tasks st Htasks; simpl.
  - destruct (first_rejection tasks) as [e|] eqn:Hrej; simpl.
    { split; [apply writes_within_refl|]. exists tasks. split; [done|].
      by apply first_rejection_Some. }
    destruct (level_results tasks) as [items|] eqn:Hres; simpl;
      (split; [apply writes_within_refl | by exists tasks]).
  - destruct (first_rejection tasks) as [e|] eqn:Hrej; simpl.
    { split; [apply writes_within_refl|]. exists tasks. split; [done|].
      by apply first_rejection_Some. }
    destruct (level_results tasks) as [items|] eqn:Hres; simpl.
    { split; [apply writes_within_refl | by exists tasks]. }
    destruct (resume_at_tasks wf flowName flow lvl i tasks st Htasks) as [Ht1 Hw1].
    destruct (resume_at wf flowName i tasks st) as [st1 tasks1]; simpl in *.
    destruct (IH tasks1 st1 Ht1) as [Hw Hex].
    split; [by eapply writes_within_trans | done].
Qed.

(** The items of a level that resolved are those of its steps that have
    an action; in the build flow each of them has an implementation. *)
Lemma level_items wf flowName flow lvl tasks items :
  Forall2 (task_of wf flowName flow) lvl tasks →
  level_results tasks = Some items →
  ∀ s, ((∃ v, Some (s, v) ∈ items) ↔ s ∈ lvl ∧ has_action flow s) ∧
       (s ∈ lvl → has_action flow s → is_build_flow wf flowName = true →
        is_Some (wf_steps wf !! s)).
Proof.
  intros Htasks Hres s.
  destruct (level_results_Some tasks items Hres) as [Hkinds Hitems].
  assert (Hdone : s ∈ lvl → has_action flow s →
                  ∃ v, TaskDone s v ∈ tasks ∧
                       (is_build_flow wf flowName = true → is_Some (wf_steps wf !! s))).
  { intros [i Hi]%list_elem_of_lookup Hact.
    destruct (Forall2_lookup_l _ _ _ _ _ Htasks Hi) as (t & Ht & [Hfor Himpl]).
    destruct (Hkinds t) as [-> | (s' & v & ->)]; [by eapply list_elem_of_lookup_2 | done |].
    destruct Hfor as [-> _]. exists v. split; [by eapply list_elem_of_lookup_2 | done]. }
  split; [split|].
  - intros (v & [i Hi]%Hitems%list_elem_of_lookup).
    destruct (Forall2_lookup_r _ _ _ _ _ Htasks Hi) as (x & Hx & [[-> Hact] _]).
    split; [by eapply list_elem_of_lookup_2 | done].
  - intros [Hs Hact]. destruct (Hdone Hs Hact) as (v & Hv & _).
    exists v. by apply Hitems.
  - intros Hs Hact. by destruct (Hdone Hs Hact) as (v & _ & ?).
Qed.

Lemma fold_results_is_Some (items : list (option (string * V))) s :
  ∀ m : gmap string V,
  is_Some (fold_results items m !! s)
  ↔ is_Some (m !! s) ∨ ∃ v, Some (s, v) ∈ items.
Proof.
  unfold fold_results. induction items as [|item items IH]; intros m; simpl.
  { split; [by left | intros [? | (v & ?%elem_of_nil)]; done]. }
  rewrite IH. destruct item as [[s' v']|].
  - destruct (decide (s' = s)) as [->|Hne].
    + rewrite lookup_insert_eq. split.
      * intros [_ | (v & Hv)]; right; [exists v'; left | exists v; by right].
      * intros _. left. eauto.
    + rewrite lookup_insert_ne by done. split.
      * intros [? | (v & Hv)]; [by left | right; exists v; by right].
      * intros [? | (v & [Hv | Hv]%elem_of_cons)]; [by left | simplify_eq | right; eauto].
  - split.
    + intros [? | (v & Hv)]; [by left | right; exists v; by right].
    + intros [? | (v & [Hv | Hv]%elem_of_cons)]; [by left | done | right; eauto].
Qed.

(** *** The loops, by outcome *)

Lemma execute_loop_outcome wf flowName flow order : ∀ ctx res st,
  match (execute_loop wf flowName flow order ctx res st).2 with
  | Returned r =>
      (∀ s, is_Some (results r !! s)
            ↔ is_Some (res !! s) ∨ (s ∈ order ∧ has_action flow s)) ∧
      (∀ s, s ∈ order → has_action flow s → is_build_flow wf flowName = true →
            is_Some (wf_steps wf !! s))
  | Raised e =>
      ∃ s cause, s ∈ order ∧ has_action flow s ∧ e = step_failed s cause
  | Unsettled => False
  end.
Proof.
  induction order as [|s order IH]; intros ctx res st; simpl.
  { split; [|by intros ? ?%elem_of_nil]. intros s. split; [by left|].
    intros [? | [?%elem_of_nil _]]; done. }
  destruct (Rec.has (fd_steps flow) s) eqn:Hact; simpl.
  2: { specialize (IH ctx res st).
       assert (Hno : ¬ has_action flow s) by (unfold has_action; by rewrite Hact).
       destruct (execute_loop wf flowName flow order ctx res st) as [st' [r|e|]];
         simpl in *; [| |done].
       - destruct IH as [Hdom Himpl]. split.
         + intros x. rewrite Hdom, elem_of_cons. naive_solver.
         + intros x [-> | Hx]%elem_of_cons; [done | by apply Himpl].
       - destruct IH as (x & cause & Hx & Hax & ->). exists x, cause.
         split_and!; [by right | done | done]. }
  unfold try_step.
  pose proof (invoke_Return wf flowName flow ctx s st) as Hret.
  destruct (invoke wf flowName flow ctx s st) as [st1 [[v|p]|e]]; simpl in *.
  - specialize (IH (<[s:=v]> ctx) (<[s:=v]> res) (produce wf flowName s v st1)).
    destruct (execute_loop _ _ _ _ _ _ _) as [st' [r|e|]]; simpl in *; [| |done].
    + destruct IH as [Hdom Himpl]. split.
      * intros x. rewrite Hdom, elem_of_cons.
        destruct (decide (x = s)) as [->|Hne].
        { rewrite lookup_insert_eq. split; [intros _; right | intros _; left; eauto].
          split; [by left | done]. }
        rewrite lookup_insert_ne by done. naive_solver.
      * intros x [-> | Hx]%elem_of_cons; [intros _; by eapply Hret | by apply Himpl].
    + destruct IH as (x & cause & Hx & Hax & ->). exists x, cause.
      split_and!; [by right | done | done].
  - eexists s, _. split_and!; [left | done | done].
  - exists s, e. split_and!; [left | done | done].
Qed.

Lemma executeAsync_loop_outcome wf flowName flow levels : ∀ schedule ctx res st,
  writes_within (may_write wf flowName flow (concat levels)) st
    (executeAsync_loop wf flowName flow levels schedule ctx res st).1 ∧
  match (executeAsync_loop wf flowName flow levels schedule ctx res st).2 with
  | Returned r =>
      (∀ s, is_Some (results r !! s)
            ↔ is_Some (res !! s) ∨ (s ∈ concat levels ∧ has_action flow s)) ∧
      (∀ s, s ∈ concat levels → has_action flow s →
            is_build_flow wf flowName = true → is_Some (wf_steps wf !! s))
  | Raised e =>
      ∃ s cause, s ∈ concat levels ∧ has_action flow s ∧ e = step_failed s cause
  | Unsettled => True
  end.
Proof.
  induction levels as [|lvl levels IH]; intros schedule ctx res st; simpl.
  { split; [apply writes_within_refl|]. split; [|by intros ? ?%elem_of_nil].
    intros s. split; [by left|]. intros [? | [?%elem_of_nil _]]; done. }
  destruct (start_level_tasks wf flowName flow ctx lvl st) as [Htasks Hw0].
  destruct (start_level wf flowName flow ctx lvl st) as [st1 tasks]; simpl in *.
  destruct (await_all_tasks wf flowName flow lvl schedule tasks st1 Htasks)
    as [Hw1 (tasks' & Htasks' & Hout)].
  assert (Hlvl : ∀ x, may_write wf flowName flow lvl x
                      → may_write wf flowName flow (lvl ++ concat levels) x).
  { intros x (? & ? & ?). split_and!; [done | done | set_solver]. }
  assert (Hw : writes_within (may_write wf flowName flow (lvl ++ concat levels)) st
                 (await_all wf flowName schedule tasks st1).1.2).
  { eapply writes_within_weaken; [apply Hlvl|]. by eapply writes_within_trans. }
  destruct (await_all wf flowName schedule tasks st1) as [[schedule' st2] [items|e|]];
    simpl in *.
  - specialize (IH schedule' (fold_results items ctx) (fold_results items res) st2).
    destruct IH as [Hw2 IH]. split.
    { eapply writes_within_trans; [done|].
      eapply writes_within_weaken; [|apply Hw2].
      intros x (? & ? & ?). split_and!; [done | done | set_solver]. }
    pose proof (level_items wf flowName flow lvl tasks' items Htasks' Hout) as Hitems.
    destruct (executeAsync_loop _ _ _ _ _ _ _ _) as [st' [r|e|]]; simpl in *; [| |done].
    + destruct IH as [Hdom Himpl]. split.
      * intros x. rewrite Hdom, fold_results_is_Some, elem_of_app.
        destruct (Hitems x) as [-> _]. naive_solver.
      * intros x [Hx | Hx]%elem_of_app; [by apply Hitems | by apply Himpl].
    + destruct IH as (x & cause & Hx & Hax & ->). exists x, cause.
      split_and!; [set_solver | done | done].
  - split; [done|].
    apply list_elem_of_lookup in Hout as [i Hi].
    destruct (Forall2_lookup_r _ _ _ _ _ Htasks' Hi) as (x & Hx & [[Hact [cause ->]] _]).
    exists x, cause. split_and!; [|done..].
    apply elem_of_app. left. by eapply list_elem_of_lookup_2.
  - done.
Qed.

Lemma levels_members (g : graph) order levels :
  topologicalSort g = Done order →
  groupStepsByLevel g order = Some levels →
  ∀ s, s ∈ concat levels ↔ s ∈ nodes g.
Proof.
  intros Hsort Hgroup s.
  destruct (levels_elem_of g order levels Hsort Hgroup) as (_ & _ & Hmem).
  pose proof (topologicalSort_spec g) as Hspec. rewrite Hsort in Hspec.
  destruct Hspec as (_ & _ & <-). apply Hmem.
Qed.

Lemma sorted_flow_levels (g : graph) order :
  topologicalSort g = Done order →
  ∃ levels, groupStepsByLevel g order = Some levels.
Proof.
  intros Hsort. destruct (levels_structure g order Hsort) as (levels & ? & _). eauto.
Qed.

(** X8. The failures of [execute] and [executeAsync], by cause. A
    name that is not in the flow registry gives [Flow ... does not exist],
    unless it is the name of a member of [Object.prototype]: then the
    [in] test finds the member and the sort of its missing dependency
    record is a [TypeError]. A flow whose sort throws gives the error of
    [topologicalSort], unwrapped: the one that names a step on a cycle,
    or [deps is not iterable] for a dependency without entry that bears
    the name of a member of [Object.prototype]; the sort throws exactly
    for the flows with a cycle or such a dependency. In all these cases
    nothing was called and the state is unchanged. Every other failure
    is a step failure [Step s failed: ...] for a step [s] of the flow
    that has an action, and [execute] always completes. *)
Theorem run_outcomes wf flowName :
  (Rec.get (wf_flows wf) flowName = None →
   ∀ st, execute wf flowName st
         = (st, Raised (if inherited flowName then no_dependencies
                        else flow_does_not_exist flowName)) ∧
         ∀ schedule,
           executeAsync wf flowName schedule st
           = (st, Raised (if inherited flowName then no_dependencies
                          else flow_does_not_exist flowName))) ∧
  (∀ flow, Rec.get (wf_flows wf) flowName = Some flow →
     ¬ acyclic (fd_dependencies flow) ∨
     (∃ n, finds_inherited (fd_dependencies flow) n) →
     ∃ m, ((∃ n, m = circular_message n ∧ depends_on (fd_dependencies flow) n n) ∨
           (m = not_iterable ∧ ∃ n, finds_inherited (fd_dependencies flow) n)) ∧
       ∀ st, execute wf flowName st = (st, Raised (JsError m None)) ∧
             ∀ schedule,
               executeAsync wf flowName schedule st
               = (st, Raised (JsError m None))) ∧
  (∀ flow, Rec.get (wf_flows wf) flowName = Some flow →
     acyclic (fd_dependencies flow) →
     (∀ n, ¬ finds_inherited (fd_dependencies flow) n) →
     (∀ st st' e,
        execute wf flowName st = (st', Raised e) →
        ∃ s cause, s ∈ nodes (fd_dependencies flow) ∧ has_action flow s ∧
                   e = step_failed s cause) ∧
     (∀ st, (execute wf flowName st).2 ≠ Unsettled) ∧
     (∀ schedule st st' e,
        executeAsync wf flowName schedule st = (st', Raised e) →
        ∃ s cause, s ∈ nodes (fd_dependencies flow) ∧ has_action flow s ∧
                   e = step_failed s cause)).
Proof.
  split_and!.
  - intros Hnone st. unfold execute, executeAsync. rewrite Hnone.
    by destruct (inherited flowName).
  - intros flow Hflow Hbad.
    pose proof (topologicalSort_spec (fd_dependencies flow)) as Hspec.
    destruct (topologicalSort (fd_dependencies flow)) as [order|m|] eqn:Hsort;
      [| |done].
    { destruct Hbad as [Hcyc | [n Hn]].
      - destruct Hcyc. by eapply topologicalSort_Done_acyclic.
      - by destruct (topologicalSort_Done_found _ _ Hsort n). }
    exists m. split.
    + destruct (topologicalSort_Fail _ _ Hsort) as [(n & -> & Hn & _) | ?]; [left | by right].
      by exists n.
    + intros st. unfold execute, executeAsync. by rewrite Hflow, Hsort.
  - intros flow Hflow Hac Hown.
    pose proof (topologicalSort_spec (fd_dependencies flow)) as Hspec.
    destruct (topologicalSort (fd_dependencies flow)) as [order| |] eqn:Hsort;
      [| |done].
    2: { destruct Hspec as [? | [n Hn]]; [done | by destruct (Hown n)]. }
    destruct Hspec as (_ & _ & Hall).
    destruct (sorted_flow_levels _ _ Hsort) as [levels Hgroup].
    split_and!.
    + intros st st' e. unfold execute. rewrite Hflow, Hsort. intros Hrun.
      pose proof (execute_loop_outcome wf flowName flow order ∅ ∅ st) as Hout.
      rewrite Hrun in Hout. simpl in Hout.
      destruct Hout as (s & cause & Hs & Hact & ->). exists s, cause.
      split_and!; [by apply Hall | done | done].
    + intros st. apply execute_settles.
    + intros schedule st st' e. unfold executeAsync.
      rewrite Hflow, Hsort, Hgroup. intros Hrun.
      destruct (executeAsync_loop_outcome wf flowName flow levels schedule ∅ ∅ st)
        as [_ Hout].
      rewrite Hrun in Hout. simpl in Hout.
      destruct Hout as (s & cause & Hs & Hact & ->). exists s, cause.
      split_and!; [by eapply levels_members | done | done].
Qed.

(** X9. The results of a run that returns, blocking or concurrent,
    have an entry for exactly the steps that occur in the dependency
    record of the flow and have an action: a step without an action is
    skipped, and an action for a name outside the record is never run. *)
Theorem results_of_action_steps wf flowName flow :
  Rec.get (wf_flows wf) flowName = Some flow →
  (∀ st st' r,
     execute wf flowName st = (st', Returned r) →
     ∀ s, is_Some (results r !! s)
          ↔ s ∈ nodes (fd_dependencies flow) ∧ has_action flow s) ∧
  (∀ schedule st st' r,
     executeAsync wf flowName schedule st = (st', Returned r) →
     ∀ s, is_Some (results r !! s)
          ↔ s ∈ nodes (fd_dependencies flow) ∧ has_action flow s).
Proof.
  intros Hflow. split.
  - intros st st' r. unfold execute. rewrite Hflow.
    pose proof (topologicalSort_spec (fd_dependencies flow)) as Hspec.
    destruct (topologicalSort (fd_dependencies flow)) as [order| |] eqn:Hsort;
      [|done..].
    destruct Hspec as (_ & _ & Hall). intros Hrun s.
    pose proof (execute_loop_outcome wf flowName flow order ∅ ∅ st) as Hout.
    rewrite Hrun in Hout. simpl in Hout. destruct Hout as [Hdom _].
    rewrite Hdom, lookup_empty, Hall. split; [|by right].
    intros [[? ?] | ?]; done.
  - intros schedule st st' r. unfold executeAsync. rewrite Hflow.
    destruct (topologicalSort (fd_dependencies flow)) as [order| |] eqn:Hsort;
      [|done..].
    destruct (groupStepsByLevel (fd_dependencies flow) order) as [levels|] eqn:Hgroup;
      [|done].
    intros Hrun s.
    destruct (executeAsync_loop_outcome wf flowName flow levels schedule ∅ ∅ st)
      as [_ Hout].
    rewrite Hrun in Hout. simpl in Hout. destruct Hout as [Hdom _].
    rewrite Hdom, lookup_empty, (levels_members _ _ _ Hsort Hgroup).
    split; [|by right]. intros [[? ?] | ?]; done.
Qed.

Lemma execute_writes wf flowName flow st :
  Rec.get (wf_flows wf) flowName = Some flow →
  writes_within (may_write wf flowName flow (nodes (fd_dependencies flow))) st
                (execute wf flowName st).1.
Proof.
  intros Hflow. unfold execute. rewrite Hflow.
  pose proof (topologicalSort_spec (fd_dependencies flow)) as Hspec.
  destruct (topologicalSort (fd_dependencies flow)) as [order| |] eqn:Hsort;
    [|apply writes_within_refl..].
  destruct Hspec as (_ & _ & Hall).
  eapply writes_within_weaken; [|apply execute_loop_writes].
  intros x (? & ? & ?). split_and!; [done | done | by apply Hall].
Qed.

Lemma executeAsync_writes wf flowName flow schedule st :
  Rec.get (wf_flows wf) flowName = Some flow →
  writes_within (may_write wf flowName flow (nodes (fd_dependencies flow))) st
                (executeAsync wf flowName schedule st).1.
Proof.
  intros Hflow. unfold executeAsync. rewrite Hflow.
  destruct (topologicalSort (fd_dependencies flow)) as [order| |] eqn:Hsort;
    [|apply writes_within_refl..].
  destruct (groupStepsByLevel (fd_dependencies flow) order) as [levels|] eqn:Hgroup;
    [|apply writes_within_refl].
  eapply writes_within_weaken;
    [|apply (executeAsync_loop_outcome wf flowName flow levels schedule ∅ ∅ st)].
  intros x (? & ? & ?). split_and!; [done | done | by eapply levels_members].
Qed.

(** X10. Whatever its outcome, a run of a flow, blocking or
    concurrent, removes no container and writes at most the containers of
    the steps of the flow that have an action, and those only when the
    flow is the build flow. *)
Theorem run_writes_only_its_steps wf flowName flow :
  Rec.get (wf_flows wf) flowName = Some flow →
  (∀ st, writes_within (may_write wf flowName flow (nodes (fd_dependencies flow)))
           st (execute wf flowName st).1) ∧
  (∀ schedule st,
     writes_within (may_write wf flowName flow (nodes (fd_dependencies flow)))
       st (executeAsync wf flowName schedule st).1).
Proof.
  intros Hflow. split.
  - intros st. by apply execute_writes.
  - intros schedule st. by apply executeAsync_writes.
Qed.

(** *** Built workflows *)

Lemma build_Returned b w st wf :
  build b w = (st, Returned wf) →
  validateFlows b = Done () ∧ wf = instance_of (createBuildFlow b) ∧
  ∃ r, execute wf builder_buildFlowName (fresh w) = (st, Returned r).
Proof.
  unfold build. destruct (checkForCircularDependencies b); [|done..].
  destruct (validateFlows b) as [[]| |]; [|done..].
  destruct (execute _ _ _) as [st' [r|e|]] eqn:Hrun; intros Heq; simplify_eq.
  split_and!; [done | done | by exists r].
Qed.

Lemma buildAsync_Returned b schedule w st wf :
  buildAsync b schedule w = (st, Returned wf) →
  validateFlows b = Done () ∧ wf = instance_of (createBuildFlow b) ∧
  ∃ r, executeAsync wf builder_buildFlowName schedule (fresh w) = (st, Returned r).
Proof.
  unfold buildAsync. destruct (checkForCircularDependencies b); [|done..].
  destruct (validateFlows b) as [[]| |]; [|done..].
  destruct (executeAsync _ _ _ _) as [st' [r|e|]] eqn:Hrun; intros Heq; simplify_eq.
  split_and!; [done | done | by exists r].
Qed.

(** The instance that [build()] or [buildAsync()] returned, and its state. *)
Lemma built_instance b st wf :
  (∃ w, build b w = (st, Returned wf)) ∨
  (∃ schedule w, buildAsync b schedule w = (st, Returned wf)) →
  validateFlows b = Done () ∧ wf = instance_of (createBuildFlow b) ∧
  ∃ order,
    topologicalSort (fd_dependencies (build_flow b)) = Done order ∧
    (∀ s, s ∈ Rec.keys (b_dependencies b) → s ∈ order) ∧
    (∀ s, s ∈ order → has_action (build_flow b) s → is_Some (b_steps b !! s)) ∧
    (∀ s, s ∈ order → has_action (build_flow b) s → is_Some (containers st !! s)) ∧
    (∀ s, is_Some (containers st !! s) → has_action (build_flow b) s).
Proof.
  intros Hbuilt.
  assert (Hflow : Rec.get (wf_flows (instance_of (createBuildFlow b)))
                          builder_buildFlowName = Some (build_flow b)).
  { simpl. apply Rec_get_set_eq. }
  assert (Hbf : is_build_flow (instance_of (createBuildFlow b)) builder_buildFlowName
                = true).
  { unfold is_build_flow. by apply bool_decide_eq_true_2. }
  assert (Hkeys : ∀ order,
    topologicalSort (fd_dependencies (build_flow b)) = Done order →
    ∀ s, s ∈ Rec.keys (b_dependencies b) → s ∈ order).
  { intros order Hsort s Hs%buildDependencies_keys%key_in_nodes.
    pose proof (topologicalSort_spec (fd_dependencies (build_flow b))) as Hspec.
    rewrite Hsort in Hspec. destruct Hspec as (_ & _ & Hall). by apply Hall. }
  assert (Hfresh : ∀ w st',
    writes_within (may_write (instance_of (createBuildFlow b)) builder_buildFlowName
                     (build_flow b) (nodes (fd_dependencies (build_flow b))))
                  (fresh w) st' →
    ∀ s, is_Some (containers st' !! s) → has_action (build_flow b) s).
  { intros w st' Hw s Hs. destruct (decide (has_action (build_flow b) s)); [done|].
    destruct (Hw s) as [_ Hframe]. rewrite Hframe in Hs.
    - simpl in Hs. rewrite lookup_empty in Hs. by destruct Hs.
    - by intros (_ & ? & _). }
  destruct Hbuilt as [[w Hbuild] | (schedule & w & Hbuild)].
  - apply build_Returned in Hbuild as (Hvalid & -> & r & Hrun).
    split_and!; [done | done |].
    pose proof (execute_writes _ _ _ (fresh w) Hflow) as Hw. rewrite Hrun in Hw.
    unfold execute in Hrun. rewrite Hflow in Hrun.
    destruct (topologicalSort (fd_dependencies (build_flow b))) as [order| |] eqn:Hsort;
      [|done..].
    exists order.
    pose proof (execute_loop_outcome (instance_of (createBuildFlow b)) builder_buildFlowName (build_flow b) order
                  ∅ ∅ (fresh w)) as Hout.
    rewrite Hrun in Hout. simpl in Hout. destruct Hout as [_ Himpl].
    destruct (build_flow_run (instance_of (createBuildFlow b)) builder_buildFlowName (build_flow b) order
                Hflow Hsort Hbf) as [Hsync _].
    split_and!; [done | by apply Hkeys | | | by apply (Hfresh w)].
    + intros s Hs Hact. by apply (Himpl s).
    + intros s Hs Hact.
      assert (Hexec : execute (instance_of (createBuildFlow b)) builder_buildFlowName
                              (fresh w) = (st, Returned r)).
      { unfold execute. by rewrite Hflow, Hsort. }
      destruct (Hsync _ _ _ Hexec) as (_ & _ & Hsteps).
      destruct (Hsteps s Hs Hact) as (? & v & _ & _ & Hc & _). eauto.
  - apply buildAsync_Returned in Hbuild as (Hvalid & -> & r & Hrun).
    split_and!; [done | done |].
    pose proof (executeAsync_writes _ _ _ schedule (fresh w) Hflow) as Hw.
    rewrite Hrun in Hw.
    pose proof Hrun as Hexec.
    unfold executeAsync in Hrun. rewrite Hflow in Hrun.
    destruct (topologicalSort (fd_dependencies (build_flow b))) as [order| |] eqn:Hsort;
      [|done..].
    destruct (groupStepsByLevel _ order) as [levels|] eqn:Hgroup; [|done].
    exists order.
    destruct (executeAsync_loop_outcome (instance_of (createBuildFlow b)) builder_buildFlowName (build_flow b) levels
                schedule ∅ ∅ (fresh w)) as [_ Hout].
    rewrite Hrun in Hout. simpl in Hout. destruct Hout as [_ Himpl].
    destruct (build_flow_run (instance_of (createBuildFlow b)) builder_buildFlowName (build_flow b) order
                Hflow Hsort Hbf) as [_ Hasync].
    pose proof (topologicalSort_spec (fd_dependencies (build_flow b))) as Hspec.
    rewrite Hsort in Hspec. destruct Hspec as (_ & _ & Hall).
    split_and!; [done | by apply Hkeys | | | by apply (Hfresh w)].
    + intros s Hs Hact. apply (Himpl s); [|done..].
      by apply (levels_members _ _ _ Hsort Hgroup), Hall.
    + intros s Hs Hact.
      destruct (Hasync _ _ _ _ Hexec) as (_ & Hsteps).
      destruct (Hsteps s Hs Hact) as (? & v & _ & _ & Hc & _). eauto.
Qed.

(** X11. When [build()] or [buildAsync()] returns a workflow, the
    container store has an entry for exactly the step names that were
    added to the builder, and each of them has an implementation (a step
    added without one makes the build fail). *)
Theorem build_fills_containers b st wf :
  (∃ w, build b w = (st, Returned wf)) ∨
  (∃ schedule w, buildAsync b schedule w = (st, Returned wf)) →
  (∀ s, is_Some (containers st !! s) ↔ s ∈ Rec.keys (b_dependencies b)) ∧
  (∀ s, s ∈ Rec.keys (b_dependencies b) → is_Some (wf_steps wf !! s)).
Proof.
  intros (_ & -> & order & _ & Hkeys & Himpl & Hcont & Hdom)%built_instance.
  split.
  - intros s. split.
    + intros Hs. by apply buildSteps_has, Hdom.
    + intros Hs. apply Hcont; [by apply Hkeys | by apply buildSteps_has].
  - intros s Hs. simpl. apply Himpl; [by apply Hkeys | by apply buildSteps_has].
Qed.


End MoreEngineFacts.

Section MoreEngineFacts2.

Context {V W : Type} `{!JsValue V}.

Implicit Types (wf : @Workflow V W) (flow : @FlowDefinition V W)
  (st : @state V W) (ctx res : gmap string V) (b : @WorkflowBuilder V W)
  (fb : @FlowBuilder V W).

(** *** A failed run of the build flow is not rolled back *)

Lemma try_step_inr wf flowName flow ctx s st st' e :
  try_step wf flowName flow ctx s st = (st', inr e) →
  containers st' = containers st.
Proof.
  unfold try_step.
  pose proof (invoke_containers wf flowName flow ctx s st) as Hinv.
  destruct (invoke wf flowName flow ctx s st) as [st1 [[v|p]|e']]; simpl in *;
    intros Heq; by simplify_eq.
Qed.

(** X13. A failed run of the build flow is not rolled back: when the
    callable of step [s] fails in blocking mode, the containers of the
    steps before [s] in the order already hold the values produced in
    this run, while the containers of [s] and of the later steps are as
    they were before the run. *)
Theorem failed_run_keeps_writes wf flowName flow pre s post st st1 r1 st2 cause :
  is_build_flow wf flowName = true →
  Rec.get (wf_flows wf) flowName = Some flow →
  topologicalSort (fd_dependencies flow) = Done (pre ++ s :: post) →
  execute_loop wf flowName flow pre ∅ ∅ st = (st1, Returned r1) →
  has_action flow s →
  try_step wf flowName flow (results r1) s st1 = (st2, inr cause) →
  execute wf flowName st = (st2, Raised (step_failed s cause)) ∧
  (∀ x, x ∈ pre → has_action flow x →
        ∃ v, results r1 !! x = Some v ∧ containers st2 !! x = Some v) ∧
  (∀ x, x ∈ s :: post → containers st2 !! x = containers st !! x).
Proof.
  intros Hbuild Hflow Hsort Hpre Hact Htry.
  pose proof (try_step_inr _ _ _ _ _ _ _ _ Htry) as Hcont.
  split_and!.
  - unfold execute. rewrite Hflow, Hsort.
    rewrite (execute_loop_app wf flowName flow pre (s :: post) ∅ st st1 r1 Hpre).
    simpl. unfold has_action in Hact. rewrite Hact. simpl. by rewrite Htry.
  - intros x Hx Hax.
    destruct (execute_prefix wf flowName flow pre (s :: post) st st1 r1 Hsort Hpre)
      as (new1 & ctx1 & _ & Hinv).
    destruct (inv_done _ _ _ _ _ _ _ _ _ Hinv x Hx Hax) as (i & v & Hi).
    destruct (inv_produced _ _ _ _ _ _ _ _ _ Hinv i x v Hi) as (_ & _ & Hres & Hc).
    exists v. split; [done|]. rewrite Hcont. by apply Hc.
  - intros x Hx. rewrite Hcont.
    pose proof (execute_loop_writes wf flowName flow pre ∅ ∅ st) as Hw.
    rewrite Hpre in Hw. destruct (Hw x) as [_ Hframe]. apply Hframe.
    intros (_ & _ & Hin).
    pose proof (topologicalSort_spec (fd_dependencies flow)) as Hspec.
    rewrite Hsort in Hspec. destruct Hspec as (Hnd & _).
    apply NoDup_app in Hnd as (_ & Hdisj & _). by apply (Hdisj x).
Qed.

(** *** Flows whose callables are all synchronous *)

Lemma start_step_sync wf flowName flow ctx s st :
  synchronous wf flowName flow →
  ¬ awaiting (start_step wf flowName flow ctx s st).2.
Proof.
  intros Hsync. unfold start_step. destruct (negb _); [by intros []|].
  specialize (Hsync ctx s st).
  destruct (invoke wf flowName flow ctx s st) as [st1 [[v|p]|e]]; simpl in *;
    [by intros [] | by destruct (Hsync p) | by intros []].
Qed.

Lemma start_level_sync wf flowName flow ctx lvl : ∀ st,
  synchronous wf flowName flow →
  Forall (λ t, ¬ awaiting t) (start_level wf flowName flow ctx lvl st).2.
Proof.
  induction lvl as [|s lvl IH]; intros st Hsync; simpl; [constructor|].
  pose proof (start_step_sync wf flowName flow ctx s st Hsync) as Hstep.
  destruct (start_step wf flowName flow ctx s st) as [st1 t]; simpl in *.
  specialize (IH st1 Hsync).
  destruct (start_level wf flowName flow ctx lvl st1) as [st2 ts]; simpl in *.
  by constructor.
Qed.

Lemma level_results_sync (tasks : list (@task V W)) :
  Forall (λ t, ¬ awaiting t) tasks →
  first_rejection tasks = None →
  is_Some (level_results tasks).
Proof.
  induction 1 as [|t tasks Ht _ IH]; simpl; [eauto|].
  destruct t as [|s v|e|s p]; simpl in *; try done.
  - intros Hrej. destruct (IH Hrej) as [items ->]. simpl. eauto.
  - intros Hrej. destruct (IH Hrej) as [items ->]. simpl. eauto.
Qed.

Lemma await_all_sync wf flowName schedule (tasks : list (@task V W)) st :
  Forall (λ t, ¬ awaiting t) tasks →
  ∃ out, await_all wf flowName schedule tasks st = (schedule, st, out) ∧
         await_all wf flowName [] tasks st = ([], st, out) ∧
         out ≠ NeverSettled.
Proof.
  intros Hsync. pose proof (level_results_sync tasks Hsync) as Hres.
  destruct schedule as [|i schedule]; simpl;
    destruct (first_rejection tasks) as [e|]; eauto;
    destruct (Hres eq_refl) as [items ->]; eauto.
Qed.

Lemma executeAsync_loop_sync wf flowName flow levels : ∀ schedule ctx res st,
  synchronous wf flowName flow →
  executeAsync_loop wf flowName flow levels schedule ctx res st
  = executeAsync_loop wf flowName flow levels [] ctx res st ∧
  (executeAsync_loop wf flowName flow levels schedule ctx res st).2 ≠ Unsettled.
Proof.
  induction levels as [|lvl levels IH]; intros schedule ctx res st Hsync;
    cbn [executeAsync_loop].
  { done. }
  pose proof (start_level_sync wf flowName flow ctx lvl st Hsync) as Htasks.
  destruct (start_level wf flowName flow ctx lvl st) as [st1 tasks].
  cbn -[await_all] in *.
  destruct (await_all_sync wf flowName schedule tasks st1 Htasks)
    as (out & -> & -> & Hout).
  destruct out as [items|e|]; [| done | done].
  destruct (IH schedule (fold_results items ctx) (fold_results items res) st1 Hsync)
    as [-> Hsettled].
  split; [done|].
  by destruct (IH [] (fold_results items ctx) (fold_results items res) st1 Hsync).
Qed.

(** X14. When no callable of a flow returns a promise, [executeAsync]
    needs no turn of the event loop for the callbacks: its outcome and
    final state are the same for every schedule, and the returned promise
    always settles. *)
Theorem executeAsync_synchronous wf flowName flow schedule st :
  Rec.get (wf_flows wf) flowName = Some flow →
  synchronous wf flowName flow →
  executeAsync wf flowName schedule st = executeAsync wf flowName [] st ∧
  (executeAsync wf flowName schedule st).2 ≠ Unsettled.
Proof.
  intros Hflow Hsync. unfold executeAsync. rewrite Hflow.
  pose proof (topologicalSort_spec (fd_dependencies flow)) as Hspec.
  destruct (topologicalSort (fd_dependencies flow)) as [order| |] eqn:Hsort;
    [| done | done].
  destruct (sorted_flow_levels _ _ Hsort) as [levels ->].
  by apply executeAsync_loop_sync.
Qed.

End MoreEngineFacts2.

(** ** The properties on the scenarios *)

Lemma hasCircularDependency_decides_witness :
  acyclic diamond ∧ ¬ acyclic two_cycle.
Proof.
  assert (H1 : ∀ n, n ∈ nodes diamond → inherited n = false)
    by names_not_inherited.
  assert (H2 : ∀ n, n ∈ nodes two_cycle → inherited n = false)
    by names_not_inherited.
  split.
  - apply (proj1 (proj2 (hasCircularDependency_decides diamond H1))).
    vm_compute. reflexivity.
  - apply (proj1 (proj1 (hasCircularDependency_decides two_cycle H2))).
    vm_compute. reflexivity.
Defined.

Lemma hasCircularDependency_from_witness :
  cycle_from cycle_and_leaf "a" ∧ ¬ cycle_from cycle_and_leaf "c".
Proof.
  assert (H : ∀ n, n ∈ nodes cycle_and_leaf → inherited n = false)
    by names_not_inherited.
  split.
  - apply (proj1 (proj1 (hasCircularDependency_from cycle_and_leaf "a"
                           ltac:(discriminate) eq_refl H))).
    vm_compute. reflexivity.
  - apply (proj1 (proj2 (hasCircularDependency_from cycle_and_leaf "c"
                           ltac:(discriminate) eq_refl H))).
    vm_compute. reflexivity.
Defined.

Lemma topologicalSort_cyclic_witness :
  ((∃ n, "Circular dependency detected: a" = circular_message n ∧
         depends_on two_cycle n n ∧ n ∈ nodes two_cycle) ∨
   ("Circular dependency detected: a" = not_iterable ∧
    ∃ n, finds_inherited two_cycle n)) ∧
  ((∃ n, not_iterable = circular_message n ∧
         depends_on inherited_dependency n n ∧ n ∈ nodes inherited_dependency) ∨
   (not_iterable = not_iterable ∧ ∃ n, finds_inherited inherited_dependency n)).
Proof.
  split.
  - apply (proj1 (topologicalSort_cyclic two_cycle)). vm_compute. reflexivity.
  - apply (proj1 (topologicalSort_cyclic inherited_dependency)).
    vm_compute. reflexivity.
Defined.

Lemma groupStepsByLevel_partition_witness :
  concat [["a"]; ["b"; "c"]; ["d"]] ≡ₚ ["a"; "b"; "c"; "d"] ∧
  (∀ l, l ∈ [["a"]; ["b"; "c"]; ["d"]] → l ≠ []) ∧
  (∀ k l, [["a"]; ["b"; "c"]; ["d"]] !! k = Some l → sublist l ["a"; "b"; "c"; "d"]).
Proof.
  apply (groupStepsByLevel_partition diamond).
  - vm_compute. reflexivity.
  - vm_compute. reflexivity.
Defined.

(** ** The properties on the scenarios, continued *)

Lemma basic_builder_api_built : api_built (builder_of basic_builder).
Proof.
  set (b1 := builder_of (addStepWithoutDependencies (@new_WorkflowBuilder value unit) "a")).
  set (b2 := _registerImplementation b1 "a" (pure_step (λ _, VStr "a-data"))).
  set (b3 := builder_of (addStep b2 "b" ["a"])).
  change (api_built (_registerImplementation b3 "b" (pure_step (template "b-" "a")))).
  apply api_withImplementation; [|vm_compute; set_solver].
  apply (api_addStep b2 "b" ["a"]); [|vm_compute; reflexivity].
  apply api_withImplementation; [|vm_compute; set_solver].
  apply (api_addStepWithoutDependencies new_WorkflowBuilder "a");
    [apply api_new | vm_compute; reflexivity].
Qed.

(** A builder in which step a names the dependency "toString": [addStep]
    accepts it, since ["toString" in this.steps] holds in every builder. *)
Lemma inherited_builder_api_built : api_built (builder_of inherited_builder).
Proof.
  apply (api_addStep new_WorkflowBuilder "a" ["toString"]);
    [apply api_new | vm_compute; reflexivity].
Qed.

Lemma api_built_acyclic_witness :
  (acyclic (b_dependencies (builder_of basic_builder)) ∧
   checkForCircularDependencies (builder_of basic_builder) = Done () ∧
   (∀ k d, d ∈ deps (b_dependencies (builder_of basic_builder)) k →
           is_Some (b_steps (builder_of basic_builder) !! d))) ∧
  (acyclic (b_dependencies (builder_of inherited_builder)) ∧
   ∀ k d, d ∈ deps (b_dependencies (builder_of inherited_builder)) k →
          is_Some (b_steps (builder_of inherited_builder) !! d) ∨ inherited d = true).
Proof.
  split.
  - destruct (api_built_acyclic (builder_of basic_builder) basic_builder_api_built)
      as (Hac & _ & _ & Hcheck).
    destruct Hcheck as [Hcheck Himpl]; [|by split_and!].
    intros k d Hd. unfold deps in Hd.
    change (b_dependencies (builder_of basic_builder))
      with [("a", @nil string); ("b", ["a"])] in Hd.
    cbn [Rec.get] in Hd. repeat case_decide; simpl in Hd.
    + by apply elem_of_nil in Hd.
    + by apply list_elem_of_singleton in Hd as ->.
    + by apply elem_of_nil in Hd.
  - destruct (api_built_acyclic (builder_of inherited_builder)
                inherited_builder_api_built) as (Hac & _ & Hfound & _).
    by split.
Defined.


Lemma run_outcomes_witness :
  (Rec.get (wf_flows error_wf) "error-flow" = Some (flow_of error_wf "error-flow") ∧
   acyclic (fd_dependencies (flow_of error_wf "error-flow")) ∧
   (∀ n, ¬ finds_inherited (fd_dependencies (flow_of error_wf "error-flow")) n) ∧
   ∃ s cause,
     s ∈ nodes (fd_dependencies (flow_of error_wf "error-flow")) ∧
     has_action (flow_of error_wf "error-flow") s ∧
     step_failed "a" flow_action_error = step_failed s cause) ∧
  (Rec.get (wf_flows pair_wf) "toString" = None ∧
   ∀ st, execute pair_wf "toString" st = (st, Raised no_dependencies) ∧
         ∀ schedule,
           executeAsync pair_wf "toString" schedule st = (st, Raised no_dependencies)).
Proof.
  split.
  - assert (H : Rec.get (wf_flows error_wf) "error-flow"
                = Some (flow_of error_wf "error-flow"))
      by (vm_compute; reflexivity).
    assert (Hsort : topologicalSort (fd_dependencies (flow_of error_wf "error-flow"))
                    = Done ["a"])
      by (vm_compute; reflexivity).
    pose proof (topologicalSort_Done_acyclic _ _ Hsort) as Hac.
    pose proof (topologicalSort_Done_found _ _ Hsort) as Hown.
    split; [exact H|]. split; [exact Hac|]. split; [exact Hown|].
    destruct (proj2 (proj2 (run_outcomes error_wf "error-flow"))
                (flow_of error_wf "error-flow") H Hac Hown) as (Hsync & _).
    apply (Hsync error_st after_error_call). vm_compute. reflexivity.
  - assert (H : Rec.get (wf_flows pair_wf) "toString" = None)
      by (vm_compute; reflexivity).
    split; [exact H|].
    exact (proj1 (run_outcomes pair_wf "toString") H).
Defined.

Lemma results_of_action_steps_witness :
  ∃ st' r,
    execute pair_wf "test" pair_st = (st', Returned r) ∧
    ∀ s, is_Some (results r !! s)
         ↔ s ∈ nodes (fd_dependencies (flow_of pair_wf "test"))
           ∧ has_action (flow_of pair_wf "test") s.
Proof.
  assert (H : Rec.get (wf_flows pair_wf) "test" = Some (flow_of pair_wf "test"))
    by (vm_compute; reflexivity).
  destruct (execute pair_wf "test" pair_st) as [st' [r| |]] eqn:Hrun.
  - exists st', r. split; [reflexivity|].
    exact (proj1 (results_of_action_steps pair_wf "test" (flow_of pair_wf "test") H)
             pair_st st' r Hrun).
  - vm_compute in Hrun. discriminate.
  - vm_compute in Hrun. discriminate.
Defined.

Lemma run_writes_only_its_steps_witness :
  (∀ st, writes_within
           (may_write refresh_wf "__build__" (build_flow (builder_of refresh_builder))
              (nodes (fd_dependencies (build_flow (builder_of refresh_builder)))))
           st (execute refresh_wf "__build__" st).1) ∧
  (∀ schedule st,
     writes_within
       (may_write refresh_wf "__build__" (build_flow (builder_of refresh_builder))
          (nodes (fd_dependencies (build_flow (builder_of refresh_builder)))))
       st (executeAsync refresh_wf "__build__" schedule st).1).
Proof.
  apply (run_writes_only_its_steps refresh_wf "__build__"
           (build_flow (builder_of refresh_builder))).
  vm_compute. reflexivity.
Defined.

Lemma build_fills_containers_witness :
  (∀ s, is_Some (containers pair_st !! s)
        ↔ s ∈ Rec.keys (b_dependencies (builder_of pair_builder))) ∧
  (∀ s, s ∈ Rec.keys (b_dependencies (builder_of pair_builder)) →
        is_Some (wf_steps pair_wf !! s)).
Proof.
  apply (build_fills_containers (builder_of pair_builder) pair_st pair_wf).
  left. exists (). vm_compute. reflexivity.
Defined.


Lemma failed_run_keeps_writes_witness :
  execute failing_wf "__build__" fresh_unit
  = (after_b, Raised (step_failed "b" step_error)) ∧
  (∀ x, x ∈ ["a"] → has_action failing_flow x →
        ∃ v, results run_a !! x = Some v ∧ containers after_b !! x = Some v) ∧
  (∀ x, x ∈ ["b"; "c"] → containers after_b !! x = containers fresh_unit !! x).
Proof.
  apply (failed_run_keeps_writes failing_wf "__build__" failing_flow ["a"] "b" ["c"]
           fresh_unit after_a run_a after_b step_error).
  - vm_compute. reflexivity.
  - vm_compute. reflexivity.
  - vm_compute. reflexivity.
  - vm_compute. reflexivity.
  - vm_compute. reflexivity.
  - vm_compute. reflexivity.
Defined.

Lemma executeAsync_synchronous_witness :
  executeAsync pair_wf "test" [0; 1] pair_st = executeAsync pair_wf "test" [] pair_st ∧
  (executeAsync pair_wf "test" [0; 1] pair_st).2 ≠ Unsettled.
Proof.
  apply (executeAsync_synchronous pair_wf "test" (flow_of pair_wf "test")).
  - vm_compute. reflexivity.
  - intros ctx s st p. unfold invoke.
    change (is_build_flow pair_wf "test") with false. cbv iota.
    change (fd_steps (flow_of pair_wf "test")) with
      [("a", pure_action (W:=unit) (λ c _, VStr ("modified-" +:+ toString c)));
       ("b", pure_action (W:=unit) (λ c _, VStr ("modified-" +:+ toString c)))].
    cbn [Rec.get]. repeat case_decide; cbn; discriminate.
Defined.

Section BuildSucceeds.

Context {V W : Type} `{!JsValue V}.

Implicit Types (wf : @Workflow V W) (flow : @FlowDefinition V W)
  (st : @state V W) (ctx res : gmap string V) (b : @WorkflowBuilder V W).

(** *** Records without repeated keys *)

Lemma Rec_keys_set {A : Type} (r : list (string * A)) k v x :
  x ∈ Rec.keys (Rec.set r k v) ↔ x = k ∨ x ∈ Rec.keys r.
Proof. by rewrite <- !Rec_has_true, Rec_has_set. Qed.

Lemma Rec_set_NoDup {A : Type} (r : list (string * A)) k v :
  NoDup (Rec.keys r) → NoDup (Rec.keys (Rec.set r k v)).
Proof.
  unfold Rec.keys at 1 2. induction r as [|[k' v'] r IH]; simpl; intros Hnd.
  { apply NoDup_singleton. }
  apply NoDup_cons in Hnd as [Hk' Hnd]. case_decide; simpl.
  - subst. by apply NoDup_cons.
  - apply NoDup_cons. split; [|by apply IH].
    intros [? | ?]%(Rec_keys_set r k v k'); [congruence | done].
Qed.

Lemma Rec_set_fresh {A : Type} (r : list (string * A)) k v :
  k ∉ Rec.keys r → Rec.set r k v = r ++ [(k, v)].
Proof.
  unfold Rec.keys. induction r as [|[k' v'] r IH]; simpl; intros Hk; [done|].
  rewrite decide_False by set_solver. f_equal. apply IH. set_solver.
Qed.

Lemma foldl_set_id {A : Type} (l : list (string * A)) : ∀ acc,
  NoDup (Rec.keys acc ++ Rec.keys l) →
  foldl (λ acc kv, Rec.set acc kv.1 kv.2) acc l = acc ++ l.
Proof.
  unfold Rec.keys. induction l as [|[k v] l IH]; intros acc Hnd; simpl.
  { by rewrite app_nil_r. }
  simpl in Hnd. rewrite Rec_set_fresh.
  - rewrite IH; [by rewrite <- app_assoc|].
    by rewrite fmap_app, <- app_assoc.
  - apply NoDup_app in Hnd as (_ & Hdisj & _). intros Hk. apply (Hdisj k Hk). left.
Qed.

Lemma buildDependencies_id b :
  NoDup (Rec.keys (b_dependencies b)) → buildDependencies b = b_dependencies b.
Proof. intros Hnd. unfold buildDependencies. by rewrite foldl_set_id. Qed.

Lemma api_built_NoDup b : api_built b → NoDup (Rec.keys (b_dependencies b)).
Proof.
  induction 1 as [|b name ds b' _ IH Hadd|b name b' _ IH Hadd| |]; try done.
  - constructor.
  - apply addStep_inr in Hadd as (_ & _ & ->). by apply Rec_set_NoDup.
  - unfold addStepWithoutDependencies in Hadd.
    destruct (has_step b name); [done|]. simplify_eq. by apply Rec_set_NoDup.
Qed.

(** *** Runs whose callables all return a value *)

Lemma execute_loop_returns wf flowName flow order :
  (∀ s ctx st, s ∈ order → has_action flow s →
     ∃ st' v, invoke wf flowName flow ctx s st = (st', Return (Plain v))) →
  ∀ ctx res st, ∃ st' r,
    execute_loop wf flowName flow order ctx res st = (st', Returned r).
Proof.
  induction order as [|s order IH]; intros Hcalls ctx res st; simpl; [eauto|].
  assert (Hrest : ∀ s' ctx' st', s' ∈ order → has_action flow s' →
    ∃ st'' v, invoke wf flowName flow ctx' s' st' = (st'', Return (Plain v))).
  { intros s' ctx' st' Hs'. apply Hcalls. by right. }
  destruct (Rec.has (fd_steps flow) s) eqn:Hact; simpl; [|by apply IH].
  destruct (Hcalls s ctx st) as (st1 & v & Hinvoke); [left | done |].
  unfold try_step. rewrite Hinvoke. by apply IH.
Qed.

Lemma resolved_level (tasks : list (@task V W)) :
  Forall resolved tasks →
  first_rejection tasks = None ∧ is_Some (level_results tasks).
Proof.
  induction 1 as [|t tasks Ht _ [IH1 IH2]]; simpl; [eauto|].
  destruct t; try done; destruct IH2 as [items ->]; simpl; eauto.
Qed.

Lemma start_level_resolved wf flowName flow ctx lvl :
  (∀ s ctx st, s ∈ lvl → has_action flow s →
     ∃ st' v, invoke wf flowName flow ctx s st = (st', Return (Plain v))) →
  ∀ st, Forall resolved (start_level wf flowName flow ctx lvl st).2.
Proof.
  induction lvl as [|s lvl IH]; intros Hcalls st; simpl; [constructor|].
  assert (Hstep : resolved (start_step wf flowName flow ctx s st).2).
  { unfold start_step. destruct (Rec.has (fd_steps flow) s) eqn:Hact; simpl; [|done].
    destruct (Hcalls s ctx st) as (st1 & v & ->); [left | done | done]. }
  destruct (start_step wf flowName flow ctx s st) as [st1 t]; simpl in *.
  ospecialize* (IH _ st1). { intros s' ctx' st' Hs'. apply Hcalls. by right. }
  destruct (start_level wf flowName flow ctx lvl st1) as [st2 ts]; simpl in *.
  by constructor.
Qed.

Lemma executeAsync_loop_returns wf flowName flow levels :
  (∀ s ctx st, s ∈ concat levels → has_action flow s →
     ∃ st' v, invoke wf flowName flow ctx s st = (st', Return (Plain v))) →
  ∀ schedule ctx res st, ∃ st' r,
    executeAsync_loop wf flowName flow levels schedule ctx res st
    = (st', Returned r).
Proof.
  induction levels as [|lvl levels IH]; intros Hcalls schedule ctx res st;
    cbn [executeAsync_loop]; [eauto|].
  pose proof (start_level_resolved wf flowName flow ctx lvl) as Htasks.
  ospecialize* (Htasks _ st).
  { intros s ctx' st' Hs. apply Hcalls. simpl. set_solver. }
  destruct (start_level wf flowName flow ctx lvl st) as [st1 tasks].
  cbn -[await_all] in *.
  destruct (resolved_level tasks Htasks) as [Hrej [items Hres]].
  assert (Hawait : await_all wf flowName schedule tasks st1
                   = (schedule, st1, AllResolved items)).
  { destruct schedule; simpl; by rewrite Hrej, Hres. }
  rewrite Hawait. apply IH. intros s ctx' st' Hs. apply Hcalls. simpl. set_solver.
Qed.

Lemma total_sync_invoke b :
  total_sync b →
  ∀ s ctx st, has_action (build_flow b) s →
    ∃ st' v, invoke (instance_of (createBuildFlow b)) builder_buildFlowName
                    (build_flow b) ctx s st = (st', Return (Plain v)).
Proof.
  intros Htotal s ctx st Hact%buildSteps_has.
  destruct (Htotal s Hact) as (implementation & Himpl & Hcall).
  unfold invoke.
  replace (is_build_flow (instance_of (createBuildFlow b)) builder_buildFlowName)
    with true by (symmetry; by apply bool_decide_eq_true_2).
  simpl. rewrite Himpl.
  destruct (Hcall (input_data (instance_of (createBuildFlow b)) st s) (world st))
    as (w' & v & ->).
  unfold after_call. simpl. eauto.
Qed.

(** X18. [build()] and [buildAsync()] succeed on every builder made
    through the interface in which no dependency bears the name of a
    member of [Object.prototype], whose flows pass validation and whose
    added steps all have an implementation that returns a value (neither
    a throw nor a promise): they return the workflow instance with the
    synthesized build flow, for every schedule in the concurrent case. *)
Theorem build_succeeds b w :
  api_built b →
  (∀ k d, d ∈ deps (b_dependencies b) k → inherited d = false) →
  validateFlows b = Done () →
  total_sync b →
  (∃ st, build b w = (st, Returned (instance_of (createBuildFlow b)))) ∧
  (∀ schedule,
     ∃ st, buildAsync b schedule w = (st, Returned (instance_of (createBuildFlow b)))).
Proof.
  intros Hapi Hnames Hvalid Htotal.
  destruct (api_built_implemented_first b Hapi) as [rank Hrank].
  pose proof (implemented_first_acyclic b rank Hrank) as Hac.
  pose proof (buildDependencies_id b (api_built_NoDup b Hapi)) as Hdeps.
  assert (Hcheck : checkForCircularDependencies b = Done ()).
  { unfold checkForCircularDependencies.
    by rewrite (hasCircularDependency_acyclic (b_dependencies b) Hac). }
  assert (Hflow : Rec.get (wf_flows (instance_of (createBuildFlow b)))
                          builder_buildFlowName = Some (build_flow b)).
  { simpl. apply Rec_get_set_eq. }
  pose proof (topologicalSort_spec (fd_dependencies (build_flow b))) as Hspec.
  destruct (topologicalSort (fd_dependencies (build_flow b))) as [order| |] eqn:Hsort;
    [| | done].
  2: { simpl in Hspec. rewrite Hdeps in Hspec.
       destruct Hspec as [? | (n & Hn & Hget & Hinh)]; [done|].
       unfold nodes in Hn. apply list_elem_of_bind in Hn as (k & Hn & Hk).
       apply elem_of_cons in Hn as [-> | Hn].
       - apply Rec_get_is_Some in Hk as [? ?]. congruence.
       - rewrite (Hnames k n Hn) in Hinh. discriminate. }
  assert (Hcalls : ∀ (l : list string) s ctx st, s ∈ l → has_action (build_flow b) s →
    ∃ st' v, invoke (instance_of (createBuildFlow b)) builder_buildFlowName
                    (build_flow b) ctx s st = (st', Return (Plain v))).
  { intros l s ctx st _. by apply total_sync_invoke. }
  split.
  - destruct (execute_loop_returns (instance_of (createBuildFlow b))
                builder_buildFlowName (build_flow b) order (Hcalls order)
                ∅ ∅ (@fresh V W w)) as (st' & r & Hrun).
    exists st'. unfold build. rewrite Hcheck, Hvalid. unfold execute.
    by rewrite Hflow, Hsort, Hrun.
  - intros schedule.
    destruct (sorted_flow_levels _ _ Hsort) as [levels Hgroup].
    destruct (executeAsync_loop_returns (instance_of (createBuildFlow b))
                builder_buildFlowName (build_flow b) levels (Hcalls (concat levels))
                schedule ∅ ∅ (@fresh V W w)) as (st' & r & Hrun).
    exists st'. unfold buildAsync. rewrite Hcheck, Hvalid. unfold executeAsync.
    by rewrite Hflow, Hsort, Hgroup, Hrun.
Qed.

End BuildSucceeds.

Lemma build_succeeds_witness :
  (∃ st, build (builder_of basic_builder) ()
         = (st, Returned (instance_of (createBuildFlow (builder_of basic_builder))))) ∧
  (∀ schedule,
     ∃ st, buildAsync (builder_of basic_builder) schedule ()
           = (st, Returned (instance_of (createBuildFlow (builder_of basic_builder))))).
Proof.
  apply (build_succeeds (builder_of basic_builder) ()).
  - exact basic_builder_api_built.
  - intros k d Hd. unfold deps in Hd.
    change (b_dependencies (builder_of basic_builder))
      with [("a", @nil string); ("b", ["a"])] in Hd.
    cbn [Rec.get] in Hd. repeat case_decide; simpl in Hd.
    + by apply elem_of_nil in Hd.
    + by apply list_elem_of_singleton in Hd as ->.
    + by apply elem_of_nil in Hd.
  - vm_compute. reflexivity.
  - intros s Hs.
    change (Rec.keys (b_dependencies (builder_of basic_builder))) with ["a"; "b"] in Hs.
    apply elem_of_cons in Hs as [-> | Hs].
    + exists (pure_step (λ _, VStr "a-data")). split; [reflexivity|].
      intros inputData w. eexists _, _. reflexivity.
    + apply list_elem_of_singleton in Hs as ->.
      exists (pure_step (template "b-" "a")). split; [reflexivity|].
      intros inputData w. eexists _, _. reflexivity.
Defined.

(** * Calls, contexts and awaited promises *)

Section Calls.

Context {V W : Type} `{!JsValue V}.

Implicit Types (wf : @Workflow V W) (flow : @FlowDefinition V W)
  (st : @state V W) (ctx res : gmap string V) (b : @WorkflowBuilder V W).

(** *** The call of one step, by what the callable returns *)

Lemma try_step_action wf flowName flow ctx s st action :
  is_build_flow wf flowName = false →
  Rec.get (fd_steps flow) s = Some action →
  ∃ st2,
    try_step wf flowName flow ctx s st
    = (st2, value_or_thrown (action_returned_promise s)
              (action (container_of st s) ctx (world st)).2) ∧
    world st2 = (action (container_of st s) ctx (world st)).1 ∧
    containers st2 = containers st.
Proof.
  intros Hbuild Hget. unfold try_step, invoke, produce, after_call.
  rewrite Hbuild, Hget.
  destruct (action (container_of st s) ctx (world st)) as [w' [[v|p]|e]]; simpl;
    eexists; split_and!; reflexivity.
Qed.

Lemma try_step_implementation wf flowName flow ctx s st implementation :
  is_build_flow wf flowName = true →
  wf_steps wf !! s = Some implementation →
  ∃ st2,
    try_step wf flowName flow ctx s st
    = (st2, value_or_thrown (step_returned_promise s)
              (implementation (input_data wf st s) (world st)).2) ∧
    world st2 = (implementation (input_data wf st s) (world st)).1 ∧
    containers st2
    = match (implementation (input_data wf st s) (world st)).2 with
      | Return (Plain v) => <[s := v]> (containers st)
      | _ => containers st
      end.
Proof.
  intros Hbuild Hget. unfold try_step, invoke, produce, after_call.
  rewrite Hbuild, Hget.
  destruct (implementation (input_data wf st s) (world st)) as [w' [[v|p]|e]]; simpl;
    eexists; split_and!; reflexivity.
Qed.

Lemma start_step_action wf flowName flow ctx s st action :
  is_build_flow wf flowName = false →
  Rec.get (fd_steps flow) s = Some action →
  ∃ st2,
    start_step wf flowName flow ctx s st
    = (st2, task_after s (action (container_of st s) ctx (world st)).2) ∧
    world st2 = (action (container_of st s) ctx (world st)).1 ∧
    containers st2 = containers st.
Proof.
  intros Hbuild Hget. unfold start_step, invoke, produce, after_call, Rec.has.
  rewrite Hbuild, Hget. simpl.
  destruct (action (container_of st s) ctx (world st)) as [w' [[v|p]|e]]; simpl;
    eexists; split_and!; reflexivity.
Qed.

Lemma start_step_implementation wf flowName flow ctx s st implementation :
  is_build_flow wf flowName = true →
  has_action flow s →
  wf_steps wf !! s = Some implementation →
  ∃ st2,
    start_step wf flowName flow ctx s st
    = (st2, task_after s (implementation (input_data wf st s) (world st)).2) ∧
    world st2 = (implementation (input_data wf st s) (world st)).1 ∧
    containers st2
    = match (implementation (input_data wf st s) (world st)).2 with
      | Return (Plain v) => <[s := v]> (containers st)
      | _ => containers st
      end.
Proof.
  intros Hbuild Hact Hget. unfold start_step, invoke, produce, after_call.
  unfold has_action in Hact. rewrite Hact, Hbuild, Hget. simpl.
  destruct (implementation (input_data wf st s) (world st)) as [w' [[v|p]|e]]; simpl;
    eexists; split_and!; reflexivity.
Qed.


(** *** The blocking run at one step *)

Lemma execute_at wf flowName flow pre s post st st1 r1 :
  Rec.get (wf_flows wf) flowName = Some flow →
  topologicalSort (fd_dependencies flow) = Done (pre ++ s :: post) →
  execute_loop wf flowName flow pre ∅ ∅ st = (st1, Returned r1) →
  has_action flow s →
  execute wf flowName st
  = match try_step wf flowName flow (results r1) s st1 with
    | (st2, inl v) =>
        execute_loop wf flowName flow post
          (<[s := v]> (results r1)) (<[s := v]> (results r1)) st2
    | (st2, inr e) => (st2, Raised (step_failed s e))
    end.
Proof.
  intros Hflow Hsort Hpre Hact. unfold execute. rewrite Hflow, Hsort.
  rewrite (execute_loop_app wf flowName flow pre (s :: post) ∅ st st1 r1 Hpre).
  simpl. unfold has_action in Hact. rewrite Hact. simpl.
  by destruct (try_step wf flowName flow (results r1) s st1) as [st2 [v|e]].
Qed.

Lemma execute_loop_prefix wf flowName flow pre rest : ∀ ctx res st st' r,
  execute_loop wf flowName flow (pre ++ rest) ctx res st = (st', Returned r) →
  ∃ st1 r1, execute_loop wf flowName flow pre ctx res st = (st1, Returned r1).
Proof.
  induction pre as [|s pre IH]; intros ctx res st st' r Hrun; simpl in *; [eauto|].
  destruct (negb (Rec.has (fd_steps flow) s)); [by eapply IH|].
  destruct (try_step wf flowName flow ctx s st) as [st1 [v|e]]; [by eapply IH | done].
Qed.

Lemma execute_loop_frame wf flowName flow order : ∀ ctx res st st' r,
  execute_loop wf flowName flow order ctx res st = (st', Returned r) →
  ∀ x, x ∉ order → results r !! x = res !! x.
Proof.
  induction order as [|s order IH]; intros ctx res st st' r Hrun x Hx; simpl in *.
  { by simplify_eq. }
  apply not_elem_of_cons in Hx as [Hne Hx].
  destruct (negb (Rec.has (fd_steps flow) s)); [by eapply IH|].
  destruct (try_step wf flowName flow ctx s st) as [st1 [v|e]]; [|done].
  rewrite (IH _ _ _ _ _ Hrun x Hx). by rewrite lookup_insert_ne.
Qed.

(** In the build flow every result is also in the container store. *)
Lemma try_step_build_containers wf flowName flow ctx s st st1 v :
  is_build_flow wf flowName = true →
  try_step wf flowName flow ctx s st = (st1, inl v) →
  containers st1 = <[s := v]> (containers st).
Proof.
  intros Hbuild. unfold try_step.
  pose proof (invoke_containers wf flowName flow ctx s st) as Hc.
  destruct (invoke wf flowName flow ctx s st) as [st0 [[v'|p]|e]]; intros Heq;
    simplify_eq.
  destruct (produce_spec wf flowName s v st0) as (_ & -> & _).
  rewrite Hbuild. simpl in Hc. by rewrite Hc.
Qed.

Lemma execute_loop_build_containers wf flowName flow order :
  is_build_flow wf flowName = true →
  ∀ ctx res st st' r,
    execute_loop wf flowName flow order ctx res st = (st', Returned r) →
    (∀ x v, res !! x = Some v → containers st !! x = Some v) →
    ∀ x v, results r !! x = Some v → containers st' !! x = Some v.
Proof.
  intros Hbuild.
  induction order as [|s order IH]; intros ctx res st st' r Hrun Hres; simpl in *.
  { by simplify_eq. }
  destruct (negb (Rec.has (fd_steps flow) s)); [by eapply IH|].
  destruct (try_step wf flowName flow ctx s st) as [st1 [v|e]] eqn:Hstep; [|done].
  eapply IH; [done|].
  rewrite (try_step_build_containers _ _ _ _ _ _ _ _ Hbuild Hstep).
  intros x v'. destruct (decide (x = s)) as [->|Hne].
  - by rewrite !lookup_insert_eq.
  - rewrite !lookup_insert_ne by done. apply Hres.
Qed.


(** *** The concurrent run at one step *)

Lemma start_level_app wf flowName flow ctx l1 : ∀ l2 st,
  start_level wf flowName flow ctx (l1 ++ l2) st
  = (let '(sta, t1) := start_level wf flowName flow ctx l1 st in
     let '(stb, t2) := start_level wf flowName flow ctx l2 sta in
     (stb, t1 ++ t2)).
Proof.
  induction l1 as [|x l1 IH]; intros l2 st; simpl.
  - by destruct (start_level wf flowName flow ctx l2 st).
  - destruct (start_step wf flowName flow ctx x st) as [st1 t]. rewrite IH.
    destruct (start_level wf flowName flow ctx l1 st1) as [sta t1].
    by destruct (start_level wf flowName flow ctx l2 sta) as [stb t2].
Qed.

Lemma start_level_length wf flowName flow ctx lvl : ∀ st,
  length (start_level wf flowName flow ctx lvl st).2 = length lvl.
Proof.
  induction lvl as [|x lvl IH]; intros st; simpl; [done|].
  destruct (start_step wf flowName flow ctx x st) as [st1 t].
  specialize (IH st1).
  destruct (start_level wf flowName flow ctx lvl st1) as [st2 ts]. simpl in *.
  by rewrite IH.
Qed.

Lemma executeAsync_loop_app wf flowName flow pre :
  ∀ schedule (m : gmap string V) st st1 r1,
  executeAsync_loop wf flowName flow pre schedule m m st = (st1, Returned r1) →
  ∃ schedule1,
    (pre = [] → schedule1 = schedule) ∧
    ∀ rest,
      executeAsync_loop wf flowName flow (pre ++ rest) schedule m m st
      = executeAsync_loop wf flowName flow rest schedule1
          (results r1) (results r1) st1.
Proof.
  induction pre as [|lvl pre IH]; intros schedule m st st1 r1 Hpre.
  - simpl in Hpre. simplify_eq. by exists schedule.
  - cbn [executeAsync_loop app] in *.
    destruct (start_level wf flowName flow m lvl st) as [st0 tasks].
    destruct (await_all wf flowName schedule tasks st0) as [[schedule' st2] [items|e|]];
      [|done..].
    destruct (IH _ _ _ _ _ Hpre) as (schedule1 & _ & Hrest).
    exists schedule1. split; [done|]. apply Hrest.
Qed.

Lemma executeAsync_loop_prefix wf flowName flow pre rest :
  ∀ schedule ctx res st st' r,
  executeAsync_loop wf flowName flow (pre ++ rest) schedule ctx res st
  = (st', Returned r) →
  ∃ st1 r1,
    executeAsync_loop wf flowName flow pre schedule ctx res st = (st1, Returned r1).
Proof.
  induction pre as [|lvl pre IH]; intros schedule ctx res st st' r Hrun.
  - simpl. eauto.
  - cbn [executeAsync_loop app] in *.
    destruct (start_level wf flowName flow ctx lvl st) as [st0 tasks].
    destruct (await_all wf flowName schedule tasks st0) as [[schedule' st2] [items|e|]];
      [by eapply IH | done..].
Qed.

Lemma executeAsync_at wf flowName flow order levels pre l1 s l2 post
    schedule st st1 r1 sta tasks1 :
  Rec.get (wf_flows wf) flowName = Some flow →
  topologicalSort (fd_dependencies flow) = Done order →
  groupStepsByLevel (fd_dependencies flow) order = Some levels →
  levels = pre ++ (l1 ++ s :: l2) :: post →
  executeAsync_loop wf flowName flow pre schedule ∅ ∅ st = (st1, Returned r1) →
  start_level wf flowName flow (results r1) l1 st1 = (sta, tasks1) →
  ∃ schedule1,
    (pre = [] → schedule1 = schedule) ∧
    executeAsync wf flowName schedule st
    = (let '(stb, t) := start_step wf flowName flow (results r1) s sta in
       let '(stc, tasks2) := start_level wf flowName flow (results r1) l2 stb in
       match await_all wf flowName schedule1 (tasks1 ++ t :: tasks2) stc with
       | (schedule2, st2, AllResolved items) =>
           executeAsync_loop wf flowName flow post schedule2
             (fold_results items (results r1)) (fold_results items (results r1)) st2
       | (_, st2, OneRejected e) => (st2, Raised e)
       | (_, st2, NeverSettled) => (st2, Unsettled)
       end).
Proof.
  intros Hflow Hsort Hgroup -> Hpre Hl1.
  destruct (executeAsync_loop_app wf flowName flow pre schedule ∅ st st1 r1 Hpre)
    as (schedule1 & Hfirst & Hrest).
  exists schedule1. split; [done|].
  unfold executeAsync. rewrite Hflow, Hsort, Hgroup, Hrest.
  cbn [executeAsync_loop]. rewrite start_level_app, Hl1. cbn [start_level].
  destruct (start_step wf flowName flow (results r1) s sta) as [stb t].
  by destruct (start_level wf flowName flow (results r1) l2 stb) as [stc tasks2].
Qed.

(** *** What becomes of the promises of a level *)

Lemma settled_from_refl (t : @task V W) : settled_from t t.
Proof. destruct t as [| | |s p]; simpl; try done. left. by exists p. Qed.

Lemma resume_task_settled wf flowName (t0 t : @task V W) st :
  settled_from t0 t → settled_from t0 (resume_task wf flowName t st).2.
Proof.
  destruct t0 as [| | |s p]; simpl; try (by intros ->).
  intros [(q & -> & Hq) | [(v & -> & Hv) | (e & -> & He)]]; simpl.
  - destruct q as [v|e|k]; simpl.
    + right. left. by exists v.
    + right. right. by exists e.
    + destruct (k (world st)) as [w' q'] eqn:Hk. simpl. left. exists q'.
      split; [done|]. eapply rtc_r; [done|]. exists k, (world st).
      by rewrite Hk.
  - right. left. by exists v.
  - right. right. by exists e.
Qed.

Lemma resume_at_both wf flowName flow lvl i (tasks0 tasks : list (@task V W)) st :
  Forall2 (task_of wf flowName flow) lvl tasks →
  Forall2 settled_from tasks0 tasks →
  Forall2 (task_of wf flowName flow) lvl (resume_at wf flowName i tasks st).2 ∧
  Forall2 settled_from tasks0 (resume_at wf flowName i tasks st).2.
Proof.
  intros Htasks Hsettled.
  split; [by apply resume_at_tasks|].
  unfold resume_at. destruct (tasks !! i) as [t|] eqn:Hi; [|done].
  destruct (Forall2_lookup_r _ _ _ _ _ Hsettled Hi) as (t0 & Ht0 & Hfrom).
  pose proof (resume_task_settled wf flowName t0 t st Hfrom) as Hfrom'.
  destruct (resume_task wf flowName t st) as [st' t']. simpl in *.
  rewrite <- (list_insert_id tasks0 i t0 Ht0). by apply Forall2_insert.
Qed.

Lemma await_all_both wf flowName flow lvl (tasks0 : list (@task V W)) schedule :
  ∀ tasks st,
  Forall2 (task_of wf flowName flow) lvl tasks →
  Forall2 settled_from tasks0 tasks →
  ∃ tasks',
    Forall2 (task_of wf flowName flow) lvl tasks' ∧
    Forall2 settled_from tasks0 tasks' ∧
    match (await_all wf flowName schedule tasks st).2 with
    | AllResolved items => level_results tasks' = Some items
    | OneRejected e => first_rejection tasks' = Some e
    | NeverSettled => True
    end.
Proof.
  induction schedule as [|i schedule IH]; intros tasks st Htasks Hsettled; simpl.
  - destruct (first_rejection tasks) as [e|] eqn:Hrej; simpl; [by exists tasks|].
    destruct (level_results tasks) as [items|] eqn:Hres; simpl; by exists tasks.
  - destruct (first_rejection tasks) as [e|] eqn:Hrej; simpl; [by exists tasks|].
    destruct (level_results tasks) as [items|] eqn:Hres; simpl; [by exists tasks|].
    destruct (resume_at_both wf flowName flow lvl i tasks0 tasks st Htasks Hsettled)
      as [Ht1 Hs1].
    destruct (resume_at wf flowName i tasks st) as [st1 tasks1]. simpl in *.
    by apply IH.
Qed.

(** The item of a step of a level that resolved. *)
Lemma level_item wf flowName flow lvl (tasks : list (@task V W)) items i s v :
  NoDup lvl →
  Forall2 (task_of wf flowName flow) lvl tasks →
  level_results tasks = Some items →
  tasks !! i = Some (TaskDone s v) →
  ∀ m : gmap string V, fold_results items m !! s = Some v.
Proof.
  intros Hnd Htasks Hres Hi m.
  destruct (level_results_Some tasks items Hres) as [_ Hitems].
  destruct (Forall2_lookup_r _ _ _ _ _ Htasks Hi) as (x & Hx & [[<- _] _]).
  apply fold_results_lookup.
  - intros v' [j Hj]%Hitems%list_elem_of_lookup.
    destruct (Forall2_lookup_r _ _ _ _ _ Htasks Hj) as (y & Hy & [[<- _] _]).
    assert (i = j) as <- by (by eapply NoDup_lookup). by simplify_eq.
  - left. apply Hitems. by eapply list_elem_of_lookup_2.
Qed.

Lemma executeAsync_loop_frame wf flowName flow levels :
  ∀ schedule ctx res st st' r,
  executeAsync_loop wf flowName flow levels schedule ctx res st
  = (st', Returned r) →
  ∀ x, x ∉ concat levels → results r !! x = res !! x.
Proof.
  induction levels as [|lvl levels IH]; intros schedule ctx res st st' r Hrun x Hx.
  { simpl in Hrun. by simplify_eq. }
  cbn [executeAsync_loop] in Hrun. simpl in Hx.
  apply not_elem_of_app in Hx as [Hlvl Hrest].
  destruct (start_level_tasks wf flowName flow ctx lvl st) as [Htasks _].
  destruct (start_level wf flowName flow ctx lvl st) as [st0 tasks]. simpl in *.
  destruct (await_all_tasks wf flowName flow lvl schedule tasks st0 Htasks)
    as [_ (tasks' & Htasks' & Hout)].
  destruct (await_all wf flowName schedule tasks st0) as [[schedule' st2] [items|e|]];
    simpl in *; [|done..].
  rewrite (IH _ _ _ _ _ _ Hrun x Hrest).
  apply fold_results_other. intros v Hv.
  destruct (level_items wf flowName flow lvl tasks' items Htasks' Hout x) as [Hin _].
  destruct Hlvl. apply Hin. by exists v.
Qed.


(** *** A level whose promises are fulfilled resolves *)





(** *** A rejection reaches [Promise.all] *)






(** *** The steps whose events a run adds to the log *)








End Calls.

Section Failures.

Context {V W : Type} `{!JsValue V}.

Implicit Types (wf : @Workflow V W) (flow : @FlowDefinition V W)
  (st : @state V W) (ctx res : gmap string V) (b : @WorkflowBuilder V W).




End Failures.

Section Contexts.

Context {V W : Type} `{!JsValue V}.

Implicit Types (wf : @Workflow V W) (flow : @FlowDefinition V W)
  (st : @state V W) (ctx res : gmap string V) (b : @WorkflowBuilder V W).

(** *** The input data of a step implementation *)

Lemma input_data_spec wf st s d :
  input_data wf st s !! d
  = if decide (d ∈ deps (wf_dependencies wf) s)
    then Some (container_of st d) else None.
Proof.
  unfold input_data.
  assert (Hfold : ∀ ds (acc : gmap string V),
    foldl (λ inputData dep, <[dep := container_of st dep]> inputData) acc ds !! d
    = if decide (d ∈ ds) then Some (container_of st d) else acc !! d).
  { induction ds as [|x ds IH]; intros acc; cbn [foldl].
    - rewrite decide_False; [done | by intros ?%elem_of_nil].
    - rewrite IH. destruct (decide (d ∈ ds)) as [Hin|Hout].
      + rewrite decide_True; [done | by right].
      + destruct (decide (d = x)) as [->|Hne].
        * rewrite lookup_insert_eq, decide_True; [done | left].
        * rewrite lookup_insert_ne by done.
          rewrite decide_False; [done|]. by intros [? | ?]%elem_of_cons. }
  rewrite Hfold. by case_decide.
Qed.

(** *** The record of the steps that ran before *)

Lemma prefix_results wf flowName flow pre st st1 r1 :
  execute_loop wf flowName flow pre ∅ ∅ st = (st1, Returned r1) →
  ∀ x, is_Some (results r1 !! x) ↔ x ∈ pre ∧ has_action flow x.
Proof.
  intros Hpre x.
  pose proof (execute_loop_outcome wf flowName flow pre ∅ ∅ st) as Hout.
  rewrite Hpre in Hout. simpl in Hout. destruct Hout as [Hdom _].
  rewrite Hdom, lookup_empty. split; [|by right].
  intros [[? ?] | ?]; done.
Qed.

Lemma prefix_containers wf flowName flow pre st st1 r1 :
  is_build_flow wf flowName = true →
  execute_loop wf flowName flow pre ∅ ∅ st = (st1, Returned r1) →
  ∀ x, x ∈ pre → has_action flow x → containers st1 !! x = results r1 !! x.
Proof.
  intros Hbuild Hpre x Hx Hact.
  destruct (proj2 (prefix_results wf flowName flow pre st st1 r1 Hpre x)) as [v Hv];
    [done|].
  rewrite Hv.
  by apply (execute_loop_build_containers wf flowName flow pre Hbuild ∅ ∅ st st1 r1 Hpre).
Qed.

Lemma sorted_deps_before (g : graph) pre s post :
  topologicalSort g = Done (pre ++ s :: post) →
  ∀ d, d ∈ deps g s → d ∈ pre.
Proof.
  intros Hsort. pose proof (topologicalSort_spec g) as Hspec.
  rewrite Hsort in Hspec. destruct Hspec as (_ & Hord%ordered_dep_sorted & _).
  by apply (Hord pre s post).
Qed.

Lemma sorted_NoDup (g : graph) order : topologicalSort g = Done order → NoDup order.
Proof.
  intros Hsort. pose proof (topologicalSort_spec g) as Hspec.
  rewrite Hsort in Hspec. by destruct Hspec as (? & _).
Qed.

(** The results of the steps that ran before stay as they are to the end
    of the run. *)
Lemma execute_keeps wf flowName flow pre s post st st1 r1 st' r :
  Rec.get (wf_flows wf) flowName = Some flow →
  topologicalSort (fd_dependencies flow) = Done (pre ++ s :: post) →
  execute_loop wf flowName flow pre ∅ ∅ st = (st1, Returned r1) →
  execute wf flowName st = (st', Returned r) →
  ∀ x, x ∈ pre → results r !! x = results r1 !! x.
Proof.
  intros Hflow Hsort Hpre Hrun x Hx.
  pose proof (sorted_NoDup _ _ Hsort) as Hnd.
  apply NoDup_app in Hnd as (_ & Hdisj & _).
  unfold execute in Hrun. rewrite Hflow, Hsort in Hrun.
  rewrite (execute_loop_app wf flowName flow pre (s :: post) ∅ st st1 r1 Hpre) in Hrun.
  by apply (execute_loop_frame wf flowName flow (s :: post) _ _ _ _ _ Hrun x), Hdisj.
Qed.

Lemma async_prefix_results wf flowName flow pre schedule st st1 r1 :
  executeAsync_loop wf flowName flow pre schedule ∅ ∅ st = (st1, Returned r1) →
  ∀ x, is_Some (results r1 !! x) ↔ x ∈ concat pre ∧ has_action flow x.
Proof.
  intros Hpre x.
  destruct (executeAsync_loop_outcome wf flowName flow pre schedule ∅ ∅ st)
    as [_ Hout].
  rewrite Hpre in Hout. simpl in Hout. destruct Hout as [Hdom _].
  rewrite Hdom, lookup_empty. split; [|by right].
  intros [[? ?] | ?]; done.
Qed.

Lemma async_prefix_containers wf flowName flow order levels pre rest schedule
    st st1 r1 :
  topologicalSort (fd_dependencies flow) = Done order →
  groupStepsByLevel (fd_dependencies flow) order = Some levels →
  levels = pre ++ rest →
  is_build_flow wf flowName = true →
  executeAsync_loop wf flowName flow pre schedule ∅ ∅ st = (st1, Returned r1) →
  ∀ x, x ∈ concat pre → has_action flow x → containers st1 !! x = results r1 !! x.
Proof.
  intros Hsort Hgroup -> Hbuild Hpre x Hx Hact.
  destruct (levels_structure _ _ Hsort) as (levels' & Hgroup' & Hnd & _ & Hlv).
  rewrite Hgroup in Hgroup'. simplify_eq.
  rewrite concat_app in Hnd. apply NoDup_app in Hnd as (Hnd & _ & _).
  destruct (executeAsync_loop_inv wf flowName flow
              (λ x s, step_level (fd_dependencies flow) x
                      < step_level (fd_dependencies flow) s)
              pre [] [] ∅ ∅ st (trace st) schedule)
    as (st' & out & new' & Hrun & _ & _ & _ & Hout).
  - by rewrite app_nil_r.
  - apply run_inv_empty.
  - done.
  - intros p lvl q ->. simpl.
    apply (Hlv p lvl (q ++ rest)). by rewrite <- app_assoc.
  - rewrite Hpre in Hrun. simplify_eq. destruct Hout as [ctx' Hinv]. simpl in *.
    destruct (inv_done _ _ _ _ _ _ _ _ _ Hinv x Hx Hact) as (i & v & Hi).
    destruct (inv_produced _ _ _ _ _ _ _ _ _ Hinv i x v Hi) as (_ & _ & -> & Hc).
    by apply Hc.
Qed.


Lemma executeAsync_keeps wf flowName flow order levels pre rest schedule
    st st1 r1 st' r :
  Rec.get (wf_flows wf) flowName = Some flow →
  topologicalSort (fd_dependencies flow) = Done order →
  groupStepsByLevel (fd_dependencies flow) order = Some levels →
  levels = pre ++ rest →
  executeAsync_loop wf flowName flow pre schedule ∅ ∅ st = (st1, Returned r1) →
  executeAsync wf flowName schedule st = (st', Returned r) →
  ∀ x, x ∈ concat pre → results r !! x = results r1 !! x.
Proof.
  intros Hflow Hsort Hgroup -> Hpre Hrun x Hx.
  destruct (levels_structure _ _ Hsort) as (levels' & Hgroup' & Hnd & _ & _).
  rewrite Hgroup in Hgroup'. simplify_eq.
  rewrite concat_app in Hnd. apply NoDup_app in Hnd as (_ & Hdisj & _).
  destruct (executeAsync_loop_app wf flowName flow pre schedule ∅ st st1 r1 Hpre)
    as (schedule1 & _ & Hrest).
  unfold executeAsync in Hrun. rewrite Hflow, Hsort, Hgroup, Hrest in Hrun.
  by apply (executeAsync_loop_frame wf flowName flow rest _ _ _ _ _ _ Hrun x), Hdisj.
Qed.

End Contexts.

Section Values.

Context {V W : Type} `{!JsValue V}.






(** The value of a step in the results of a blocking run that returned is
    the value its call returned, in the state and with the context that
    the steps before it left. *)
Lemma execute_loop_value wf flowName flow pre s post (st st' : @state V W) r :
  NoDup (pre ++ s :: post) →
  has_action flow s →
  execute_loop wf flowName flow (pre ++ s :: post) ∅ ∅ st = (st', Returned r) →
  ∃ st1 r1 st2 v,
    execute_loop wf flowName flow pre ∅ ∅ st = (st1, Returned r1) ∧
    try_step wf flowName flow (results r1) s st1 = (st2, inl v) ∧
    results r !! s = Some v.
Proof.
  intros Hnd Hact Hrun.
  apply NoDup_app in Hnd as (_ & _ & [Hs _]%NoDup_cons).
  destruct (execute_loop_prefix wf flowName flow pre (s :: post) _ _ _ _ _ Hrun)
    as (st1 & r1 & Hpre).
  rewrite (execute_loop_app wf flowName flow pre (s :: post) ∅ st st1 r1 Hpre) in Hrun.
  simpl in Hrun. unfold has_action in Hact. rewrite Hact in Hrun. simpl in Hrun.
  destruct (try_step wf flowName flow (results r1) s st1) as [st2 [v|e]] eqn:Hstep;
    [|done].
  exists st1, r1, st2, v. split_and!; [done | done |].
  rewrite (execute_loop_frame wf flowName flow post _ _ _ _ _ Hrun s Hs).
  by rewrite lookup_insert_eq.
Qed.


Lemma Forall2_middle {A B} (P : A → B → Prop) l1 x l2 k :
  Forall2 P (l1 ++ x :: l2) k →
  ∃ k1 y k2, k = k1 ++ y :: k2 ∧ length k1 = length l1 ∧ P x y ∧
             Forall2 P l1 k1 ∧ Forall2 P l2 k2.
Proof.
  intros (k1 & k' & H1 & H2 & ->)%Forall2_app_inv_l.
  apply Forall2_cons_inv_l in H2 as (y & k2 & Hy & H2 & ->).
  exists k1, y, k2. split_and!; try done. symmetry. by eapply Forall2_length.
Qed.

(** The tasks of a level whose [Promise.all] resolved: each has come from
    the task that the start of the level left, and the results of the
    level hold the value of each that had a call to make. *)
Lemma level_values wf flowName flow lvl schedule (tasks : list (@task V W)) st
    schedule2 st2 items :
  NoDup lvl →
  Forall2 (task_of wf flowName flow) lvl tasks →
  await_all wf flowName schedule tasks st = (schedule2, st2, AllResolved items) →
  ∀ i s t, lvl !! i = Some s → tasks !! i = Some t → has_action flow s →
    ∃ v, settled_from t (TaskDone s v) ∧
         ∀ m : gmap string V, fold_results items m !! s = Some v.
Proof.
  intros Hnd Htasks Hawait i s t Hs Ht Hact.
  destruct (await_all_both wf flowName flow lvl tasks schedule tasks st Htasks)
    as (tasks' & Htasks' & Hfrom & Hres).
  { apply Forall_Forall2_diag, Forall_forall. intros. apply settled_from_refl. }
  rewrite Hawait in Hres. simpl in Hres.
  destruct (Forall2_lookup_l _ _ _ _ _ Hfrom Ht) as (t' & Ht' & Hsettled).
  destruct (Forall2_lookup_lr _ _ _ _ _ _ Htasks' Hs Ht') as [Hfor _].
  assert (Hdone : ∃ v, t' = TaskDone s v).
  { clear -Hres Ht' Hfor Hact. revert i items Hres Ht'.
    induction tasks' as [|t0 tasks' IH]; intros i items Hres Ht'; [done|].
    destruct i as [|i]; simpl in *.
    - simplify_eq. destruct t' as [|s' v|e|s' p]; simpl in *.
      + done.
      + destruct Hfor as [-> _]. by exists v.
      + done.
      + done.
    - destruct t0; simpl in Hres; try done;
        destruct (level_results tasks') as [items'|]; simpl in Hres; try done;
        by eapply IH. }
  destruct Hdone as [v ->]. exists v. split; [done|].
  by eapply level_item.
Qed.

(** The value of a step in the results of a concurrent run that returned
    is the value its call returned, or the value that the promise it
    returned was fulfilled with; the call was made in the state that the
    callbacks started before it in its level left, with the results of
    the earlier levels as context. *)
Lemma executeAsync_loop_value wf flowName flow pre l1 s l2 post
    schedule (st st' : @state V W) r :
  NoDup (concat (pre ++ (l1 ++ s :: l2) :: post)) →
  has_action flow s →
  executeAsync_loop wf flowName flow (pre ++ (l1 ++ s :: l2) :: post)
                    schedule ∅ ∅ st = (st', Returned r) →
  ∃ st1 r1 sta tasks1 stb t v,
    executeAsync_loop wf flowName flow pre schedule ∅ ∅ st = (st1, Returned r1) ∧
    start_level wf flowName flow (results r1) l1 st1 = (sta, tasks1) ∧
    start_step wf flowName flow (results r1) s sta = (stb, t) ∧
    settled_from t (TaskDone s v) ∧
    results r !! s = Some v.
Proof.
  intros Hnd Hact Hrun.
  destruct (executeAsync_loop_prefix wf flowName flow pre _ _ _ _ _ _ _ Hrun)
    as (st1 & r1 & Hpre).
  destruct (executeAsync_loop_app wf flowName flow pre schedule ∅ st st1 r1 Hpre)
    as (schedule1 & _ & Hrest).
  rewrite Hrest in Hrun. clear Hrest. cbn [executeAsync_loop] in Hrun.
  destruct (start_level wf flowName flow (results r1) l1 st1) as [sta tasks1] eqn:Hl1.
  rewrite start_level_app, Hl1 in Hrun. cbn [start_level] in Hrun.
  destruct (start_step wf flowName flow (results r1) s sta) as [stb t] eqn:Hs.
  destruct (start_level wf flowName flow (results r1) l2 stb) as [stc tasks2] eqn:Hl2.
  destruct (await_all wf flowName schedule1 (tasks1 ++ t :: tasks2) stc)
    as [[schedule2 st2] [items|e|]] eqn:Hawait; [|done..].
  rewrite concat_app in Hnd. apply NoDup_app in Hnd as (_ & _ & Hnd).
  simpl in Hnd. apply NoDup_app in Hnd as (Hlvl & Hpost & _).
  assert (Htasks : Forall2 (task_of wf flowName flow) (l1 ++ s :: l2)
                           (tasks1 ++ t :: tasks2)).
  { destruct (start_level_tasks wf flowName flow (results r1) (l1 ++ s :: l2) st1)
      as [Hall _].
    rewrite start_level_app, Hl1 in Hall. simpl in Hall.
    by rewrite Hs, Hl2 in Hall. }
  assert (Hlen : length tasks1 = length l1).
  { pose proof (start_level_length wf flowName flow (results r1) l1 st1) as Hlen.
    by rewrite Hl1 in Hlen. }
  destruct (level_values wf flowName flow (l1 ++ s :: l2) schedule1
              (tasks1 ++ t :: tasks2) stc schedule2 st2 items Hlvl Htasks Hawait
              (length l1) s t) as (v & Hsettled & Hitem).
  { by apply list_lookup_middle. }
  { by apply list_lookup_middle. }
  { done. }
  exists st1, r1, sta, tasks1, stb, t, v. split_and!; [done | done | done | done |].
  rewrite (executeAsync_loop_frame wf flowName flow post _ _ _ _ _ _ Hrun s).
  - apply Hitem.
  - apply Hpost. set_solver.
Qed.



End Values.

Section Results.

Context {V W : Type} `{!JsValue V}.

(** C6, amended. In blocking mode, when the run comes to a step [s],
    the steps before it in the order have run and [r1] is the record of
    their results: it has an entry for exactly those of them that have an
    action, among them the flow-local dependencies of [s]; the entry of
    each is the value that its own call returned, made when the run came
    to it, and the result that the run returns for it in the end. The
    flow action of [s] is applied to the container value of [s] and to
    this record as its context, and the run goes on with the value it
    returns. In concurrent mode the same holds with the steps of the
    earlier levels in place of the steps before [s]: the context of every
    step of a level is the record of the results of the earlier levels,
    which has no entry for a step of the level itself, whichever of them
    were called before. A step implementation (build flow) receives no
    context but input data: an entry for each of its declared
    dependencies and no other, holding the container value of the
    dependency, which for a dependency that ran before (in an earlier
    level) is the result of that dependency in this run. *)
Theorem context_holds_earlier_results (wf : @Workflow V W) flowName flow order :
  Rec.get (wf_flows wf) flowName = Some flow →
  topologicalSort (fd_dependencies flow) = Done order →
  (∀ pre s post st st1 r1,
     order = pre ++ s :: post →
     execute_loop wf flowName flow pre ∅ ∅ st = (st1, Returned r1) →
     has_action flow s →
     (∀ x, is_Some (results r1 !! x) ↔ x ∈ pre ∧ has_action flow x) ∧
     (∀ d, d ∈ deps (fd_dependencies flow) s → d ∈ pre) ∧
     (∀ pre0 d post0,
        pre = pre0 ++ d :: post0 → has_action flow d →
        ∃ st0 r0 st0' v,
          execute_loop wf flowName flow pre0 ∅ ∅ st = (st0, Returned r0) ∧
          try_step wf flowName flow (results r0) d st0 = (st0', inl v) ∧
          results r1 !! d = Some v) ∧
     (∀ st' r, execute wf flowName st = (st', Returned r) →
               ∀ x, x ∈ pre → results r !! x = results r1 !! x) ∧
     execute wf flowName st
     = match try_step wf flowName flow (results r1) s st1 with
       | (st2, inl v) =>
           execute_loop wf flowName flow post
             (<[s := v]> (results r1)) (<[s := v]> (results r1)) st2
       | (st2, inr e) => (st2, Raised (step_failed s e))
       end ∧
     (∀ action,
        is_build_flow wf flowName = false →
        Rec.get (fd_steps flow) s = Some action →
        ∃ st2,
          try_step wf flowName flow (results r1) s st1
          = (st2, value_or_thrown (action_returned_promise s)
                    (action (container_of st1 s) (results r1) (world st1)).2) ∧
          world st2 = (action (container_of st1 s) (results r1) (world st1)).1) ∧
     (∀ implementation,
        is_build_flow wf flowName = true →
        wf_steps wf !! s = Some implementation →
        (∃ st2,
           try_step wf flowName flow (results r1) s st1
           = (st2, value_or_thrown (step_returned_promise s)
                     (implementation (input_data wf st1 s) (world st1)).2) ∧
           world st2 = (implementation (input_data wf st1 s) (world st1)).1) ∧
        (∀ d, input_data wf st1 s !! d
              = if decide (d ∈ deps (wf_dependencies wf) s)
                then Some (container_of st1 d) else None) ∧
        (∀ d, d ∈ pre → has_action flow d →
              containers st1 !! d = results r1 !! d))) ∧
  ∃ levels,
    groupStepsByLevel (fd_dependencies flow) order = Some levels ∧
    ∀ pre l1 s l2 post schedule st st1 r1 sta tasks1,
      levels = pre ++ (l1 ++ s :: l2) :: post →
      executeAsync_loop wf flowName flow pre schedule ∅ ∅ st = (st1, Returned r1) →
      start_level wf flowName flow (results r1) l1 st1 = (sta, tasks1) →
      has_action flow s →
      (∀ x, is_Some (results r1 !! x) ↔ x ∈ concat pre ∧ has_action flow x) ∧
      (∀ d, d ∈ deps (fd_dependencies flow) s → d ∈ concat pre) ∧
      (∀ x, x ∈ l1 ++ s :: l2 → results r1 !! x = None) ∧
      (∀ pre0 k1 d k2 post0,
         pre = pre0 ++ (k1 ++ d :: k2) :: post0 → has_action flow d →
         ∃ st0 r0 st0a tasks0 st0b t v,
           executeAsync_loop wf flowName flow pre0 schedule ∅ ∅ st
           = (st0, Returned r0) ∧
           start_level wf flowName flow (results r0) k1 st0 = (st0a, tasks0) ∧
           start_step wf flowName flow (results r0) d st0a = (st0b, t) ∧
           settled_from t (TaskDone d v) ∧
           results r1 !! d = Some v) ∧
      (∀ st' r, executeAsync wf flowName schedule st = (st', Returned r) →
                ∀ x, x ∈ concat pre → results r !! x = results r1 !! x) ∧
      (∃ schedule1,
         (pre = [] → schedule1 = schedule) ∧
         executeAsync wf flowName schedule st
         = (let '(stb, t) := start_step wf flowName flow (results r1) s sta in
            let '(stc, tasks2) := start_level wf flowName flow (results r1) l2 stb in
            match await_all wf flowName schedule1 (tasks1 ++ t :: tasks2) stc with
            | (schedule2, st2, AllResolved items) =>
                executeAsync_loop wf flowName flow post schedule2
                  (fold_results items (results r1))
                  (fold_results items (results r1)) st2
            | (_, st2, OneRejected e) => (st2, Raised e)
            | (_, st2, NeverSettled) => (st2, Unsettled)
            end)) ∧
      (∀ action,
         is_build_flow wf flowName = false →
         Rec.get (fd_steps flow) s = Some action →
         ∃ stb,
           start_step wf flowName flow (results r1) s sta
           = (stb, task_after s
                     (action (container_of sta s) (results r1) (world sta)).2) ∧
           world stb = (action (container_of sta s) (results r1) (world sta)).1) ∧
      (∀ implementation,
         is_build_flow wf flowName = true →
         wf_steps wf !! s = Some implementation →
         (∃ stb,
            start_step wf flowName flow (results r1) s sta
            = (stb, task_after s
                      (implementation (input_data wf sta s) (world sta)).2) ∧
            world stb = (implementation (input_data wf sta s) (world sta)).1) ∧
         (∀ d, input_data wf sta s !! d
               = if decide (d ∈ deps (wf_dependencies wf) s)
                 then Some (container_of sta d) else None) ∧
         (∀ d, d ∈ concat pre → has_action flow d →
               containers sta !! d = results r1 !! d)).
Proof.
  intros Hflow Hsort. split.
  - intros pre s post st st1 r1 -> Hpre Hact. split_and!.
    + by eapply prefix_results.
    + by eapply sorted_deps_before.
    + intros pre0 d post0 -> Hd.
      apply (execute_loop_value wf flowName flow pre0 d post0 st st1 r1); [|done..].
      pose proof (sorted_NoDup _ _ Hsort) as Hnd.
      by apply NoDup_app in Hnd as (Hnd & _).
    + intros st' r Hrun. by eapply execute_keeps.
    + by apply (execute_at wf flowName flow pre s post).
    + intros action Hbuild Hget.
      destruct (try_step_action wf flowName flow (results r1) s st1 action Hbuild Hget)
        as (st2 & Hstep & Hw & _).
      by exists st2.
    + intros implementation Hbuild Hget. split_and!.
      * destruct (try_step_implementation wf flowName flow (results r1) s st1
                    implementation Hbuild Hget) as (st2 & Hstep & Hw & _).
        by exists st2.
      * intros d. apply input_data_spec.
      * by eapply prefix_containers.
  - destruct (levels_structure (fd_dependencies flow) order Hsort)
      as (levels & Hgroup & Hnd & _ & Hlv).
    exists levels. split; [done|].
    intros pre l1 s l2 post schedule st st1 r1 sta tasks1 Hlevels Hpre Hl1 Hact.
    pose proof (async_prefix_results wf flowName flow pre schedule st st1 r1 Hpre)
      as Hdom.
    assert (Hdisj : ∀ x, x ∈ concat pre → x ∉ l1 ++ s :: l2).
    { intros x Hx Hin. rewrite Hlevels, concat_app in Hnd. simpl in Hnd.
      apply NoDup_app in Hnd as (_ & Hd & _). apply (Hd x Hx). set_solver. }
    split_and!.
    + done.
    + intros d Hd. destruct (Hlv pre (l1 ++ s :: l2) post Hlevels) as [_ Hdeps].
      apply (Hdeps s d); [set_solver | done].
    + intros x Hx. destruct (results r1 !! x) as [v|] eqn:Hv; [|done].
      destruct (proj1 (Hdom x)) as [Hin _]; [by rewrite Hv|]. by destruct (Hdisj x).
    + intros pre0 k1 d k2 post0 Hpre0 Hd. subst pre.
      apply (executeAsync_loop_value wf flowName flow pre0 k1 d k2 post0 schedule
               st st1 r1); [|done..].
      rewrite Hlevels, concat_app in Hnd. by apply NoDup_app in Hnd as (Hnd & _).
    + intros st' r Hrun.
      by eapply (executeAsync_keeps wf flowName flow order levels pre
                   ((l1 ++ s :: l2) :: post)).
    + by apply (executeAsync_at wf flowName flow order levels pre l1 s l2 post
                  schedule st st1 r1 sta tasks1).
    + intros action Hbuild Hget.
      destruct (start_step_action wf flowName flow (results r1) s sta action Hbuild Hget)
        as (stb & Hstep & Hw & _).
      by exists stb.
    + intros implementation Hbuild Hget. split_and!.
      * destruct (start_step_implementation wf flowName flow (results r1) s sta
                    implementation Hbuild Hact Hget) as (stb & Hstep & Hw & _).
        by exists stb.
      * intros d. apply input_data_spec.
      * intros d Hd Hdact.
        rewrite <- (async_prefix_containers wf flowName flow order levels pre
                      ((l1 ++ s :: l2) :: post) schedule st st1 r1
                      Hsort Hgroup Hlevels Hbuild Hpre d Hd Hdact).
        destruct (start_level_tasks wf flowName flow (results r1) l1 st1) as [_ Hw].
        rewrite Hl1 in Hw. simpl in Hw. apply (Hw d).
        intros (_ & _ & Hin). apply (Hdisj d Hd). set_solver.
Qed.



End Results.

(** ** Instances on the scenarios *)


Lemma context_holds_earlier_results_witness :
  (∃ st1 st2,
     execute_loop flows_wf "chain" (flow_of flows_wf "chain") ["a"] ∅ ∅ flows_st
     = (st1, Returned run_prefix_a) ∧
     try_step flows_wf "chain" (flow_of flows_wf "chain") (results run_prefix_a)
              "b" st1
     = (st2, value_or_thrown (action_returned_promise "b")
               (reading_action (container_of st1 "b")
                               (<["a" := VStr "A-a-data"]> ∅) (world st1)).2) ∧
     value_or_thrown (action_returned_promise "b")
       (reading_action (container_of st1 "b")
                       (<["a" := VStr "A-a-data"]> ∅) (world st1)).2
     = inl (VStr "b-got-A-a-data")) ∧
  (∃ sta stb,
     start_level flows_wf "rejecting" (flow_of flows_wf "rejecting") ∅ ["a"]
                 flows_st
     = (sta, [TaskDone "a" (VStr "A-a-data")]) ∧
     (∀ x, x ∈ ["a"] ++ "b" :: [] → results empty_run !! x = None) ∧
     start_step flows_wf "rejecting" (flow_of flows_wf "rejecting") ∅ "b" sta
     = (stb, task_after "b"
               (rejecting_action (container_of sta "b") ∅ (world sta)).2)).
Proof.
  split.
  - set (flow := flow_of flows_wf "chain").
    assert (H1 : Rec.get (wf_flows flows_wf) "chain" = Some flow)
      by (vm_compute; reflexivity).
    assert (H2 : topologicalSort (fd_dependencies flow) = Done ["a"; "b"; "c"])
      by (vm_compute; reflexivity).
    set (st1 := (execute_loop flows_wf "chain" flow ["a"] ∅ ∅ flows_st).1).
    assert (Hpre : execute_loop flows_wf "chain" flow ["a"] ∅ ∅ flows_st
                   = (st1, Returned run_prefix_a))
      by (vm_compute; reflexivity).
    destruct (proj1 (context_holds_earlier_results flows_wf "chain" flow
                       ["a"; "b"; "c"] H1 H2)
                ["a"] "b" ["c"] flows_st st1 run_prefix_a eq_refl Hpre)
      as (_ & _ & _ & _ & _ & Haction & _).
    { vm_compute. reflexivity. }
    destruct (Haction reading_action) as (st2 & Hstep & _).
    { vm_compute. reflexivity. }
    { vm_compute. reflexivity. }
    exists st1, st2. split_and!; [exact Hpre | exact Hstep | reflexivity].
  - set (flow := flow_of flows_wf "rejecting").
    assert (H1 : Rec.get (wf_flows flows_wf) "rejecting" = Some flow)
      by (vm_compute; reflexivity).
    assert (H2 : topologicalSort (fd_dependencies flow) = Done ["a"; "b"; "c"])
      by (vm_compute; reflexivity).
    assert (H3 : groupStepsByLevel (fd_dependencies flow) ["a"; "b"; "c"]
                 = Some [["a"; "b"]; ["c"]])
      by (vm_compute; reflexivity).
    destruct (proj2 (context_holds_earlier_results flows_wf "rejecting" flow
                       ["a"; "b"; "c"] H1 H2)) as (levels & Hgroup & Hall).
    rewrite H3 in Hgroup. injection Hgroup as <-.
    set (sta := (start_level flows_wf "rejecting" flow ∅ ["a"] flows_st).1).
    assert (Hl1 : start_level flows_wf "rejecting" flow (results empty_run) ["a"]
                              flows_st
                  = (sta, [TaskDone "a" (VStr "A-a-data")]))
      by (vm_compute; reflexivity).
    destruct (Hall [] ["a"] "b" [] [["c"]] [] flows_st flows_st empty_run sta
                [TaskDone "a" (VStr "A-a-data")] eq_refl eq_refl Hl1)
      as (_ & _ & Hlevel & _ & _ & _ & Haction & _).
    { vm_compute. reflexivity. }
    destruct (Haction rejecting_action) as (stb & Hstep & _).
    { vm_compute. reflexivity. }
    { vm_compute. reflexivity. }
    exists sta, stb. split_and!; [exact Hl1 | exact Hlevel | exact Hstep].
Defined.


